(** * The research coordinator of deep_research_multiple_agent_project

    A shallow embedding of [coordinator.py]: the lexical scorer
    ([_tok], [_match_score]), the ranker inside [_research_queries], and
    the round loop of [ResearchCoordinator.research], followed by the
    properties of the specification that concern them.

    Conventions of the embedding.
    - A Python [str] is a [string]; a character stands for a code point
      below 256.
    - A Python [float] is an IEEE 754 binary64 number, [spec_float] with
      [prec = 53] and [emax = 1024]; sums and products are the correctly
      rounded ones of [SpecFloat], and the true division of two integers
      is the float nearest to their quotient.
    - A Python [int] is a [Z].
    - A value that may be [None] is a [pyval].
    - An exception is an instance of [Exception]; a piece of code
      returns a value or raises, an [outcome].
    - The language-model agents and the search provider are oracles that
      read and update an abstract world; the coordinator is written in a
      state-and-exception monad over its own fields, the world and the
      trace of its calls to the outside.
    - The callbacks [on_log] and [on_thought] receive a message and
      return; the messages are recorded in the trace.  The tracing
      context [trace("Deep Research Workflow")] only observes, and is
      left out. *)

From Stdlib Require Import ZArith Lia String Ascii List DecimalString.
From Stdlib Require Import Floats.SpecFloat.
From stdpp Require Import base gmap list strings sorting.

Local Open Scope Z_scope.

(* ================================================================= *)
(** * Part I: definitions *)
(* ================================================================= *)

(** ** Exceptions and outcomes *)

(** An instance of (a subclass of) [Exception]: the class name and the
    message.  The system-exiting exceptions ([KeyboardInterrupt],
    [SystemExit]) are signals of the runtime and are not modelled. *)
Inductive exn : Type :=
| PyExc (cls : string) (msg : string).

(** What running a piece of code yields.  [Diverge] only marks a loop
    that ran out of the fuel given to its model; [research_terminates]
    shows that [research] never yields it. *)
Inductive outcome (A : Type) : Type :=
| Ok (a : A)
| Raise (e : exn)
| Diverge.
Arguments Ok {A} a.
Arguments Raise {A} e.
Arguments Diverge {A}.

Definition outcome_bind {A B} (f : A → outcome B) (c : outcome A) : outcome B :=
  match c with
  | Ok a => f a
  | Raise e => Raise e
  | Diverge => Diverge
  end.

#[global] Instance outcome_ret : MRet outcome := @Ok.
#[global] Instance outcome_mbind : MBind outcome := @outcome_bind.

Definition is_Ok {A} (c : outcome A) : bool :=
  match c with Ok _ => true | _ => false end.

(** ** Python values *)

(** A value of type [str | None]. *)
Inductive pyval : Type :=
| PyNone
| PyStr (s : string).

#[global] Instance pyval_eq_dec : EqDecision pyval.
Proof. solve_decision. Defined.

(** Truth value: [None] and [""] are falsy. *)
Definition py_truthy (v : pyval) : bool :=
  match v with
  | PyNone => false
  | PyStr "" => false
  | PyStr _ => true
  end.

(** [a or b]. *)
Definition py_or (a b : pyval) : pyval :=
  if py_truthy a then a else b.

(** [str(v)], as an f-string renders a field. *)
Definition py_str (v : pyval) : string :=
  match v with
  | PyNone => "None"
  | PyStr s => s
  end.

(** [len(l)] *)
Definition len {A} (l : list A) : Z := Z.of_nat (length l).

(** [l[:k]] on a list, for any integer [k]: a negative [k] counts from
    the end. *)
Definition slice_to {A} (k : Z) (l : list A) : list A :=
  if 0 <=? k then take (Z.to_nat k) l
  else take (Z.to_nat (len l + k)) l.

(** [enumerate(l, start)] *)
Fixpoint enumerate {A} (start : Z) (l : list A) : list (Z * A) :=
  match l with
  | [] => []
  | x :: l' => (start, x) :: enumerate (start + 1) l'
  end.

(** ** Python strings *)

Module Str.

Definition code (c : ascii) : Z := Z.of_N (N_of_ascii c).

Definition in_range (lo hi : Z) (c : ascii) : bool :=
  (lo <=? code c) && (code c <=? hi).

(** [str.lower] on one code point below 256: [A-Z] and the Latin-1
    capitals (U+00C0..U+00DE without the multiplication sign) move up
    by 32. *)
Definition lower_char (c : ascii) : ascii :=
  if in_range 65 90 c || in_range 192 214 c || in_range 216 222 c
  then ascii_of_N (N_of_ascii c + 32)
  else c.

Fixpoint lower (s : string) : string :=
  match s with
  | EmptyString => EmptyString
  | String c s' => String (lower_char c) (lower s')
  end.

(** [str.isspace] on one code point below 256. *)
Definition isspace (c : ascii) : bool :=
  in_range 9 13 c || in_range 28 32 c
  || (code c =? 133) || (code c =? 160).

(** The fields of [s] between white-space characters, empty ones
    included; the head is the field being read. *)
Fixpoint fields (s : string) : list string :=
  match s with
  | EmptyString => [EmptyString]
  | String c s' =>
      if isspace c then EmptyString :: fields s'
      else match fields s' with
           | w :: ws => String c w :: ws
           | [] => [String c EmptyString]
           end
  end.

Definition nonempty (s : string) : bool :=
  match s with EmptyString => false | _ => true end.

(** [s.split()]: the maximal runs of non-white-space characters. *)
Definition split (s : string) : list string :=
  filter (λ w, nonempty w = true) (fields s).

(** [sep.join(l)] *)
Definition join (sep : string) (l : list string) : string :=
  String.concat sep l.

(** [needle in hay] *)
Fixpoint contains (hay needle : string) : bool :=
  String.prefix needle hay
  || match hay with
     | EmptyString => false
     | String _ hay' => contains hay' needle
     end.

(** [s[:n]] for [0 <= n] *)
Definition slice_to (n : nat) (s : string) : string :=
  String.substring 0 n s.

(** [str(i)] of an integer *)
Definition of_Z (i : Z) : string :=
  NilZero.string_of_int (Z.to_int i).

(** [c * n]: [n] copies of a character *)
Fixpoint repeat (c : ascii) (n : nat) : string :=
  match n with
  | O => EmptyString
  | S n' => String c (repeat c n')
  end.

End Str.

(** ** Python floats *)

Module Float64.

Definition prec : Z := 53.
Definition emax : Z := 1024.

(** An integer as an operand of the division: [n * 2^0], not
    rounded and not normalised. *)
Definition exact (n : Z) : spec_float :=
  match n with
  | 0 => S754_zero false
  | Z.pos p => S754_finite false p 0
  | Z.neg p => S754_finite true p 0
  end.

Definition add : spec_float → spec_float → spec_float := SFadd prec emax.
Definition mul : spec_float → spec_float → spec_float := SFmul prec emax.

(** The float nearest to the quotient [a / b] of two integers. *)
Definition ratio (a b : Z) : spec_float :=
  SFdiv prec emax (exact a) (exact b).

(** [x < y] and [x >= y] *)
Definition ltb (x y : spec_float) : bool := SFltb x y.
Definition geb (x y : spec_float) : bool := SFleb y x.

(** The literals of the source.  A decimal literal denotes the float
    nearest to it. *)
Definition zero : spec_float := S754_zero false.   (* 0.0 *)
Definition lit_0_6 : spec_float := ratio 6 10.     (* 0.6 *)
Definition lit_0_25 : spec_float := ratio 25 100.  (* 0.25 *)
Definition lit_0_15 : spec_float := ratio 15 100.  (* 0.15 *)
Definition lit_0_1 : spec_float := ratio 1 10.     (* 0.1 *)
Definition lit_0_26 : spec_float := ratio 26 100.  (* 0.26 *)
Definition one : spec_float := ratio 1 1.          (* 1.0 *)

(** [a / b] on integers: true division returns the float nearest to
    the quotient.  (Where the quotient lies beyond the largest float
    the runtime raises [OverflowError] and [ratio] is infinite; the
    scorer divides a count by a count at least as large.) *)
Definition truediv (a b : Z) : outcome spec_float :=
  if b =? 0 then Raise (PyExc "ZeroDivisionError" "division by zero")
  else Ok (ratio a b).

(** [num / den] rounded to the nearest integer, halves to even. *)
Definition round_half_even (num den : Z) : Z :=
  let q := num / den in
  let r := num mod den in
  if 2 * r <? den then q
  else if 2 * r =? den then (if Z.even q then q else q + 1)
  else q + 1.

(** [|x| * 100] rounded to an integer, for a finite [x = m * 2^e]. *)
Definition hundredths (m : positive) (e : Z) : Z :=
  if 0 <=? e then Z.pos m * 100 * 2 ^ e
  else round_half_even (Z.pos m * 100) (2 ^ (- e)).

Definition two_digits (h : Z) : string :=
  Str.of_Z (h / 100) +:+ "." +:+
  (if h mod 100 <? 10 then "0" else "") +:+ Str.of_Z (h mod 100).

(** [f"{x:.2f}"] *)
Definition fmt_2f (x : spec_float) : string :=
  match x with
  | S754_nan => "nan"
  | S754_infinity s => if s then "-inf" else "inf"
  | S754_zero s => if s then "-0.00" else "0.00"
  | S754_finite s m e =>
      (if s then "-" else "") +:+ two_digits (hundredths m e)
  end.

(** Neither a NaN nor negative: zero, a positive finite number or
    plus infinity. *)
Definition nonneg (x : spec_float) : Prop :=
  match x with
  | S754_zero _ => True
  | S754_infinity s => s = false
  | S754_nan => False
  | S754_finite s _ _ => s = false
  end.

End Float64.

Abbreviation float := spec_float.

(* ================================================================= *)
(** ** The lexical scorer *)

(** [_STOP_WORDS] *)
Definition _STOP_WORDS : gset string :=
  list_to_set
    ["the"; "a"; "an"; "and"; "or"; "of"; "in"; "on"; "for"; "to";
     "with"; "by"; "about"; "is"; "are"; "was"; "were"; "be"].

(** A character matched by the class [[a-z0-9]]. *)
Definition is_az09 (c : ascii) : bool :=
  Str.in_range 97 122 c || Str.in_range 48 57 c.

(** [_TOKEN_RE.sub(repl, s)] for [_TOKEN_RE = re.compile(r"[^a-z0-9]+")]:
    every maximal run of characters outside [[a-z0-9]] is replaced by
    [repl].  [in_run] tells that the previous character was part of a
    run already replaced. *)
Fixpoint _TOKEN_RE_sub_from (in_run : bool) (repl s : string) : string :=
  match s with
  | EmptyString => EmptyString
  | String c s' =>
      if is_az09 c then String c (_TOKEN_RE_sub_from false repl s')
      else if in_run then _TOKEN_RE_sub_from true repl s'
      else repl +:+ _TOKEN_RE_sub_from true repl s'
  end.

Definition _TOKEN_RE_sub (repl s : string) : string :=
  _TOKEN_RE_sub_from false repl s.

(** The method call [v.lower()]: [None] has no such attribute. *)
Definition py_lower (v : pyval) : outcome string :=
  match v with
  | PyStr s => Ok (Str.lower s)
  | PyNone =>
      Raise (PyExc "AttributeError" "'NoneType' object has no attribute 'lower'")
  end.

(** [_tok(s)] *)
Definition _tok (s : pyval) : outcome (list string) :=
  s ← py_lower (py_or s (PyStr ""));
  let s := _TOKEN_RE_sub " " s in
  mret (filter (λ t, Str.nonempty t = true ∧ t ∉ _STOP_WORDS) (Str.split s)).

(** [_match_score(query, title, url, snippet)] *)
Definition _match_score (query title url snippet : pyval) : outcome float :=
  tq ← _tok query;
  let q : gset string := list_to_set tq in
  if decide (q = ∅) then mret Float64.zero
  else
    tt ← _tok title;
    let t : gset string := list_to_set tt in
    ts ← _tok snippet;
    let s : gset string := list_to_set ts in
    tu ← _tok url;
    let u : gset string := list_to_set tu in
    ov_title ← Float64.truediv (Z.of_nat (size (q ∩ t))) (Z.max 1 (Z.of_nat (size q)));
    ov_snip ← Float64.truediv (Z.of_nat (size (q ∩ s))) (Z.max 1 (Z.of_nat (size q)));
    ov_url ← Float64.truediv (Z.of_nat (size (q ∩ u))) (Z.max 1 (Z.of_nat (size q)));
    jq ← _tok query;
    jt ← _tok title;
    let phrase_bonus :=
      if Str.contains (Str.join " " jt) (Str.join " " jq)
      then Float64.lit_0_1 else Float64.zero in
    mret (Float64.add
            (Float64.add
               (Float64.add (Float64.mul Float64.lit_0_6 ov_title)
                            (Float64.mul Float64.lit_0_25 ov_snip))
               (Float64.mul Float64.lit_0_15 ov_url))
            phrase_bonus).

(** *** The scorer without its exceptions *)

(** The text [_tok] works on: [(s or "")]. *)
Definition text_of (v : pyval) : string :=
  match v with
  | PyNone => ""
  | PyStr s => s
  end.

(** What [_tok] returns on a text. *)
Definition tokens (s : string) : list string :=
  filter (λ t, Str.nonempty t = true ∧ t ∉ _STOP_WORDS)
    (Str.split (_TOKEN_RE_sub " " (Str.lower s))).

(** [len(q & x) / max(1, len(q))] *)
Definition overlap (q x : gset string) : float :=
  Float64.ratio (Z.of_nat (size (q ∩ x))) (Z.max 1 (Z.of_nat (size q))).

(** The sum of line 66. *)
Definition weighted_sum (ov_title ov_snip ov_url phrase_bonus : float) : float :=
  Float64.add
    (Float64.add
       (Float64.add (Float64.mul Float64.lit_0_6 ov_title)
                    (Float64.mul Float64.lit_0_25 ov_snip))
       (Float64.mul Float64.lit_0_15 ov_url))
    phrase_bonus.

(** What [_match_score] returns on four texts. *)
Definition score_of_texts (query title url snippet : string) : float :=
  let q : gset string := list_to_set (tokens query) in
  if decide (q = ∅) then Float64.zero
  else
    weighted_sum
      (overlap q (list_to_set (tokens title)))
      (overlap q (list_to_set (tokens snippet)))
      (overlap q (list_to_set (tokens url)))
      (if Str.contains (Str.join " " (tokens title)) (Str.join " " (tokens query))
       then Float64.lit_0_1 else Float64.zero).

(* ================================================================= *)
(** ** The scorer as the specification words it *)

Module Spec.

(** A letter or a digit. *)
Definition alphanumeric (c : ascii) : bool :=
  Str.in_range 65 90 c || Str.in_range 97 122 c || Str.in_range 48 57 c.

(** A character that is not alphanumeric becomes a space ... *)
Fixpoint blank (s : string) : string :=
  match s with
  | EmptyString => EmptyString
  | String c s' => String (if alphanumeric c then c else " "%char) (blank s')
  end.

(** ... and a run of spaces becomes one space: together, every run of
    non-alphanumeric characters is replaced with a space. *)
Fixpoint squeeze (after_space : bool) (s : string) : string :=
  match s with
  | EmptyString => EmptyString
  | String c s' =>
      if Ascii.eqb c " " then
        if after_space then squeeze true s' else String c (squeeze true s')
      else String c (squeeze false s')
  end.

Definition flush (cur : string) : list string :=
  if Str.nonempty cur then [cur] else [].

(** Splitting on white space: [cur] is the word being read. *)
Fixpoint words_from (cur s : string) : list string :=
  match s with
  | EmptyString => flush cur
  | String c s' =>
      if Str.isspace c then flush cur ++ words_from EmptyString s'
      else words_from (cur +:+ String c EmptyString) s'
  end.

(** Lower-casing, replacing the runs, splitting, discarding the stop
    words. *)
Definition tokenize (s : string) : list string :=
  filter (λ t, t ∉ _STOP_WORDS)
    (words_from EmptyString (squeeze false (blank (Str.lower s)))).

Definition token_set (s : string) : gset string := list_to_set (tokenize s).

(** [needle] is a contiguous substring of [hay]. *)
Definition substring (needle hay : string) : Prop :=
  ∃ pre post, hay = pre +:+ needle +:+ post.

(** overlap(X) = |Q ∩ X| / max(1, |Q|) *)
Definition overlap (Q X : gset string) : float :=
  Float64.ratio (Z.of_nat (size (Q ∩ X))) (Z.max 1 (Z.of_nat (size Q))).

(** phrase_bonus = 0.1 iff the joined query is a substring of the
    joined title, else 0. *)
Definition phrase_bonus_is (b : float) (query title : string) : Prop :=
  (substring (Str.join " " (tokenize query)) (Str.join " " (tokenize title))
   ∧ b = Float64.lit_0_1)
  ∨ (¬ substring (Str.join " " (tokenize query)) (Str.join " " (tokenize title))
     ∧ b = Float64.zero).

(** [x] is the score the reference definition gives: 0.0 for a query
    without tokens, and otherwise
    0.6*overlap(T) + 0.25*overlap(S) + 0.15*overlap(U) + phrase_bonus. *)
Definition score_is (x : float) (query title url snippet : string) : Prop :=
  let Q := token_set query in
  (Q = ∅ ∧ x = Float64.zero)
  ∨ (Q ≠ ∅ ∧ ∃ b, phrase_bonus_is b query title ∧
       x = Float64.add
             (Float64.add
                (Float64.add
                   (Float64.mul Float64.lit_0_6 (overlap Q (token_set title)))
                   (Float64.mul Float64.lit_0_25 (overlap Q (token_set snippet))))
                (Float64.mul Float64.lit_0_15 (overlap Q (token_set url))))
             b).

End Spec.

(* ================================================================= *)
(** ** The ranker: lines 209 to 225 of [_research_queries] *)

(** A raw search hit: a dictionary from field names to text. *)
Abbreviation hit := (gmap string pyval).

(** [r.get(key, default)] *)
Definition hit_get (r : hit) (key : string) (default : pyval) : pyval :=
  match r !! key with
  | Some v => v
  | None => default
  end.

(** An entry of [ranked]: the tuple [(score, title, url)]. *)
Abbreviation candidate := (float * pyval * pyval)%type.

Definition cand_score (x : candidate) : float := x.1.1.
Definition cand_title (x : candidate) : pyval := x.1.2.
Definition cand_url (x : candidate) : pyval := x.2.

(** The scoring of one hit, lines 211 to 214. *)
Definition score_hit (q : string) (r : hit) : outcome candidate :=
  let title := hit_get r "title" (PyStr "") in
  let url := hit_get r "href" (PyStr "") in
  let snip :=
    py_or (py_or (hit_get r "body" (PyStr "")) (hit_get r "snippet" (PyStr "")))
          (PyStr "") in
  score ← _match_score (PyStr q) title url snip;
  mret (score, title, url).

(** [l.sort(reverse=True, key=key)].  The runtime sorts with a stable
    merge sort that compares keys with [<] only, and [reverse=True]
    keeps elements with equal keys in their original order.  On keys
    that [<] orders totally every such sort returns the same list; the
    model is the insertion sort, which places an element after the
    elements with a strictly greater key and before all others. *)
Section Sort.
Context {A : Type} (key : A → float).

Fixpoint insert_desc (x : A) (l : list A) : list A :=
  match l with
  | [] => [x]
  | y :: l' =>
      if Float64.ltb (key x) (key y) then y :: insert_desc x l'
      else x :: y :: l'
  end.

Fixpoint sort_reverse (l : list A) : list A :=
  match l with
  | [] => []
  | x :: l' => insert_desc x (sort_reverse l')
  end.
End Sort.

Definition MIN_SCORE : float := Float64.lit_0_26.

Definition is_nil {A} (l : list A) : bool :=
  match l with [] => true | _ => false end.

(** Lines 221 to 225: sort, keep the best above the threshold, fall
    back to the single best. *)
Definition select_picks (picks_per_query : Z) (ranked : list candidate)
  : list candidate :=
  let ranked := sort_reverse cand_score ranked in
  let picks :=
    slice_to picks_per_query
      (filter (λ x, Float64.geb (cand_score x) MIN_SCORE = true) ranked) in
  if is_nil picks && negb (is_nil ranked) then slice_to 1 ranked
  else picks.

(** The list [ranked] the loop of lines 210 to 218 builds, without the
    log lines. *)
Fixpoint score_hits (q : string) (raw : list hit) : outcome (list candidate) :=
  match raw with
  | [] => mret []
  | r :: raw' =>
      c ← score_hit q r;
      cs ← score_hits q raw';
      mret (c :: cs)
  end.

(** The output of the filter for one query: the picks. *)
Definition pick_candidates (picks_per_query : Z) (q : string) (raw : list hit)
  : outcome (list candidate) :=
  ranked ← score_hits q raw;
  mret (select_picks picks_per_query ranked).

(** *** The ranker as the specification words it *)

Definition not_nan (x : float) : Prop := x ≠ S754_nan.

(** [x] has the score [k]: neither is below the other. *)
Definition tie {A} (key : A → float) (k : float) (x : A) : bool :=
  negb (Float64.ltb (key x) k) && negb (Float64.ltb k (key x)).

Definition keys_ok {A} (key : A → float) (l : list A) : Prop :=
  Forall (λ x, not_nan (key x)) l.

Definition ge_key {A} (key : A → float) (a b : A) : Prop :=
  Float64.geb (key a) (key b) = true.

(** [c] is the first of the elements of [l] with the greatest key. *)
Definition first_greatest {A} (key : A → float) (c : A) (l : list A) : Prop :=
  ∃ pre post, l = pre ++ c :: post
    ∧ Forall (λ x, Float64.ltb (key x) (key c) = true) pre
    ∧ Forall (λ x, Float64.ltb (key c) (key x) = false) post.

(** [sorted] is [l] stable-sorted in non-increasing score order: the
    same entries, every entry at least as high as the next, and the
    entries of equal score in their original order. *)
Definition stable_sorted_desc (l sorted : list candidate) : Prop :=
  sorted ≡ₚ l
  ∧ Sorted (ge_key cand_score) sorted
  ∧ ∀ k, not_nan k →
      filter (λ x, tie cand_score k x = true) sorted
      = filter (λ x, tie cand_score k x = true) l.

(** score >= 0.26, and score below 0.26 *)
Definition clears (x : candidate) : Prop :=
  Float64.geb (cand_score x) MIN_SCORE = true.
Definition below (x : candidate) : Prop :=
  Float64.ltb (cand_score x) MIN_SCORE = true.

(** The output shape: whenever a hit clears the threshold, the picks
    are the stable-sorted scored hits restricted to the entries that
    clear it and truncated to at most [picks_per_query] of them. *)
Definition ranker_shape (picks_per_query : Z) (q : string) (raw : list hit)
  : Prop :=
  ∃ ranked sorted picks,
    score_hits q raw = Ok ranked
    ∧ stable_sorted_desc ranked sorted
    ∧ pick_candidates picks_per_query q raw = Ok picks
    ∧ (Exists clears ranked →
       picks = take (Z.to_nat picks_per_query) (filter clears sorted)
       ∧ len picks ≤ picks_per_query).

(** A field of a hit read as text: a missing key and [None] are the
    empty string. *)
Definition field_text (r : hit) (key : string) : string :=
  match r !! key with
  | Some (PyStr s) => s
  | _ => ""
  end.

(** The snippet: the body if it has text, else the snippet field. *)
Definition snippet_text (r : hit) : string :=
  if Str.nonempty (field_text r "body") then field_text r "body"
  else field_text r "snippet".

(** Example data: a hit that matches the query [python] in its title,
    its address and its snippet. *)
Definition python_hit : hit :=
  <["title" := PyStr "Python"]>
    (<["href" := PyStr "https://python.org"]>
       (<["body" := PyStr "Python is a language"]> ∅)).

(** A hit without a title, with [None] for an address and no text. *)
Definition bare_hit : hit := <["href" := PyNone]> ∅.

(* ================================================================= *)
(** ** The data of the coordinator *)

Module QueryResponse.
Record t : Type := mk { queries : list string; thoughts : string }.
End QueryResponse.

Module FollowUpDecisionResponse.
Record t : Type :=
  mk { should_follow_up : bool; reasoning : string; queries : list string }.
End FollowUpDecisionResponse.

(** Modelled from the spec: [models.SearchResult] is not among the
    sources; the specification gives it the three fields [title], [url]
    and [summary].  The title and the url are stored as the hit gave
    them. *)
Module SearchResult.
Record t : Type := mk { title : pyval; url : pyval; summary : string }.
End SearchResult.

(** The arguments of the constructor of [ResearchCoordinator]; none of
    them is assigned again.  [on_log] and [on_thought] tell whether the
    callback was provided. *)
Record config : Type := {
  query : string;
  max_rounds : Z;
  picks_per_query : Z;
  ddg_region : string;
  ddg_safesearch : string;
  ddg_timelimit : option string;
  results_per_query : Z;
  on_log : bool;
  on_thought : bool
}.

(** What the coordinator does to the outside, in the order it does it.
    An agent event carries the input of the call and what came back.
    [Ev_round] is a ghost event: no statement of the source produces
    it; it marks the entry into [_research_queries], that is the start
    of a research round. *)
Inductive event : Type :=
| Ev_log (msg : string)
| Ev_thought (msg : string)
| Ev_query_agent (input : string) (out : QueryResponse.t + exn)
| Ev_ddg_text (q : string) (out : list hit + exn)
| Ev_search_agent (input : string) (out : string + exn)
| Ev_follow_up_agent (input : string) (out : FollowUpDecisionResponse.t + exn)
| Ev_synthesis_agent (input : string) (out : string + exn)
| Ev_round (queries : list string).

(** The external capabilities.  Each answers from the present world and
    leaves a new one, so that an answer may depend on everything that
    happened before; it returns a value or raises. *)
Record adapters (W : Type) : Type := {
  query_agent : string → W → (QueryResponse.t + exn) * W;
  ddg_text :
    string → string → string → option string → Z → W → (list hit + exn) * W;
  search_agent : string → W → (string + exn) * W;
  follow_up_decision_agent :
    string → W → (FollowUpDecisionResponse.t + exn) * W;
  synthesis_agent : string → W → (string + exn) * W
}.
Arguments query_agent {W} _ _ _.
Arguments ddg_text {W} _ _ _ _ _ _ _.
Arguments search_agent {W} _ _ _.
Arguments follow_up_decision_agent {W} _ _ _.
Arguments synthesis_agent {W} _ _ _.

(** The mutable part: the two fields of the coordinator that change,
    the world, and the trace. *)
Record state (W : Type) : Type := {
  search_results : list SearchResult.t;
  generated_queries : list string;
  world : W;
  trace : list event
}.
Arguments search_results {W} _.
Arguments generated_queries {W} _.
Arguments world {W} _.
Arguments trace {W} _.
Arguments Build_state {W} _ _ _ _.

(** The state [__init__] leaves. *)
Definition init_state {W} (w : W) : state W :=
  {| search_results := []; generated_queries := []; world := w; trace := [] |}.

(** ** The monad *)

Definition M (W A : Type) : Type := state W → outcome A * state W.

#[global] Instance M_ret {W} : MRet (M W) := λ A a st, (Ok a, st).

#[global] Instance M_bind {W} : MBind (M W) := λ A B f c st,
  match c st with
  | (Ok a, st') => f a st'
  | (Raise e, st') => (Raise e, st')
  | (Diverge, st') => (Diverge, st')
  end.

Definition nl : string := String "010"%char "".

(** ** The coordinator *)

Section Coordinator.
Context {W : Type} (cfg : config) (ad : adapters W).

(** *** State primitives *)

Definition emit (e : event) : M W unit := λ st,
  (Ok tt,
   {| search_results := search_results st;
      generated_queries := generated_queries st;
      world := world st;
      trace := trace st ++ [e] |}).

Definition get_search_results : M W (list SearchResult.t) := λ st,
  (Ok (search_results st), st).

Definition get_generated_queries : M W (list string) := λ st,
  (Ok (generated_queries st), st).

(** [self.generated_queries = l] *)
Definition set_generated_queries (l : list string) : M W unit := λ st,
  (Ok tt,
   {| search_results := search_results st;
      generated_queries := l;
      world := world st;
      trace := trace st |}).

(** [self.search_results.append(r)] *)
Definition append_search_result (r : SearchResult.t) : M W unit := λ st,
  (Ok tt,
   {| search_results := search_results st ++ [r];
      generated_queries := generated_queries st;
      world := world st;
      trace := trace st |}).

Definition of_result {A} (r : A + exn) : outcome A :=
  match r with
  | inl a => Ok a
  | inr e => Raise e
  end.

(** A call to an external capability: the world moves on, the call
    enters the trace, and the answer is returned or raised. *)
Definition call {A} (oracle : W → (A + exn) * W) (ev : A + exn → event)
  : M W A := λ st,
  let (r, w') := oracle (world st) in
  (of_result r,
   {| search_results := search_results st;
      generated_queries := generated_queries st;
      world := w';
      trace := trace st ++ [ev r] |}).

(** [try: body except Exception: handler] *)
Definition try_except {A} (body : M W A) (handler : exn → M W A) : M W A :=
  λ st,
  match body st with
  | (Raise e, st') => handler e st'
  | r => r
  end.

(** [for x in l: body] *)
Fixpoint for_each {A} (l : list A) (body : A → M W unit) : M W unit :=
  match l with
  | [] => mret tt
  | x :: l' => body x;; for_each l' body
  end.

Definition diverge {A} : M W A := λ st, (Diverge, st).

(** [(await Runner.run(agent, input=input)).final_output] for each of
    the four agents *)
Definition run_query_agent (input : string) : M W QueryResponse.t :=
  call (query_agent ad input) (Ev_query_agent input).

Definition run_search_agent (input : string) : M W string :=
  call (search_agent ad input) (Ev_search_agent input).

Definition run_follow_up_decision_agent (input : string)
  : M W FollowUpDecisionResponse.t :=
  call (follow_up_decision_agent ad input) (Ev_follow_up_agent input).

Definition run_synthesis_agent (input : string) : M W string :=
  call (synthesis_agent ad input) (Ev_synthesis_agent input).

(** *** Small helpers *)

Definition _log (msg : string) : M W unit :=
  if on_log cfg then emit (Ev_log msg) else mret tt.

Definition _thought (msg : string) : M W unit :=
  if on_thought cfg then emit (Ev_thought msg) else mret tt.

Definition _section (title : string) : M W unit :=
  let bar := Str.repeat "-" 72 in
  _log (nl +:+ bar +:+ nl +:+ title +:+ nl +:+ bar +:+ nl).

(** *** Internals *)

Definition _ddg_search (q : string) : M W (list hit) :=
  try_except
    (call (ddg_text ad q (ddg_region cfg) (ddg_safesearch cfg)
             (ddg_timelimit cfg) (results_per_query cfg))
          (Ev_ddg_text q))
    (λ _, mret []).

(** The loop of lines 210 to 218; [ranked] is the list built so far. *)
Fixpoint score_loop (q : string) (raw : list hit) (ranked : list candidate)
  : M W (list candidate) :=
  match raw with
  | [] => mret ranked
  | r :: raw' =>
      c ← (λ st, (score_hit q r, st));
      _log ("[DEBUG] MatchScore=" +:+ Float64.fmt_2f (cand_score c)
            +:+ " | Title=" +:+ py_str (cand_title c)
            +:+ " | URL=" +:+ py_str (cand_url c));;
      score_loop q raw' (ranked ++ [c])
  end.

(** The input the search agent gets for a pick. *)
Definition search_agent_input (title url : pyval) : string :=
  "Title: " +:+ py_str title +:+ nl +:+ "URL: " +:+ py_str url.

(** The body of the loop of lines 230 to 243. *)
Definition summarize_pick (x : candidate) : M W unit :=
  let '(score, title, url) := x in
  _log ("  Picked (match " +:+ Float64.fmt_2f score +:+ "): " +:+ py_str title);;
  _log ("  URL: " +:+ py_str url);;
  _log "  Analyzing content...";;
  let inp := search_agent_input title url in
  final_output ← run_search_agent inp;
  append_search_result
    (SearchResult.mk title url final_output);;
  let preview :=
    Str.slice_to 100 final_output
    +:+ (if 100 <? Z.of_nat (String.length final_output) then "..." else "") in
  _log ("  Summary: " +:+ preview +:+ nl).

(** The body of the loop over the queries, lines 205 to 243. *)
Definition research_query (q : string) : M W unit :=
  _log ("Searching for: " +:+ q);;
  raw ← _ddg_search q;
  ranked ← score_loop q raw [];
  let picks := select_picks (picks_per_query cfg) ranked in
  _log ("[DEBUG] Picked " +:+ Str.of_Z (len picks) +:+ " of "
        +:+ Str.of_Z (len ranked) +:+ " results (threshold "
        +:+ "0.26" +:+ ")");;
  for_each picks summarize_pick.

Definition _research_queries (queries : list string) : M W unit :=
  emit (Ev_round queries);;
  for_each queries research_query.

(** One numbered entry of a digest. *)
Definition digest_entry (i : Z) (r : SearchResult.t) : string :=
  nl +:+ Str.of_Z i +:+ ". Title: " +:+ py_str (SearchResult.title r) +:+ nl
  +:+ "   URL: " +:+ py_str (SearchResult.url r) +:+ nl
  +:+ "   Summary: " +:+ SearchResult.summary r +:+ nl.

(** The loop of lines 248 to 251 on the list [lines]. *)
Fixpoint findings_lines (lines : list string) (l : list (Z * SearchResult.t))
  : list string :=
  match l with
  | [] => lines
  | (i, r) :: l' => findings_lines (lines ++ [digest_entry i r]) l'
  end.

(** The digest [_findings_text] builds from a list of results. *)
Definition findings_digest (results : list SearchResult.t) : string :=
  let lines := ["Original Query: " +:+ query cfg; ""; "Current Findings:"] in
  let lines := findings_lines lines (enumerate 1 results) in
  Str.join nl lines.

Definition _findings_text : M W string :=
  results ← get_search_results;
  mret (findings_digest results).

Definition _follow_up_decision : M W FollowUpDecisionResponse.t :=
  findings ← _findings_text;
  decision ← run_follow_up_decision_agent findings;
  (* [getattr(decision, "thoughts", None)]: the response has no such
     field, the default [None] is falsy and [_thought] is not called *)
  (if negb (is_nil (FollowUpDecisionResponse.queries decision)) then
     _log "Proposed follow-up queries:";;
     for_each (enumerate 1 (FollowUpDecisionResponse.queries decision))
       (λ iq, _log ("  " +:+ Str.of_Z iq.1 +:+ ". " +:+ iq.2))
   else mret tt);;
  mret decision.

Definition synthesis_preamble : string :=
  "Instruction: In your report, use in-text citations with square brackets "
  +:+ "corresponding to the numbered sources below, e.g., [1], [2]. " +:+ nl +:+ nl
  +:+ "IMPORTANT: Do NOT use LaTeX math delimiters `$...` or `$$...$$`. "
  +:+ "If you need currency, write `USD 1,000` (not `$1,000`)." +:+ nl +:+ nl
  +:+ "Query: " +:+ query cfg +:+ nl +:+ nl +:+ "Search Results:" +:+ nl.

(** The loop of lines 281 to 284 on the string [findings_text]. *)
Fixpoint synthesis_text (findings_text : string) (l : list (Z * SearchResult.t))
  : string :=
  match l with
  | [] => findings_text
  | (i, r) :: l' => synthesis_text (findings_text +:+ digest_entry i r) l'
  end.

(** The digest [_synthesize] builds from a list of results. *)
Definition synthesis_digest (results : list SearchResult.t) : string :=
  synthesis_text synthesis_preamble (enumerate 1 results).

Definition _synthesize : M W string :=
  results ← get_search_results;
  let findings_text := synthesis_digest results in
  run_synthesis_agent findings_text.

(** *** The main workflow *)

(** The loop of lines 160 to 175.  The fuel bounds the number of
    iterations of the model; [research] gives [max_rounds - round_no]
    of it, which the loop cannot use up. *)
Fixpoint follow_up_rounds (fuel : nat) (round_no : Z) : M W unit :=
  if round_no <? max_rounds cfg then
    match fuel with
    | O => diverge
    | S fuel' =>
        _section "EVALUATE FOLLOW-UP";;
        decision ← _follow_up_decision;
        let status :=
          if FollowUpDecisionResponse.should_follow_up decision
          then "More research needed" else "Research complete" in
        _log ("Decision: " +:+ status);;
        _log ("Reasoning: " +:+ FollowUpDecisionResponse.reasoning decision);;
        if negb (FollowUpDecisionResponse.should_follow_up decision) then
          _log "No more research needed. Synthesizing report..."
        else
          let round_no := round_no + 1 in
          _section ("RESEARCH ROUND " +:+ Str.of_Z round_no);;
          _research_queries (FollowUpDecisionResponse.queries decision);;
          follow_up_rounds fuel' round_no
    end
  else mret tt.

(** Lines 147 to 157: what follows the assignment of
    [generated_queries], up to the end of round 1; returns
    [round_no]. *)
Definition first_round (query_resp : QueryResponse.t) : M W Z :=
  (if Str.nonempty (QueryResponse.thoughts query_resp)
   then _thought (QueryResponse.thoughts query_resp) else mret tt);;
  _log "Generated Search Queries:";;
  queries ← get_generated_queries;
  for_each (enumerate 1 queries)
    (λ iq, _log ("  " +:+ Str.of_Z iq.1 +:+ ". " +:+ iq.2));;
  let round_no := 1 in
  _section ("RESEARCH ROUND " +:+ Str.of_Z round_no);;
  queries ← get_generated_queries;
  _research_queries queries;;
  mret round_no.

(** Lines 141 to 157: the queries and round 1. *)
Definition first_pass : M W Z :=
  _section "GENERATE QUERIES";;
  query_resp ← run_query_agent (query cfg);
  set_generated_queries (QueryResponse.queries query_resp);;
  first_round query_resp.

(** Lines 177 to 181: the report.  The check mark of the last
    message is held as the three bytes of its UTF-8 encoding. *)
Definition synthesis_step : M W string :=
  _section "SYNTHESIS";;
  final_report ← _synthesize;
  _log ("✓ Research complete!" +:+ nl);;
  mret final_report.

Definition research : M W string :=
  round_no ← first_pass;
  follow_up_rounds (Z.to_nat (max_rounds cfg - round_no)) round_no;;
  synthesis_step.

End Coordinator.

(* ================================================================= *)
(** ** Reading a trace *)

Definition is_round (e : event) : bool :=
  match e with Ev_round _ => true | _ => false end.
Definition is_follow_up (e : event) : bool :=
  match e with Ev_follow_up_agent _ _ => true | _ => false end.
Definition is_ddg (e : event) : bool :=
  match e with Ev_ddg_text _ _ => true | _ => false end.
Definition is_search_agent (e : event) : bool :=
  match e with Ev_search_agent _ _ => true | _ => false end.
Definition is_synthesis (e : event) : bool :=
  match e with Ev_synthesis_agent _ _ => true | _ => false end.

(** Callback events, which no property counts. *)
Definition is_callback (e : event) : bool :=
  match e with Ev_log _ | Ev_thought _ => true | _ => false end.

(** The number of events of a kind. *)
Definition count (p : event → bool) (tr : list event) : Z :=
  len (List.filter p tr).

(** The number of research rounds started. *)
Definition rounds_in (tr : list event) : Z := count is_round tr.

(** The summaries produced, oldest first: the input and the output of
    every call of the search agent that returned. *)
Fixpoint summaries_of (tr : list event) : list (string * string) :=
  match tr with
  | [] => []
  | Ev_search_agent input (inl out) :: tr' => (input, out) :: summaries_of tr'
  | _ :: tr' => summaries_of tr'
  end.

(** The call that produced a result. *)
Definition result_call (r : SearchResult.t) : string * string :=
  (search_agent_input (SearchResult.title r) (SearchResult.url r),
   SearchResult.summary r).

(** ** Properties of a piece of code *)

(** Every run of [c] relates the state before to the state after. *)
Definition respects {W A} (R : relation (state W)) (c : M W A) : Prop :=
  ∀ st, R st (c st).2.

(** No run of [c] runs out of fuel. *)
Definition terminates {W A} (c : M W A) : Prop :=
  ∀ st, (c st).1 ≠ Diverge.

(** The trace grew by events that [allowed] admits. *)
Definition ext {W} (allowed : event → bool) : relation (state W) :=
  λ st st', ∃ tr', trace st' = trace st ++ tr' ∧ forallb allowed tr' = true.

(** [generated_queries] is as before. *)
Definition same_queries {W} : relation (state W) :=
  λ st st', generated_queries st' = generated_queries st.

(** [search_results] only grew. *)
Definition results_grow {W} : relation (state W) :=
  λ st st', search_results st `prefix_of` search_results st'.

(** The follow-up agent is only called while [remaining] rounds may
    still start: a round uses one up. *)
Fixpoint cap_ok (remaining : Z) (tr : list event) : Prop :=
  match tr with
  | [] => True
  | Ev_round _ :: tr' => cap_ok (remaining - 1) tr'
  | Ev_follow_up_agent _ _ :: tr' => 0 < remaining ∧ cap_ok remaining tr'
  | _ :: tr' => cap_ok remaining tr'
  end.

(** The round cap for a bound [N] on a trace: at most [N] rounds start,
    and whenever the follow-up agent is called fewer than [max_rounds]
    rounds have started. *)
Definition round_cap (N : Z) (max_rounds : Z) (tr : list event) : Prop :=
  rounds_in tr ≤ N
  ∧ ∀ tr1 e tr2, tr = tr1 ++ e :: tr2 → is_follow_up e = true →
      rounds_in tr1 < max_rounds.


(** A digest numbers the results from 1 in their order. *)
Definition numbered_entries (rs : list SearchResult.t) : list string :=
  imap (λ i r, digest_entry (Z.of_nat i + 1) r) rs.

(** The kind of an event, and the events of given kinds. *)
Inductive kind : Type :=
| K_log | K_thought | K_query_agent | K_ddg_text | K_search_agent
| K_follow_up_agent | K_synthesis_agent | K_round.

#[global] Instance kind_eq_dec : EqDecision kind.
Proof. solve_decision. Defined.

Definition kind_of (e : event) : kind :=
  match e with
  | Ev_log _ => K_log
  | Ev_thought _ => K_thought
  | Ev_query_agent _ _ => K_query_agent
  | Ev_ddg_text _ _ => K_ddg_text
  | Ev_search_agent _ _ => K_search_agent
  | Ev_follow_up_agent _ _ => K_follow_up_agent
  | Ev_synthesis_agent _ _ => K_synthesis_agent
  | Ev_round _ => K_round
  end.

Definition only (ks : list kind) (e : event) : bool :=
  bool_decide (kind_of e ∈ ks).

Definition all_kinds : list kind :=
  [K_log; K_thought; K_query_agent; K_ddg_text; K_search_agent;
   K_follow_up_agent; K_synthesis_agent; K_round].

(** Only the trace may differ. *)
Definition same_but_trace {W} : relation (state W) :=
  λ st st', search_results st' = search_results st
            ∧ generated_queries st' = generated_queries st
            ∧ world st' = world st.

(** ** Example data: stand-ins for the external capabilities *)

(** The configuration the constructor gives by default, for a topic and
    a round limit. *)
Definition example_config (topic : string) (rounds : Z) : config :=
  {| query := topic; max_rounds := rounds; picks_per_query := 2;
     ddg_region := "us-en"; ddg_safesearch := "on"; ddg_timelimit := None;
     results_per_query := 3; on_log := true; on_thought := true |}.

(** One query, one matching hit, a fixed summary; the follow-up agent
    answers [follow_up] with one more query. *)
Definition example_adapters (follow_up : bool) : adapters unit :=
  {| query_agent := λ _ w, (inl (QueryResponse.mk ["python"] "plan"), w);
     ddg_text := λ _ _ _ _ _ w, (inl [python_hit], w);
     search_agent := λ _ w, (inl "a summary", w);
     follow_up_decision_agent := λ _ w,
       (inl (FollowUpDecisionResponse.mk follow_up "because" ["python language"]), w);
     synthesis_agent := λ _ w, (inl "report [1]", w) |}.

(** The same with a search provider that raises. *)
Definition failing_search_adapters : adapters unit :=
  {| query_agent := λ _ w, (inl (QueryResponse.mk ["python"] "plan"), w);
     ddg_text := λ _ _ _ _ _ w, (inr (PyExc "TimeoutException" "timed out"), w);
     search_agent := λ _ w, (inl "a summary", w);
     follow_up_decision_agent := λ _ w,
       (inl (FollowUpDecisionResponse.mk false "because" []), w);
     synthesis_agent := λ _ w, (inl "report", w) |}.

(** ** Postconditions and invariants of the coordinator *)

(** Every run of [c] appends to the trace, and [Q] holds of the outcome
    and the events appended. *)
Definition post {W A} (Q : outcome A → list event → Prop) (c : M W A) : Prop :=
  ∀ st, ∃ tr', trace (c st).2 = trace st ++ tr' ∧ Q (c st).1 tr'.

(** All events are of the kinds [ks]. *)
Definition all_of (ks : list kind) (tr : list event) : Prop :=
  forallb (only ks) tr = true.

(** The events of one research round: the marker, then logs, searches
    and summaries. *)
Definition one_round (tr : list event) : Prop :=
  ∃ queries tr',
    tr = Ev_round queries :: tr'
    ∧ all_of [K_log; K_ddg_text; K_search_agent] tr'.

(** The events of lines 141 to 157: no follow-up, no synthesis, at most
    one round, and exactly one when the lines complete. *)
Definition first_pass_events {A} (r : outcome A) (tr : list event) : Prop :=
  all_of [K_log; K_thought; K_query_agent; K_ddg_text; K_search_agent; K_round] tr
  ∧ (∀ a, r = Ok a → ∃ tr0 tr1,
       tr = tr0 ++ tr1 ∧ all_of [K_log; K_thought; K_query_agent] tr0
       ∧ one_round tr1)
  ∧ rounds_in tr ≤ 1
  ∧ (is_Ok r = true → rounds_in tr = 1).

(** The events of the loop when [k] rounds may still start. *)
Definition capped (k : Z) (tr : list event) : Prop :=
  cap_ok k tr ∧ rounds_in tr ≤ Z.max 0 k.

(** The kinds of the events that come before round 1. *)
Definition preamble_kinds : list kind := [K_log; K_thought; K_query_agent].

(** The kinds of the events of lines 141 to 157. *)
Definition first_pass_kinds : list kind :=
  [K_log; K_thought; K_query_agent; K_ddg_text; K_search_agent; K_round].

(** What lines 141 to 157 append and return: [round_no] is 1. *)
Definition first_pass_post (r : outcome Z) (t : list event) : Prop :=
  first_pass_events r t ∧ ∀ a, r = Ok a → a = 1.

(** [search_results] is as before. *)
Definition same_results {W} : relation (state W) :=
  λ st st', search_results st' = search_results st.

(** The digests in a trace, read from the front: [n] counts the
    summaries produced so far, and a digest sent to the follow-up or
    the synthesis agent must be the digest of the first [n] results. *)
Fixpoint digests_from (cfg : config) (n : nat) (rs : list SearchResult.t)
    (tr : list event) : Prop :=
  match tr with
  | [] => True
  | Ev_follow_up_agent input _ :: tr' =>
      input = findings_digest cfg (take n rs) ∧ digests_from cfg n rs tr'
  | Ev_synthesis_agent input _ :: tr' =>
      input = synthesis_digest cfg (take n rs) ∧ digests_from cfg n rs tr'
  | Ev_search_agent _ (inl _) :: tr' => digests_from cfg (S n) rs tr'
  | _ :: tr' => digests_from cfg n rs tr'
  end.

(** The invariant of the coordinator on results, summaries and
    digests. *)
Definition results_inv {W} (cfg : config) (st : state W) : Prop :=
  map result_call (search_results st) = summaries_of (trace st)
  ∧ digests_from cfg 0 (search_results st) (trace st).

Definition keeps_results_inv {W} (cfg : config) : relation (state W) :=
  λ st st', results_inv cfg st → results_inv cfg st'.

(** The title and the url of a result, and of a pick. *)
Definition result_source (r : SearchResult.t) : pyval * pyval :=
  (SearchResult.title r, SearchResult.url r).
Definition pick_source (x : candidate) : pyval * pyval :=
  (cand_title x, cand_url x).

(** The kinds of the events that neither produce a summary nor carry a
    digest. *)
Definition plain_kinds : list kind :=
  [K_log; K_thought; K_query_agent; K_ddg_text; K_round].

(* ================================================================= *)
(** ** Further readings of the scorer and the ranker *)

(** Every character of [s] satisfies [p]. *)
Fixpoint string_forallb (p : ascii → bool) (s : string) : bool :=
  match s with
  | EmptyString => true
  | String c s' => p c && string_forallb p s'
  end.

(** A well-formed token: not empty, made of the characters [a-z0-9]
    only, and no stop word. *)
Definition token_ok (t : string) : Prop :=
  Str.nonempty t = true
  ∧ string_forallb is_az09 t = true
  ∧ t ∉ _STOP_WORDS.

(** [" ".join(_tok(s))], the text the phrase bonus compares. *)
Definition joined_tokens (s : string) : string :=
  Str.join " " (tokens s).

(** The title and the address [_research_queries] reads off a hit,
    lines 211 and 212. *)
Definition hit_source (r : hit) : pyval * pyval :=
  (hit_get r "title" (PyStr ""), hit_get r "href" (PyStr "")).

(* ================================================================= *)
(** ** Further readings of a trace *)

(** The hits [_ddg_search] returns for [q] in the world of [st]: what
    the provider answers, and the empty list when it raises. *)
Definition provider_hits {W} (cfg : config) (ad : adapters W) (q : string)
    (st : state W) : list hit :=
  match (ddg_text ad q (ddg_region cfg) (ddg_safesearch cfg) (ddg_timelimit cfg)
           (results_per_query cfg) (world st)).1 with
  | inl hits => hits
  | inr _ => []
  end.

(** The exception of an agent call that raised. *)
Definition agent_raised (ev : event) : option exn :=
  match ev with
  | Ev_query_agent _ (inr e)
  | Ev_search_agent _ (inr e)
  | Ev_follow_up_agent _ (inr e)
  | Ev_synthesis_agent _ (inr e) => Some e
  | _ => None
  end.

(** No agent call of [tr] raised. *)
Definition agents_returned (tr : list event) : Prop :=
  Forall (λ ev, agent_raised ev = None) tr.

(** The events [tr] account for the outcome [r]: a value comes after
    agent calls that all returned; an exception is the one the last
    event, an agent call, raised, after agent calls that all
    returned. *)
Definition accounts_for {A} (r : outcome A) (tr : list event) : Prop :=
  match r with
  | Ok _ => agents_returned tr
  | Raise e =>
      ∃ tr0 ev, tr = tr0 ++ [ev] ∧ agent_raised ev = Some e
                ∧ agents_returned tr0
  | Diverge => True
  end.

Definition is_query_agent (e : event) : bool :=
  match e with Ev_query_agent _ _ => true | _ => false end.

(** Example data: agents of which the first one raises. *)
Definition failing_query_adapters : adapters unit :=
  {| query_agent := λ _ w, (inr (PyExc "APIConnectionError" "no route"), w);
     ddg_text := λ _ _ _ _ _ w, (inl [python_hit], w);
     search_agent := λ _ w, (inl "a summary", w);
     follow_up_decision_agent := λ _ w,
       (inl (FollowUpDecisionResponse.mk false "because" []), w);
     synthesis_agent := λ _ w, (inl "report", w) |}.

(** The batch of queries a follow-up decision hands in: its queries
    when it asks for more research, none when it declines. *)
Definition handed_in (d : FollowUpDecisionResponse.t) : list string :=
  if FollowUpDecisionResponse.should_follow_up d
  then FollowUpDecisionResponse.queries d else [].

(** The plan of the searches, read off a trace.  [todo] holds the
    queries handed in and not yet searched.  The query agent hands in
    its batch; a follow-up decision hands in its batch when it asks
    for more research and nothing when it declines; a search must be
    for the first query still to do; and the follow-up agent and the
    synthesis agent are only called when nothing is left to do.  The
    result is the list left at the end, or [None] when an event does
    not fit the plan. *)
Fixpoint plan_run (todo : list string) (tr : list event)
    : option (list string) :=
  match tr with
  | [] => Some todo
  | Ev_query_agent _ (inl resp) :: tr' =>
      if is_nil todo then plan_run (QueryResponse.queries resp) tr' else None
  | Ev_follow_up_agent _ (inl d) :: tr' =>
      if is_nil todo then plan_run (handed_in d) tr' else None
  | Ev_synthesis_agent _ _ :: tr' =>
      if is_nil todo then plan_run [] tr' else None
  | Ev_ddg_text q _ :: tr' =>
      match todo with
      | q' :: todo' => if decide (q = q') then plan_run todo' tr' else None
      | [] => None
      end
  | _ :: tr' => plan_run todo tr'
  end.

(** The events [tr] of a piece of code fit the plan from [todo], and
    leave [todo'] when the code returns. *)
Definition fits_plan {A} (todo todo' : list string) (r : outcome A)
    (tr : list event) : Prop :=
  is_Some (plan_run todo tr)
  ∧ (is_Ok r = true → plan_run todo tr = Some todo').

(* ================================================================= *)
(** ** A coordinator without callbacks *)

(** The trace without the callback events. *)
Definition without_callbacks (tr : list event) : list event :=
  List.filter (λ e, negb (is_callback e)) tr.

(** [cfg] with [on_log=None] and [on_thought=None]. *)
Definition silent (cfg : config) : config :=
  {| query := query cfg;
     max_rounds := max_rounds cfg;
     picks_per_query := picks_per_query cfg;
     ddg_region := ddg_region cfg;
     ddg_safesearch := ddg_safesearch cfg;
     ddg_timelimit := ddg_timelimit cfg;
     results_per_query := results_per_query cfg;
     on_log := false;
     on_thought := false |}.

(** Two states that differ by callback events only. *)
Definition same_effects {W} (st1 st2 : state W) : Prop :=
  search_results st1 = search_results st2
  ∧ generated_queries st1 = generated_queries st2
  ∧ world st1 = world st2
  ∧ without_callbacks (trace st1) = without_callbacks (trace st2).

(** Two pieces of code that, from such states, have the same outcome
    and lead to such states. *)
Definition same_behaviour {W A} (c1 c2 : M W A) : Prop :=
  ∀ st1 st2, same_effects st1 st2 →
    (c1 st1).1 = (c2 st2).1 ∧ same_effects (c1 st1).2 (c2 st2).2.

(* ================================================================= *)
(** ** The application, [app.py] *)

(** More methods of [str]. *)
Module Text.

(** [s.lstrip()] *)
Fixpoint lstrip (s : string) : string :=
  match s with
  | EmptyString => EmptyString
  | String c s' => if Str.isspace c then lstrip s' else s
  end.

(** [s.rstrip()] *)
Fixpoint rstrip (s : string) : string :=
  match s with
  | EmptyString => EmptyString
  | String c s' =>
      match rstrip s' with
      | EmptyString => if Str.isspace c then EmptyString else String c EmptyString
      | r => String c r
      end
  end.

(** [s.strip()] *)
Definition strip (s : string) : string := rstrip (lstrip s).

(** [s.replace(c, "")] for a character [c] *)
Fixpoint remove (c : ascii) (s : string) : string :=
  match s with
  | EmptyString => EmptyString
  | String x s' => if Ascii.eqb x c then remove c s' else String x (remove c s')
  end.

(** The rest of [s] after its longest prefix of characters that
    satisfy [p], and the length of that prefix. *)
Fixpoint span (p : ascii → bool) (s : string) : nat * string :=
  match s with
  | String c s' =>
      if p c then let (n, rest) := span p s' in (S n, rest) else (O, s)
  | EmptyString => (O, EmptyString)
  end.

End Text.

Definition ESC : ascii := "027"%char.
Definition CR : ascii := "013"%char.

(** [ANSI_ESCAPE_RE.match(s)] for
    [ANSI_ESCAPE_RE = re.compile(r"\x1B\[[0-?]*[ -/]*[@-~]")]: the
    length of the match at the start of [s], if there is one.  The
    three classes are disjoint, so the longest runs are the only way
    to match. *)
Definition ANSI_ESCAPE_RE_match (s : string) : option nat :=
  match s with
  | String e (String b s1) =>
      if Ascii.eqb e ESC && Ascii.eqb b "[" then
        let (n1, s2) := Text.span (Str.in_range 48 63) s1 in
        let (n2, s3) := Text.span (Str.in_range 32 47) s2 in
        match s3 with
        | String c _ =>
            if Str.in_range 64 126 c then Some (2 + n1 + n2 + 1)%nat else None
        | EmptyString => None
        end
      else None
  | _ => None
  end.

(** [ANSI_ESCAPE_RE.sub("", s)]: every match, found from left to
    right, is left out.  [skip] counts the characters of the current
    match that are still to be left out. *)
Fixpoint ANSI_ESCAPE_RE_sub_from (skip : nat) (s : string) : string :=
  match s with
  | EmptyString => EmptyString
  | String c s' =>
      match skip with
      | S k => ANSI_ESCAPE_RE_sub_from k s'
      | O =>
          match ANSI_ESCAPE_RE_match s with
          | Some n => ANSI_ESCAPE_RE_sub_from (Nat.pred n) s'
          | None => String c (ANSI_ESCAPE_RE_sub_from O s')
          end
      end
  end.

Definition ANSI_ESCAPE_RE_sub (s : string) : string :=
  ANSI_ESCAPE_RE_sub_from O s.

(** [strip_ansi(s)] *)
Definition strip_ansi (s : string) : string :=
  Text.remove CR (ANSI_ESCAPE_RE_sub s).

(** A text without escape character and without carriage return. *)
Definition plain_text (s : string) : Prop :=
  string_forallb (λ c, negb (Ascii.eqb c ESC) && negb (Ascii.eqb c CR)) s = true.

(** A control sequence: the introducer, parameter characters [0-?],
    intermediate characters [ -/] and a final character [@-~]. *)
Definition control_sequence (params inter : string) (final : ascii) : string :=
  String ESC (String "[" (params +:+ inter +:+ String final EmptyString)).

Definition well_formed_sequence (params inter : string) (final : ascii) : Prop :=
  string_forallb (Str.in_range 48 63) params = true
  ∧ string_forallb (Str.in_range 32 47) inter = true
  ∧ Str.in_range 64 126 final = true.










(** *** The collector of the live log, [StreamlitRedirector] *)

Definition LF : ascii := "010"%char.

(** A line boundary of [str.splitlines], among the code points below
    256: LF, VT, FF, CR, FS, GS, RS and NEL. *)
Definition is_linebreak (c : ascii) : bool :=
  Str.in_range 10 13 c || Str.in_range 28 30 c || (Str.code c =? 133).

(** [s.splitlines()]: the lines of [s] without their boundaries; CR LF
    is one boundary, and a boundary at the very end opens no further
    line.  [cur] is the line being read. *)
Fixpoint splitlines_from (cur s : string) : list string :=
  match s with
  | EmptyString => if Str.nonempty cur then [cur] else []
  | String c s' =>
      if is_linebreak c then
        cur :: match s' with
               | String c' s'' =>
                   if Ascii.eqb c CR && Ascii.eqb c' LF
                   then splitlines_from EmptyString s''
                   else splitlines_from EmptyString s'
               | EmptyString => splitlines_from EmptyString s'
               end
      else splitlines_from (cur +:+ String c EmptyString) s'
  end.

Definition splitlines (s : string) : list string :=
  splitlines_from EmptyString s.

(** The text before and the text after the first [sep] of [s]. *)
Fixpoint split_once (sep : ascii) (s : string) : option (string * string) :=
  match s with
  | EmptyString => None
  | String c s' =>
      if Ascii.eqb c sep then Some (EmptyString, s')
      else match split_once sep s' with
           | Some (a, b) => Some (String c a, b)
           | None => None
           end
  end.

(** [s.split(sep, 1)] for a character [sep] *)
Definition split1 (sep : ascii) (s : string) : list string :=
  match split_once sep s with
  | Some (a, b) => [a; b]
  | None => [s]
  end.

(** What the collector shows: a call of [markdown] on one of its two
    placeholders. *)
Inductive ui_event : Type :=
| Ui_log (md : string)
| Ui_thinking (md : string).

(** The fields of the collector, and what it has shown so far. *)
Record redirector : Type := {
  _buffer : list string;
  _thoughts : list string;
  shown : list ui_event
}.

(** The body of the loop of [write], lines 89 to 98. *)
Definition note_line (r : redirector) (line : string) : redirector :=
  let line_clean := Text.strip (strip_ansi line) in
  let head := Str.lower line_clean in
  if String.prefix "thoughts:" head || String.prefix "reasoning:" head then
    match split1 ":" line_clean with
    | [_; part1] =>
        let content := Text.strip part1 in
        if Str.nonempty content && negb (bool_decide (content ∈ _thoughts r))
        then
          let thoughts := _thoughts r ++ [content] in
          let md := Str.join nl (map (λ t, "- *" +:+ t +:+ "*") thoughts) in
          {| _buffer := _buffer r;
             _thoughts := thoughts;
             shown := shown r ++ [Ui_thinking md] |}
        else r
    | _ => r
    end
  else r.

(** [StreamlitRedirector.write(s)] for a [str]: the value returned and
    the collector afterwards. *)
Definition write (r : redirector) (s : string) : Z * redirector :=
  if negb (Str.nonempty s) then (0, r)
  else
    let buffer := _buffer r ++ [s] in
    let text := strip_ansi (Str.join "" buffer) in
    let r := {| _buffer := buffer;
                _thoughts := _thoughts r;
                shown := shown r ++ [Ui_log ("```text" +:+ text +:+ "```")] |} in
    let r := fold_left note_line (splitlines s) r in
    (Z.of_nat (String.length s), r).

(** The callbacks the application hands to the coordinator, lines 249
    to 253. *)
Definition app_on_log (r : redirector) (msg : string) : redirector :=
  (write r (msg +:+ nl)).2.

Definition app_on_thought (r : redirector) (msg : string) : redirector :=
  (write r (("Thoughts: " +:+ msg) +:+ nl)).2.

(** A thought as the collector keeps it: not empty, and without white
    space at either end. *)
Definition kept_thought (t : string) : Prop :=
  Str.nonempty t = true ∧ Text.strip t = t.

Definition is_thinking (e : ui_event) : bool :=
  match e with Ui_thinking _ => true | Ui_log _ => false end.

(** A message of one line without escape character. *)
Definition one_line (msg : string) : Prop :=
  string_forallb (λ c, negb (is_linebreak c) && negb (Ascii.eqb c ESC)) msg = true.

(* ================================================================= *)
(** ** The digests of one session *)

(** The call [e] sent an agent the digest of the results [rs]. *)
Definition sent_digest_of (cfg : config) (e : event)
    (rs : list SearchResult.t) : Prop :=
  match e with
  | Ev_follow_up_agent input _ => input = findings_digest cfg rs
  | Ev_synthesis_agent input _ => input = synthesis_digest cfg rs
  | _ => False
  end.

(** A call that is sent a digest. *)
Definition is_digest_call (e : event) : bool :=
  is_follow_up e || is_synthesis e.

(* ================================================================= *)
(** ** The magnitude of a float *)

(** Every exponent the scorer meets is above [- float_scale], so that
    a mantissa [m] with an exponent [e] has the integer
    [m * 2 ^ (e + float_scale)] for a value, up to the factor
    [2 ^ float_scale]. *)
Definition float_scale : Z := 1200.

Definition scaled (m e : Z) : Z := m * 2 ^ (e + float_scale).

(** The scaled value of a float that is zero or positive and finite. *)
Definition float_value (x : float) : Z :=
  match x with
  | S754_finite false m e => scaled (Z.pos m) e
  | _ => 0
  end.

(** A positive finite float in canonical form: the mantissa has 53
    bits, or fewer at the least exponent. *)
Definition canonical_pos (x : float) : Prop :=
  match x with
  | S754_finite false m e =>
      canonical_mantissa Float64.prec Float64.emax m e = true ∧ e ≤ 971
  | _ => False
  end.

(** Plus zero or such a float. *)
Definition canonical_nonneg (x : float) : Prop :=
  x = S754_zero false ∨ canonical_pos x.

(** 1.1, the greatest score: the float that
    [0.6 * 1.0 + 0.25 * 1.0 + 0.15 * 1.0 + 0.1] evaluates to. *)
Definition score_max : float := S754_finite false 4953959590107546 (-52).

(* ================================================================= *)
(** ** Example hits for the ranker *)

(** For the query [python]: a hit on another subject (score 0.0), *)
Definition java_hit : hit :=
  <["title" := PyStr "Java"]>
    (<["href" := PyStr "https://java.com"]>
       (<["body" := PyStr "Java is a language"]> ∅)).

(** two hits with the query in the title and in the address only
    (score 0.85 each), *)
Definition docs_hit : hit :=
  <["title" := PyStr "Python docs"]>
    (<["href" := PyStr "https://docs.python.org"]>
       (<["body" := PyStr "Documentation"]> ∅)).

Definition news_hit : hit :=
  <["title" := PyStr "Python news"]>
    (<["href" := PyStr "https://news.python.org"]>
       (<["body" := PyStr "Releases"]> ∅)).

(** two hits with the query in the snippet only (score 0.25 each), the
    second with a [snippet] field for a body, *)
Definition snake_hit : hit :=
  <["title" := PyStr "Snakes"]>
    (<["href" := PyStr "https://zoo.org"]>
       (<["body" := PyStr "A python is a snake"]> ∅)).

Definition monty_hit : hit :=
  <["title" := PyStr "Monty"]>
    (<["href" := PyStr "https://example.org"]>
       (<["snippet" := PyStr "Sketches of Monty Python"]> ∅)).

(** and a hit with the query in the address only (score 0.15). *)
Definition zoo_hit : hit :=
  <["title" := PyStr "Reptiles"]>
    (<["href" := PyStr "https://zoo.org/python"]>
       (<["body" := PyStr "Reptiles of the world"]> ∅)).

(** Hits of which three clear the threshold, two of them with equal
    scores, in an order that is not the order of their scores. *)
Definition mixed_hits : list hit :=
  [java_hit; docs_hit; snake_hit; python_hit; news_hit].

(** Hits that are all below the threshold, the greatest score twice. *)
Definition weak_hits : list hit := [zoo_hit; snake_hit; bare_hit; monty_hit].

(* ================================================================= *)
(** * Part II: properties *)
(* ================================================================= *)

(** ** Binary64 arithmetic keeps non-negative numbers non-negative *)

Section FloatFacts.
Import Float64.

Lemma iter_pos_preserves {A} (P : A → Prop) (f : A → A) :
  (∀ x, P x → P (f x)) → ∀ n x, P x → P (SpecFloat.iter_pos f n x).
Proof.
  intros Hf n. induction n as [n IH|n IH|]; intros x Hx; simpl; auto.
Qed.

Lemma shr_1_nonneg mrs : 0 ≤ shr_m mrs → 0 ≤ shr_m (shr_1 mrs).
Proof.
  destruct mrs as [m r s]. simpl.
  destruct m as [|p|p]; simpl; try lia.
  - destruct p; simpl; lia.
Qed.

Lemma shr_nonneg mrs e n : 0 ≤ shr_m mrs → 0 ≤ shr_m (shr mrs e n).1.
Proof.
  intros H. unfold shr. destruct n; simpl; auto.
  apply (iter_pos_preserves (λ x, 0 ≤ shr_m x)); auto using shr_1_nonneg.
Qed.

Lemma shr_record_of_loc_m m l : shr_m (shr_record_of_loc m l) = m.
Proof. destruct l as [|[]]; reflexivity. Qed.

Lemma shr_fexp_nonneg m e l :
  0 ≤ m → 0 ≤ shr_m (shr_fexp prec emax m e l).1.
Proof.
  intros H. unfold shr_fexp. apply shr_nonneg.
  by rewrite shr_record_of_loc_m.
Qed.

Lemma round_nearest_even_nonneg m l : 0 ≤ m → 0 ≤ round_nearest_even m l.
Proof.
  intros H. unfold round_nearest_even.
  destruct l as [|[]]; try destruct (Z.even m); lia.
Qed.

Lemma binary_round_aux_nonneg m e l :
  0 ≤ m → nonneg (binary_round_aux prec emax false m e l).
Proof.
  intros H. unfold binary_round_aux.
  pose proof (shr_fexp_nonneg m e l H) as H1.
  destruct (shr_fexp prec emax m e l) as [mrs' e'] eqn:E1. simpl in H1.
  pose proof (shr_fexp_nonneg
                (round_nearest_even (shr_m mrs') (loc_of_shr_record mrs'))
                e' loc_Exact
                (round_nearest_even_nonneg _ _ H1)) as H2.
  destruct (shr_fexp prec emax _ e' loc_Exact) as [mrs'' e''] eqn:E2.
  simpl in H2.
  destruct (shr_m mrs'') as [|p|p]; simpl; try done; try lia.
  by destruct (e'' <=? emax - prec).
Qed.

Lemma SFdiv_core_nonneg m1 e1 m2 e2 :
  0 ≤ (SFdiv_core_binary prec emax (Z.pos m1) e1 (Z.pos m2) e2).1.1.
Proof.
  unfold SFdiv_core_binary.
  set (s := _ - _ - _).
  set (m' := match s with Z.pos _ => _ | 0 => _ | Z.neg _ => _ end).
  assert (0 ≤ m') as Hm'.
  { subst m'. destruct s; try lia. apply Z.shiftl_nonneg. lia. }
  pose proof (Z.div_eucl_eq m' (Z.pos m2) ltac:(lia)) as Heq.
  pose proof (Z.mod_pos_bound m' (Z.pos m2) ltac:(lia)) as Hmod.
  unfold Z.modulo in Hmod.
  destruct (Z.div_eucl m' (Z.pos m2)) as [q r]. simpl. nia.
Qed.

Lemma ratio_nonneg a b : 0 ≤ a → 0 < b → nonneg (ratio a b).
Proof.
  intros Ha Hb. unfold ratio, exact.
  destruct a as [|pa|pa], b as [|pb|pb]; try lia; simpl; try done.
  pose proof (SFdiv_core_nonneg pa 0 pb 0) as H.
  destruct (SFdiv_core_binary _ _ _ _ _ _) as [[mz ez] lz]. simpl in H.
  by apply binary_round_aux_nonneg.
Qed.

Lemma mul_nonneg m e x :
  nonneg x → nonneg (mul (S754_finite false m e) x).
Proof.
  intros Hx. unfold mul.
  destruct x as [sx|sx| |sx mx ex]; simpl in *; subst; try done.
  by apply binary_round_aux_nonneg.
Qed.

Lemma add_nonneg x y : nonneg x → nonneg y → nonneg (add x y).
Proof.
  intros Hx Hy. unfold add.
  destruct x as [sx|sx| |sx mx ex], y as [sy|sy| |sy my ey];
    simpl in *; subst; try done.
  - by destruct sx, sy.
  - unfold binary_normalize.
    destruct (shl_align mx ex _) as [m1 ?], (shl_align my ey _) as [m2 ?].
    simpl. unfold binary_round.
    destruct (shl_align _ _ _) as [mz ez].
    by apply binary_round_aux_nonneg.
Qed.

Lemma lit_0_6_eq : lit_0_6 = S754_finite false 5404319552844595 (-53).
Proof. vm_compute. reflexivity. Qed.
Lemma lit_0_25_eq : lit_0_25 = S754_finite false 4503599627370496 (-54).
Proof. vm_compute. reflexivity. Qed.
Lemma lit_0_15_eq : lit_0_15 = S754_finite false 5404319552844595 (-55).
Proof. vm_compute. reflexivity. Qed.
Lemma lit_0_1_eq : lit_0_1 = S754_finite false 7205759403792794 (-56).
Proof. vm_compute. reflexivity. Qed.
Lemma lit_0_26_eq : lit_0_26 = S754_finite false 4683743612465316 (-54).
Proof. vm_compute. reflexivity. Qed.

(** *** The order of the floats that are not NaN *)

Lemma nonneg_not_nan x : nonneg x → not_nan x.
Proof. by destruct x. Qed.

Ltac cmp_cases :=
  repeat match goal with
    | |- context [Z.compare ?a ?b] =>
        destruct (Z.compare_spec a b); subst
    | |- context [Pos.compare_cont Eq ?a ?b] =>
        change (Pos.compare_cont Eq a b) with (Pos.compare a b);
        destruct (Pos.compare_spec a b); subst
    | H : context [Z.compare ?a ?b] |- _ =>
        destruct (Z.compare_spec a b); subst
    | H : context [Pos.compare_cont Eq ?a ?b] |- _ =>
        change (Pos.compare_cont Eq a b) with (Pos.compare a b) in H;
        destruct (Pos.compare_spec a b); subst
    end.

Ltac float_cases x :=
  destruct x as [[]|[]| |[] ? ?].

Lemma ltb_asym x y : ltb x y = true → ltb y x = false.
Proof.
  unfold ltb, SFltb. float_cases x; float_cases y; simpl; try done;
    cmp_cases; simpl; try done; try lia.
Qed.

Lemma ltb_cotrans x y k :
  not_nan k → ltb x y = true → ltb x k = true ∨ ltb k y = true.
Proof.
  unfold not_nan, ltb, SFltb. intros Hk.
  float_cases x; float_cases y; simpl; try done;
    float_cases k; simpl; try done; auto;
    intros H; cmp_cases; simpl in *; auto; try done; try lia.
Qed.

Lemma geb_ltb x y : not_nan x → not_nan y → geb x y = negb (ltb x y).
Proof.
  unfold not_nan, geb, ltb, SFleb, SFltb. intros Hx Hy.
  float_cases x; float_cases y; simpl; try done;
    cmp_cases; simpl; try done; try lia.
Qed.
End FloatFacts.

(** ** The stable descending sort *)

Section SortFacts.
Context {A : Type} (key : A → float).

Local Abbreviation tie := (tie key).
Local Abbreviation keys_ok := (keys_ok key).
Local Abbreviation ge_key := (ge_key key).
Local Abbreviation first_greatest := (first_greatest key).

Lemma insert_desc_perm x l : insert_desc key x l ≡ₚ x :: l.
Proof.
  induction l as [|y l IH]; simpl; [done|].
  destruct (Float64.ltb (key x) (key y)); [|done].
  rewrite IH. apply Permutation_swap.
Qed.

Lemma sort_reverse_perm l : sort_reverse key l ≡ₚ l.
Proof.
  induction l as [|x l IH]; simpl; [done|].
  by rewrite insert_desc_perm, IH.
Qed.

Lemma sort_reverse_keys_ok l : keys_ok l → keys_ok (sort_reverse key l).
Proof. unfold keys_ok. intros H. by rewrite sort_reverse_perm. Qed.

Lemma sort_reverse_nil l : sort_reverse key l = [] → l = [].
Proof.
  intros H. apply Permutation_nil_r. rewrite <- H. by rewrite sort_reverse_perm.
Qed.

Lemma insert_desc_sorted x l :
  not_nan (key x) → keys_ok l →
  Sorted ge_key l → Sorted ge_key (insert_desc key x l).
Proof.
  intros Hx Hl Hs. induction l as [|y l IH]; simpl.
  - by repeat constructor.
  - apply Forall_cons in Hl as [Hy Hl].
    apply Sorted_inv in Hs as [Hs Hhd].
    destruct (Float64.ltb (key x) (key y)) eqn:E.
    + constructor; [by apply IH|].
      destruct l as [|z l]; simpl.
      * constructor. unfold ge_key. rewrite geb_ltb by done.
        by rewrite (ltb_asym _ _ E).
      * destruct (Float64.ltb (key x) (key z)).
        -- constructor. by apply HdRel_inv in Hhd.
        -- constructor. unfold ge_key. rewrite geb_ltb by done.
           by rewrite (ltb_asym _ _ E).
    + constructor; [by constructor|].
      constructor. unfold ge_key. rewrite geb_ltb by done. by rewrite E.
Qed.

Lemma sort_reverse_sorted l : keys_ok l → Sorted ge_key (sort_reverse key l).
Proof.
  induction l as [|x l IH]; simpl; intros H; [constructor|].
  apply Forall_cons in H as [Hx Hl].
  apply insert_desc_sorted; auto using sort_reverse_keys_ok.
Qed.

Lemma tie_lt k x y :
  not_nan k → tie k x = true → Float64.ltb (key x) (key y) = true →
  tie k y = false.
Proof.
  unfold tie. intros Hk Ht Hlt.
  apply andb_true_iff in Ht as [H1 H2].
  apply negb_true_iff in H1, H2.
  destruct (ltb_cotrans _ _ k Hk Hlt) as [H|H]; [congruence|].
  rewrite H. by rewrite andb_false_r.
Qed.

(** On a descending list every element passed by the insertion is
    strictly greater than the inserted one. *)
Lemma insert_desc_filter_tie k x l :
  not_nan k →
  filter (λ y, tie k y = true) (insert_desc key x l)
  = filter (λ y, tie k y = true) (x :: l).
Proof.
  intros Hk. induction l as [|y l IH]; simpl; [done|].
  destruct (Float64.ltb (key x) (key y)) eqn:E; [|done].
  rewrite filter_cons, IH, !filter_cons.
  destruct (decide (tie k y = true)) as [Hy|Hy];
    destruct (decide (tie k x = true)) as [Hx|Hx]; try done.
  by rewrite (tie_lt k x y Hk Hx E) in Hy.
Qed.

Lemma sort_reverse_stable k l :
  not_nan k →
  filter (λ y, tie k y = true) (sort_reverse key l)
  = filter (λ y, tie k y = true) l.
Proof.
  intros Hk. induction l as [|x l IH]; simpl; [done|].
  by rewrite insert_desc_filter_tie, !filter_cons, IH.
Qed.

(** The head of the sorted list is the first of the greatest. *)
Lemma sort_reverse_head l c rest :
  keys_ok l → sort_reverse key l = c :: rest → first_greatest c l.
Proof.
  revert c rest. induction l as [|x l IH]; simpl; intros c rest Hok Hs; [done|].
  apply Forall_cons in Hok as [Hx Hl].
  destruct (sort_reverse key l) as [|y r] eqn:E.
  - apply sort_reverse_nil in E. subst l. simpl in Hs.
    injection Hs as <- <-. exists [], []. by repeat split.
  - simpl in Hs.
    destruct (IH y r Hl eq_refl) as (pre & post & -> & Hpre & Hpost).
    assert (not_nan (key y)) as Hy.
    { rewrite Forall_app, Forall_cons in Hl. tauto. }
    destruct (Float64.ltb (key x) (key y)) eqn:Hxy.
    + injection Hs as <- <-.
      exists (x :: pre), post. repeat split; [|done]. by constructor.
    + injection Hs as <- <-.
      exists [], (pre ++ y :: post). repeat split; [constructor|].
      assert (∀ z, Float64.ltb (key x) (key z) = true →
                   Float64.ltb (key y) (key z) = true) as Hup.
      { intros z Hz. destruct (ltb_cotrans _ _ (key y) Hy Hz); congruence. }
      apply Forall_app. split; [|constructor].
      * eapply Forall_impl; [exact Hpre|]. simpl. intros z Hz.
        destruct (Float64.ltb (key x) (key z)) eqn:E'; [|done].
        apply Hup in E'. by rewrite (ltb_asym _ _ Hz) in E'.
      * done.
      * eapply Forall_impl; [exact Hpost|]. simpl. intros z Hz.
        destruct (Float64.ltb (key x) (key z)) eqn:E'; [|done].
        apply Hup in E'. congruence.
Qed.
End SortFacts.

(** ** The scorer never raises *)

Lemma _tok_eq (v : pyval) : _tok v = Ok (tokens (text_of v)).
Proof. by destruct v as [|[|c s]]. Qed.

Lemma truediv_max a n :
  Float64.truediv a (Z.max 1 n) = Ok (Float64.ratio a (Z.max 1 n)).
Proof.
  unfold Float64.truediv.
  destruct (Z.eqb_spec (Z.max 1 n) 0); [lia|done].
Qed.

Lemma _match_score_eq (query title url snippet : pyval) :
  _match_score query title url snippet
  = Ok (score_of_texts (text_of query) (text_of title) (text_of url)
          (text_of snippet)).
Proof.
  unfold _match_score, score_of_texts.
  rewrite !_tok_eq. simpl.
  destruct (decide _); [done|].
  rewrite !truediv_max. simpl. reflexivity.
Qed.

Lemma overlap_nonneg q x : Float64.nonneg (overlap q x).
Proof. unfold overlap. apply ratio_nonneg; lia. Qed.

Lemma weighted_sum_nonneg a b c d :
  Float64.nonneg a → Float64.nonneg b → Float64.nonneg c → Float64.nonneg d →
  Float64.nonneg (weighted_sum a b c d).
Proof.
  intros. unfold weighted_sum.
  rewrite lit_0_6_eq, lit_0_25_eq, lit_0_15_eq.
  auto using add_nonneg, mul_nonneg.
Qed.

Lemma score_of_texts_nonneg q t u s : Float64.nonneg (score_of_texts q t u s).
Proof.
  unfold score_of_texts. destruct (decide _); [done|].
  apply weighted_sum_nonneg; auto using overlap_nonneg.
  destruct (Str.contains _ _); [by rewrite lit_0_1_eq|done].
Qed.

(** ** The tokenizer of the code and the tokenizer of the specification *)

Lemma app_cons (c : ascii) (a b : string) :
  String c a +:+ b = String c (a +:+ b).
Proof. reflexivity. Qed.

Lemma app_nil_l (b : string) : "" +:+ b = b.
Proof. reflexivity. Qed.

Lemma alphanumeric_lower_char c :
  Spec.alphanumeric (Str.lower_char c) = is_az09 (Str.lower_char c).
Proof. destruct c as [[] [] [] [] [] [] [] []]; reflexivity. Qed.

Lemma is_az09_not_space c : is_az09 c = true → Ascii.eqb c " " = false.
Proof. destruct c as [[] [] [] [] [] [] [] []]; done. Qed.

Lemma sub_lower_squeeze (b : bool) (s : string) :
  _TOKEN_RE_sub_from b " " (Str.lower s)
  = Spec.squeeze b (Spec.blank (Str.lower s)).
Proof.
  revert b. induction s as [|c s IH]; intros b; simpl; [done|].
  rewrite alphanumeric_lower_char.
  destruct (is_az09 (Str.lower_char c)) eqn:E.
  - rewrite (is_az09_not_space _ E). by rewrite IH.
  - simpl. rewrite ?app_cons, ?app_nil_l. destruct b; by rewrite IH.
Qed.

Lemma append_assoc (a b c : string) : (a +:+ b) +:+ c = a +:+ b +:+ c.
Proof. induction a as [|x a IH]; [done|]. by rewrite !app_cons, IH. Qed.

Lemma append_nil_r (a : string) : a +:+ "" = a.
Proof. induction a as [|x a IH]; [done|]. by rewrite app_cons, IH. Qed.

Lemma nonempty_append_char cur c w :
  Str.nonempty ((cur +:+ String c "") +:+ w) = true.
Proof. by destruct cur. Qed.

Lemma words_from_fields (cur s : string) :
  Spec.words_from cur s
  = filter (λ w, Str.nonempty w = true)
      (match Str.fields s with
       | w :: ws => (cur +:+ w) :: ws
       | [] => [cur]
       end).
Proof.
  revert cur. induction s as [|c s IH]; intros cur; simpl.
  - rewrite append_nil_r. unfold Spec.flush.
    rewrite filter_cons. by destruct (Str.nonempty cur).
  - destruct (Str.isspace c).
    + rewrite IH, append_nil_r. unfold Spec.flush.
      rewrite (filter_cons _ cur).
      destruct (Str.fields s) as [|w ws]; simpl;
        by destruct (Str.nonempty cur).
    + rewrite IH.
      destruct (Str.fields s) as [|w ws]; simpl.
      * done.
      * by rewrite append_assoc.
Qed.

Lemma words_from_split (s : string) :
  Spec.words_from "" s = Str.split s.
Proof.
  rewrite words_from_fields. unfold Str.split.
  by destruct (Str.fields s).
Qed.

Lemma tokens_tokenize (s : string) : tokens s = Spec.tokenize s.
Proof.
  unfold tokens, Spec.tokenize, _TOKEN_RE_sub.
  rewrite sub_lower_squeeze, words_from_split. unfold Str.split.
  rewrite !list_filter_filter.
  apply list_filter_iff. intros t. tauto.
Qed.

(** ** [in] on strings *)

Lemma prefix_spec (n h : string) :
  String.prefix n h = true ↔ ∃ post, h = n +:+ post.
Proof.
  revert h. induction n as [|a n IH]; intros h.
  - split; [|by destruct h]. intros _. by exists h.
  - destruct h as [|b h]; simpl.
    + split; [done|]. by intros [post ?].
    + destruct (ascii_dec a b) as [->|Hne].
      * rewrite IH. split; intros [post Hp]; exists post;
          rewrite ?app_cons in *; congruence.
      * split; [done|]. intros [post Hp]. rewrite app_cons in Hp. congruence.
Qed.

Lemma contains_unfold (hay needle : string) :
  Str.contains hay needle
  = String.prefix needle hay
    || match hay with
       | EmptyString => false
       | String _ hay' => Str.contains hay' needle
       end.
Proof. by destruct hay. Qed.

Lemma contains_spec (hay needle : string) :
  Str.contains hay needle = true ↔ Spec.substring needle hay.
Proof.
  unfold Spec.substring. split.
  - induction hay as [|c hay IH]; rewrite contains_unfold;
      intros H; apply orb_true_iff in H as [H|H]; try done.
    + apply prefix_spec in H as [post ->]. by exists "", post.
    + apply prefix_spec in H as [post ->]. by exists "", post.
    + destruct (IH H) as (pre & post & ->). by exists (String c pre), post.
  - intros (pre & post & ->).
    induction pre as [|c pre IH]; rewrite contains_unfold; apply orb_true_iff.
    + left. apply prefix_spec. by exists post.
    + right. exact IH.
Qed.

(** C2: the scorer computes the reference definition: 0.0 for a query
    whose token set is empty, and otherwise
    0.6*overlap(T) + 0.25*overlap(S) + 0.15*overlap(U) + phrase_bonus
    over the token sets of the specification's tokenizer, with
    phrase_bonus 0.1 exactly when the joined query tokens are a
    contiguous substring of the joined title tokens. *)
Theorem scorer_reference_definition (query title url snippet : string) :
  ∃ x, _match_score (PyStr query) (PyStr title) (PyStr url) (PyStr snippet) = Ok x
       ∧ Spec.score_is x query title url snippet.
Proof.
  eexists. split; [apply _match_score_eq|].
  unfold Spec.score_is, score_of_texts, Spec.token_set. simpl.
  rewrite <- !tokens_tokenize.
  destruct (decide _) as [He|Hne]; [by left|].
  right. split; [done|].
  eexists. split; [|reflexivity].
  unfold Spec.phrase_bonus_is. rewrite <- !tokens_tokenize.
  destruct (Str.contains _ _) eqn:E.
  - left. split; [|done]. by apply contains_spec.
  - right. split; [|done]. rewrite <- contains_spec. congruence.
Qed.

(** ** The ranker *)

Lemma py_or_text (a b : pyval) :
  text_of (py_or a b)
  = if Str.nonempty (text_of a) then text_of a else text_of b.
Proof. by destruct a as [|[|c s]]. Qed.

Lemma hit_get_text (r : hit) (key : string) :
  text_of (hit_get r key (PyStr "")) = field_text r key.
Proof.
  unfold hit_get, field_text. by destruct (r !! key) as [[|s]|].
Qed.

Lemma score_hit_eq (q : string) (r : hit) :
  score_hit q r
  = Ok (score_of_texts q (field_text r "title") (field_text r "href")
          (snippet_text r),
        hit_get r "title" (PyStr ""), hit_get r "href" (PyStr "")).
Proof.
  unfold score_hit. rewrite _match_score_eq. simpl.
  rewrite !py_or_text, !hit_get_text. simpl.
  unfold snippet_text.
  destruct (Str.nonempty (field_text r "body")) eqn:E; rewrite ?E; [done|].
  by destruct (Str.nonempty (field_text r "snippet")) eqn:E';
    [|destruct (field_text r "snippet")].
Qed.

Lemma score_hits_total (q : string) (raw : list hit) :
  ∃ ranked, score_hits q raw = Ok ranked
    ∧ length ranked = length raw
    ∧ Forall (λ c, Float64.nonneg (cand_score c)) ranked.
Proof.
  induction raw as [|r raw (ranked & IH & Hlen & Hnn)]; simpl.
  - by exists [].
  - rewrite score_hit_eq, IH. simpl. eexists. split; [done|].
    split; [by simpl; rewrite Hlen|].
    constructor; [|done]. apply score_of_texts_nonneg.
Qed.

Lemma nonneg_keys_ok (l : list candidate) :
  Forall (λ c, Float64.nonneg (cand_score c)) l → keys_ok cand_score l.
Proof.
  intros H. eapply Forall_impl; [exact H|]. intros c. apply nonneg_not_nan.
Qed.

Lemma sort_reverse_stable_sorted (l : list candidate) :
  keys_ok cand_score l → stable_sorted_desc l (sort_reverse cand_score l).
Proof.
  intros Hok. split; [apply sort_reverse_perm|].
  split; [by apply sort_reverse_sorted|].
  intros k Hk. by apply sort_reverse_stable.
Qed.

Lemma slice_to_nonneg {A} (k : Z) (l : list A) :
  0 ≤ k → slice_to k l = take (Z.to_nat k) l.
Proof. intros H. unfold slice_to. by destruct (Z.leb_spec 0 k); [|lia]. Qed.

Lemma is_nil_true {A} (l : list A) : is_nil l = true ↔ l = [].
Proof. by destruct l. Qed.

(** C3, as amended: for at least one pick per query, and whenever a
    hit clears the threshold, the picks are the scored hits
    stable-sorted in non-increasing score order, restricted to the
    entries of score at least 0.26 and truncated to at most
    [picks_per_query] of them. *)
Theorem ranker_output_shape (picks_per_query : Z) (q : string) (raw : list hit) :
  1 ≤ picks_per_query → ranker_shape picks_per_query q raw.
Proof.
  intros Hppq. unfold ranker_shape, pick_candidates.
  destruct (score_hits_total q raw) as (ranked & Hr & Hlen & Hnn).
  exists ranked, (sort_reverse cand_score ranked), (select_picks picks_per_query ranked).
  rewrite Hr. split; [done|].
  split; [by apply sort_reverse_stable_sorted, nonneg_keys_ok|].
  split; [done|].
  intros Hex. unfold select_picks.
  rewrite slice_to_nonneg by lia.
  set (sorted := sort_reverse cand_score ranked).
  change (λ x : candidate, Float64.geb (cand_score x) MIN_SCORE = true) with clears.
  assert (filter clears sorted ≠ []) as Hne.
  { apply Exists_exists in Hex as (c & Hin & Hc).
    intros Hnil.
    assert (c ∈ filter clears sorted) as Hc'.
    { apply list_elem_of_filter. split; [done|].
      subst sorted. by rewrite sort_reverse_perm. }
    rewrite Hnil in Hc'. by apply not_elem_of_nil in Hc'. }
  destruct (filter clears sorted) as [|c cs] eqn:Ef; [done|].
  destruct (Z.to_nat picks_per_query) as [|n] eqn:En; [lia|].
  simpl. split; [done|].
  unfold len. simpl. rewrite length_take. lia.
Qed.

(** Witness of C3: two picks per query on five hits, given in an order
    that is not the order of their scores.  Three of them clear the
    threshold, two of these with the same score: the picks are the best
    hit and the earlier of the two equal ones, the third is cut off. *)
Lemma ranker_output_shape_witness :
  1 ≤ 2
  ∧ ∃ ranked sorted picks,
      score_hits "python" mixed_hits = Ok ranked
      ∧ stable_sorted_desc ranked sorted
      ∧ pick_candidates 2 "python" mixed_hits = Ok picks
      ∧ Exists clears ranked
      ∧ picks = take (Z.to_nat 2) (filter clears sorted)
      ∧ len picks ≤ 2
      ∧ map cand_title picks = [PyStr "Python"; PyStr "Python docs"]
      ∧ length (filter clears sorted) = 3%nat.
Proof.
  split; [lia|].
  destruct (ranker_output_shape 2 "python" mixed_hits)
    as (ranked & sorted & picks & Hr & Hs & Hp & Hshape); [lia|].
  exists ranked, sorted, picks.
  assert (Exists clears ranked) as Hex.
  { vm_compute in Hr. injection Hr as <-.
    apply Exists_cons_tl, Exists_cons_hd. by vm_compute. }
  destruct (Hshape Hex) as [Hpicks Hlen].
  do 6 (split; [done|]). split.
  - vm_compute in Hp. by injection Hp as <-.
  - destruct Hs as (Hperm & _). rewrite Hperm.
    vm_compute in Hr. injection Hr as <-. by vm_compute.
Defined.

(** Counterexample to C3 as stated: with [picks_per_query = 0] and a hit
    that clears the threshold, the fallback picks that hit, so the
    output is not truncated to zero candidates. *)
Lemma ranker_shape_fails_at_zero :
  ¬ ranker_shape 0 "python" [python_hit].
Proof.
  intros (ranked & sorted & picks & Hr & _ & Hp & Hshape).
  unfold pick_candidates in Hp. rewrite Hr in Hp. simpl in Hp.
  assert (ranked =
            [(S754_finite false 4953959590107546 (-52),
              PyStr "Python", PyStr "https://python.org")]) as ->.
  { vm_compute in Hr. by injection Hr as <-. }
  assert (picks =
            [(S754_finite false 4953959590107546 (-52),
              PyStr "Python", PyStr "https://python.org")]) as ->.
  { vm_compute in Hp. by injection Hp as <-. }
  destruct Hshape as [Hpicks _].
  - constructor. vm_compute. reflexivity.
  - simpl in Hpicks. discriminate.
Qed.

Lemma below_not_clears (c : candidate) :
  not_nan (cand_score c) → below c → ¬ clears c.
Proof.
  unfold below, clears. intros Hc Hb.
  rewrite geb_ltb; [by rewrite Hb| done |].
  apply nonneg_not_nan. unfold MIN_SCORE. by rewrite lit_0_26_eq.
Qed.

Lemma select_picks_nonempty (picks_per_query : Z) (ranked : list candidate) :
  ranked ≠ [] → select_picks picks_per_query ranked ≠ [].
Proof.
  intros Hne. unfold select_picks.
  destruct (is_nil (slice_to _ _)) eqn:E1; simpl.
  - destruct (sort_reverse cand_score ranked) as [|c cs] eqn:Es.
    + by apply sort_reverse_nil in Es.
    + done.
  - intros H. apply is_nil_true in H. congruence.
Qed.

Lemma filter_none {A} (P : A → Prop) `{∀ x, Decision (P x)} (l : list A) :
  Forall (λ x, ¬ P x) l → filter P l = [].
Proof.
  induction 1 as [|x l Hx _ IH]; [done|].
  rewrite filter_cons. by destruct (decide (P x)).
Qed.

Lemma select_picks_fallback (picks_per_query : Z) (ranked : list candidate) :
  keys_ok cand_score ranked → ranked ≠ [] → Forall below ranked →
  ∃ c, select_picks picks_per_query ranked = [c]
       ∧ first_greatest cand_score c ranked.
Proof.
  intros Hok Hne Hbelow. unfold select_picks.
  change (λ x : candidate, Float64.geb (cand_score x) MIN_SCORE = true) with clears.
  rewrite (filter_none clears).
  2:{ rewrite sort_reverse_perm.
      apply Forall_forall. intros c Hc.
      apply below_not_clears.
      - by eapply Forall_forall in Hok.
      - by eapply Forall_forall in Hbelow. }
  assert (slice_to picks_per_query (@nil candidate) = []) as ->.
  { unfold slice_to. destruct (0 <=? picks_per_query); by rewrite take_nil. }
  destruct (sort_reverse cand_score ranked) as [|c cs] eqn:Es.
  { by apply sort_reverse_nil in Es. }
  simpl. exists c. split; [done|].
  by eapply sort_reverse_head.
Qed.

(** C4: a non-empty hit list yields at least one pick, and where every
    score is below 0.26 it yields exactly one, the first of the hits
    with the greatest score. *)
Theorem fallback_guarantee (picks_per_query : Z) (q : string) (raw : list hit) :
  raw ≠ [] →
  ∃ ranked picks,
    score_hits q raw = Ok ranked
    ∧ pick_candidates picks_per_query q raw = Ok picks
    ∧ picks ≠ []
    ∧ (Forall below ranked →
       ∃ c, picks = [c] ∧ first_greatest cand_score c ranked).
Proof.
  intros Hraw.
  destruct (score_hits_total q raw) as (ranked & Hr & Hlen & Hnn).
  assert (ranked ≠ []) as Hne.
  { intros ->. destruct raw; [done|]. simpl in Hlen. lia. }
  exists ranked, (select_picks picks_per_query ranked).
  unfold pick_candidates. rewrite Hr. split; [done|]. split; [done|].
  split; [by apply select_picks_nonempty|].
  intros Hbelow. by apply select_picks_fallback; [apply nonneg_keys_ok| |].
Qed.

(** Witness of C4: four hits that are all below the threshold, the
    greatest score (0.25) at the second and at the fourth of them: the
    single pick is the second hit. *)
Lemma fallback_guarantee_witness :
  weak_hits ≠ []
  ∧ ∃ ranked picks c,
      score_hits "python" weak_hits = Ok ranked
      ∧ pick_candidates 2 "python" weak_hits = Ok picks
      ∧ picks ≠ []
      ∧ Forall below ranked
      ∧ picks = [c]
      ∧ first_greatest cand_score c ranked
      ∧ cand_title c = PyStr "Snakes".
Proof.
  split; [done|].
  destruct (fallback_guarantee 2 "python" weak_hits)
    as (ranked & picks & Hr & Hp & Hne & Hfb); [done|].
  assert (Forall below ranked) as Hb.
  { vm_compute in Hr. injection Hr as <-.
    repeat (constructor; [by vm_compute|]). constructor. }
  destruct (Hfb Hb) as (c & Hc & Hfg).
  exists ranked, picks, c. do 6 (split; [done|]).
  rewrite Hc in Hp. vm_compute in Hp. by injection Hp as <-.
Defined.

(** C8: on a hit that carries the query in its title, its address and
    its snippet the score is 1.1 (the float 4953959590107546 * 2^-52),
    above 1.0. *)
Theorem score_exceeds_one :
  _match_score (PyStr "python") (PyStr "Python") (PyStr "https://python.org")
    (PyStr "Python is a language")
  = Ok (S754_finite false 4953959590107546 (-52))
  ∧ Float64.ltb Float64.one (S754_finite false 4953959590107546 (-52)) = true
  ∧ Float64.fmt_2f (S754_finite false 4953959590107546 (-52)) = "1.10".
Proof. vm_compute. done. Qed.

Lemma overlap_empty (Q : gset string) : overlap Q ∅ = Float64.zero.
Proof.
  unfold overlap. rewrite intersection_empty_r_L, size_empty.
  unfold Float64.ratio. simpl.
  by destruct (Z.max 1 (Z.of_nat (size Q))) eqn:E; [lia| |lia].
Qed.

(** C10: tokenizing and scoring never raise: [_tok] reads [None] as the
    empty string, [_match_score] reads a [None] argument as the empty
    string, the scoring of a hit reads a missing or [None] field as the
    empty string, and the empty string has no tokens, overlaps with
    nothing and, as a query, scores 0.0. *)
Theorem scoring_total :
  (∀ v : pyval, _tok v = Ok (tokens (text_of v)))
  ∧ (∀ query title url snippet : pyval,
       _match_score query title url snippet
       = Ok (score_of_texts (text_of query) (text_of title) (text_of url)
               (text_of snippet)))
  ∧ (∀ (q : string) (r : hit),
       score_hit q r
       = Ok (score_of_texts q (field_text r "title") (field_text r "href")
               (snippet_text r),
             hit_get r "title" (PyStr ""), hit_get r "href" (PyStr "")))
  ∧ text_of PyNone = EmptyString
  ∧ tokens EmptyString = []
  ∧ (∀ Q : gset string, overlap Q (list_to_set (tokens EmptyString)) = Float64.zero)
  ∧ (∀ title url snippet : string,
       score_of_texts EmptyString title url snippet = Float64.zero)
  ∧ (∀ query : string,
       score_of_texts query EmptyString EmptyString EmptyString = Float64.zero).
Proof.
  split; [apply _tok_eq|]. split; [apply _match_score_eq|].
  split; [apply score_hit_eq|]. split; [done|]. split; [done|].
  split; [intros Q; apply overlap_empty|].
  split; [done|].
  intros query. unfold score_of_texts.
  destruct (decide _) as [|Hne]; [done|].
  change (tokens EmptyString) with (@nil string).
  change (Str.join " " []) with EmptyString.
  rewrite list_to_set_nil, overlap_empty.
  assert (Str.contains EmptyString (Str.join " " (tokens query)) = false) as ->.
  { destruct (tokens query) as [|t ts] eqn:E; [done|].
    assert (Str.nonempty t = true) as Ht.
    { assert (t ∈ tokens query) as Hin by (rewrite E; left).
      unfold tokens in Hin. apply list_elem_of_filter in Hin. tauto. }
    destruct t as [|c t]; [done|]. by destruct ts. }
  vm_compute. reflexivity.
Qed.

(** ** Reasoning on the monad *)

Section MonadFacts.
Context {W : Type}.
Implicit Types st : state W.

Lemma bind_run {A B} (c : M W A) (k : A → M W B) st :
  (c ≫= k) st
  = match c st with
    | (Ok a, st') => k a st'
    | (Raise e, st') => (Raise e, st')
    | (Diverge, st') => (Diverge, st')
    end.
Proof. reflexivity. Qed.

Lemma bind_run_ok {A B} (c : M W A) (k : A → M W B) st a st' :
  c st = (Ok a, st') → (c ≫= k) st = k a st'.
Proof. intros H. by rewrite bind_run, H. Qed.

Lemma for_each_cons {A} (x : A) (l : list A) (body : A → M W unit) :
  for_each (x :: l) body = (body x ≫= λ _, for_each l body).
Proof. reflexivity. Qed.

(** *** Relations between the state before and the state after *)

Section Respects.
Context (R : relation (state W)) `{!PreOrder R}.

Lemma respects_ret {A} (a : A) : respects R (mret a : M W A).
Proof. intros st. simpl. reflexivity. Qed.

Lemma respects_pure {A} (x : outcome A) : respects R (λ st, (x, st)).
Proof. intros st. simpl. reflexivity. Qed.

Lemma respects_read {A} (f : state W → A) : respects R (λ st, (Ok (f st), st)).
Proof. intros st. simpl. reflexivity. Qed.

Lemma respects_bind {A B} (c : M W A) (k : A → M W B) :
  respects R c → (∀ a, respects R (k a)) → respects R (c ≫= k).
Proof.
  intros Hc Hk st. rewrite bind_run.
  specialize (Hc st).
  destruct (c st) as [[a|e|] st']; simpl in *; [|done..].
  etrans; [exact Hc|]. apply Hk.
Qed.

Lemma respects_for_each {A} (l : list A) (body : A → M W unit) :
  (∀ x, respects R (body x)) → respects R (for_each l body).
Proof.
  intros Hb. induction l as [|x l IH].
  - apply respects_ret.
  - rewrite for_each_cons. apply respects_bind; auto.
Qed.

Lemma respects_try_except {A} (body : M W A) (handler : exn → M W A) :
  respects R body → (∀ e, respects R (handler e)) →
  respects R (try_except body handler).
Proof.
  intros Hb Hh st. unfold try_except.
  specialize (Hb st).
  destruct (body st) as [[a|e|] st']; simpl in *; [done| |done].
  etrans; [exact Hb|]. apply Hh.
Qed.

Lemma respects_diverge {A} : respects R (diverge : M W A).
Proof. intros st. simpl. reflexivity. Qed.
End Respects.

(** *** Termination *)

Lemma terminates_ret {A} (a : A) : terminates (mret a : M W A).
Proof. by intros st. Qed.

Lemma terminates_bind {A B} (c : M W A) (k : A → M W B) :
  terminates c → (∀ a, terminates (k a)) → terminates (c ≫= k).
Proof.
  intros Hc Hk st. rewrite bind_run. specialize (Hc st).
  destruct (c st) as [[a|e|] st']; simpl in *; [apply Hk|done..].
Qed.

Lemma terminates_for_each {A} (l : list A) (body : A → M W unit) :
  (∀ x, terminates (body x)) → terminates (for_each l body).
Proof.
  intros Hb. induction l as [|x l IH]; [apply terminates_ret|].
  rewrite for_each_cons. apply terminates_bind; auto.
Qed.

Lemma terminates_try_except {A} (body : M W A) (handler : exn → M W A) :
  terminates body → (∀ e, terminates (handler e)) →
  terminates (try_except body handler).
Proof.
  intros Hb Hh st. unfold try_except. specialize (Hb st).
  destruct (body st) as [[a|e|] st']; simpl in *; [done|apply Hh|done].
Qed.

Lemma terminates_call {A} (oracle : W → (A + exn) * W) ev :
  terminates (call oracle ev).
Proof.
  intros st. unfold call. destruct (oracle (world st)) as [[a|e] w]; done.
Qed.

(** *** The relations of the development are preorders *)

#[global] Instance ext_preorder (allowed : event → bool) :
  PreOrder (@ext W allowed).
Proof.
  split.
  - intros st. exists []. by rewrite app_nil_r.
  - intros st1 st2 st3 (t1 & E1 & H1) (t2 & E2 & H2).
    exists (t1 ++ t2). rewrite E2, E1. split; [by rewrite (assoc_L (++))|].
    by rewrite forallb_app, H1, H2.
Qed.

#[global] Instance same_queries_preorder : PreOrder (@same_queries W).
Proof.
  split; [by intros st|].
  intros st1 st2 st3. unfold same_queries. congruence.
Qed.

#[global] Instance results_grow_preorder : PreOrder (@results_grow W).
Proof.
  split; [intros st; unfold results_grow; reflexivity|].
  intros st1 st2 st3. unfold results_grow. intros H1 H2. by etrans.
Qed.

Lemma ext_mono (p q : event → bool) st st' :
  (∀ e, p e = true → q e = true) → ext p st st' → ext q st st'.
Proof.
  intros Hpq (tr & E & H). exists tr. split; [done|].
  apply forallb_forall. intros e He.
  apply Hpq. by eapply forallb_forall in H.
Qed.

Lemma respects_ext_mono {A} (p q : event → bool) (c : M W A) :
  (∀ e, p e = true → q e = true) → respects (ext p) c → respects (ext q) c.
Proof. intros Hpq Hc st. eapply ext_mono; [exact Hpq|apply Hc]. Qed.

Lemma only_mono (ks ks' : list kind) e :
  ks ⊆ ks' → only ks e = true → only ks' e = true.
Proof.
  unfold only. intros Hsub H.
  apply bool_decide_eq_true in H. apply bool_decide_eq_true. by apply Hsub.
Qed.

(** *** The primitives *)

Lemma ext_emit allowed e : allowed e = true → respects (@ext W allowed) (emit e).
Proof.
  intros He st. exists [e]. split; [done|]. simpl. by rewrite He.
Qed.

Lemma ext_call {A} allowed (oracle : W → (A + exn) * W) ev :
  (∀ r, allowed (ev r) = true) → respects (ext allowed) (call oracle ev).
Proof.
  intros He st. unfold call.
  destruct (oracle (world st)) as [r w]. exists [ev r].
  split; [done|]. simpl. by rewrite He.
Qed.

Lemma ext_set_generated_queries allowed l :
  respects (@ext W allowed) (set_generated_queries l).
Proof. intros st. exists []. by rewrite app_nil_r. Qed.

Lemma ext_append_search_result allowed r :
  respects (@ext W allowed) (append_search_result r).
Proof. intros st. exists []. by rewrite app_nil_r. Qed.

Lemma same_queries_emit e : respects (@same_queries W) (emit e).
Proof. by intros st. Qed.

Lemma same_queries_call {A} (oracle : W → (A + exn) * W) ev :
  respects same_queries (call oracle ev).
Proof. intros st. unfold call. by destruct (oracle (world st)). Qed.

Lemma same_queries_append_search_result r :
  respects (@same_queries W) (append_search_result r).
Proof. by intros st. Qed.

Lemma results_grow_emit e : respects (@results_grow W) (emit e).
Proof. intros st. unfold results_grow. reflexivity. Qed.

Lemma results_grow_call {A} (oracle : W → (A + exn) * W) ev :
  respects results_grow (call oracle ev).
Proof.
  intros st. unfold call, results_grow.
  destruct (oracle (world st)). reflexivity.
Qed.

Lemma results_grow_set_generated_queries l :
  respects (@results_grow W) (set_generated_queries l).
Proof. intros st. unfold results_grow. reflexivity. Qed.

Lemma results_grow_append_search_result r :
  respects (@results_grow W) (append_search_result r).
Proof. intros st. unfold results_grow. simpl. by apply prefix_app_r. Qed.
End MonadFacts.

(** *** Postconditions on the events appended *)

Section Post.
Context {W : Type}.

Lemma post_ret {A} (Q : outcome A → list event → Prop) (a : A) :
  Q (Ok a) [] → post Q (mret a : M W A).
Proof. intros H st. exists []. by rewrite app_nil_r. Qed.

Lemma post_bind {A B} (Q1 : outcome A → list event → Prop)
    (Q2 : A → outcome B → list event → Prop)
    (Q : outcome B → list event → Prop) (c : M W A) (k : A → M W B) :
  post Q1 c → (∀ a, post (Q2 a) (k a)) →
  (∀ a t1 r t2, Q1 (Ok a) t1 → Q2 a r t2 → Q r (t1 ++ t2)) →
  (∀ e t1, Q1 (Raise e) t1 → Q (Raise e) t1) →
  (∀ t1, Q1 Diverge t1 → Q Diverge t1) →
  post Q (c ≫= k).
Proof.
  intros Hc Hk Hok Hraise Hdiv st. rewrite bind_run.
  destruct (Hc st) as (t1 & E1 & H1).
  destruct (c st) as [[a|e|] st1]; simpl in *.
  - destruct (Hk a st1) as (t2 & E2 & H2).
    exists (t1 ++ t2). rewrite E2, E1. split; [by rewrite (assoc_L (++))|].
    by eapply Hok.
  - exists t1. split; [done|]. by apply Hraise.
  - exists t1. split; [done|]. by apply Hdiv.
Qed.

Lemma post_weaken {A} (Q Q' : outcome A → list event → Prop) (c : M W A) :
  (∀ r t, Q r t → Q' r t) → post Q c → post Q' c.
Proof.
  intros HQ Hc st. destruct (Hc st) as (t & E & H). exists t. auto.
Qed.

Lemma post_of_ext {A} (ks : list kind) (c : M W A) :
  respects (ext (only ks)) c → post (λ _ t, all_of ks t) c.
Proof. intros Hc st. exact (Hc st). Qed.

Lemma all_of_app ks (a b : list event) :
  all_of ks (a ++ b) ↔ all_of ks a ∧ all_of ks b.
Proof. unfold all_of. rewrite forallb_app. apply andb_true_iff. Qed.

Lemma all_of_mono ks ks' (tr : list event) :
  ks ⊆ ks' → all_of ks tr → all_of ks' tr.
Proof.
  unfold all_of. intros Hsub H. apply forallb_forall. intros e He.
  eapply only_mono; [exact Hsub|]. by eapply forallb_forall in H.
Qed.

(** A sequence of a quiet prefix and a rest: the kinds of the prefix
    do not matter to [Q]. *)
Lemma post_bind_prefix {A B} (ks : list kind)
    (Q : outcome B → list event → Prop) (c : M W A) (k : A → M W B) :
  respects (ext (only ks)) c → (∀ a, post Q (k a)) →
  (∀ r t1 t2, all_of ks t1 → Q r t2 → Q r (t1 ++ t2)) →
  (∀ e t1, all_of ks t1 → Q (Raise e) t1) →
  (∀ t1, all_of ks t1 → Q Diverge t1) →
  post Q (c ≫= k).
Proof.
  intros Hc Hk Hpre Hraise Hdiv.
  apply (post_bind (λ _ t, all_of ks t) (λ _, Q)); auto.
Qed.
End Post.

(** ** What the procedures of the coordinator preserve *)

Ltac respects_go Hemit Hcall :=
  repeat first
    [ assumption
    | solve [auto 3]
    | apply respects_ret
    | apply respects_diverge
    | apply Hemit; simpl; assumption
    | apply Hcall; intros ?; simpl; assumption
    | apply respects_bind
    | apply respects_for_each
    | apply respects_try_except
    | match goal with
      | |- ∀ _, _ => intros ?
      | |- respects _ (if ?b then _ else _) => destruct b
      | |- respects _ (match ?x with (_, _) => _ end) => destruct x
      end ].

(** A relation that the primitives preserve, for the events of the
    kinds [ks], is preserved by the three procedures that call an agent
    on the accumulated results or add to them. *)
Section Atoms.
Context {W : Type} (cfg : config) (ad : adapters W).
Context (R : relation (state W)) `{!PreOrder R} (ks : list kind).
Context (Hemit : ∀ e, kind_of e ∈ ks → respects R (emit e)).
Context (Hcall : ∀ A (oracle : W → (A + exn) * W) ev,
            (∀ r, kind_of (ev r) ∈ ks) → respects R (call oracle ev)).
Context (Happend : ∀ r, respects R (append_search_result r)).

Lemma _log_respects msg : K_log ∈ ks → respects R (_log cfg msg).
Proof. intros. unfold _log. respects_go Hemit Hcall. Qed.

Lemma _thought_respects msg : K_thought ∈ ks → respects R (_thought cfg msg).
Proof. intros. unfold _thought. respects_go Hemit Hcall. Qed.

Lemma _section_respects title : K_log ∈ ks → respects R (_section cfg title).
Proof. intros. unfold _section. by apply _log_respects. Qed.

Lemma summarize_pick_respects x :
  K_log ∈ ks → K_search_agent ∈ ks → respects R (summarize_pick cfg ad x).
Proof.
  intros. unfold summarize_pick, run_search_agent.
  destruct x as [[score title] url].
  pose proof _log_respects. respects_go Hemit Hcall.
Qed.

Lemma _findings_text_respects : respects R (_findings_text cfg).
Proof.
  unfold _findings_text.
  apply respects_bind; [done|by apply respects_read|intros ?].
  respects_go Hemit Hcall.
Qed.

Lemma _follow_up_decision_respects :
  K_log ∈ ks → K_follow_up_agent ∈ ks →
  respects R (_follow_up_decision cfg ad).
Proof.
  intros. unfold _follow_up_decision, run_follow_up_decision_agent.
  pose proof _log_respects. pose proof _findings_text_respects.
  respects_go Hemit Hcall.
Qed.

Lemma _synthesize_respects :
  K_synthesis_agent ∈ ks → respects R (_synthesize cfg ad).
Proof.
  intros. unfold _synthesize, run_synthesis_agent.
  apply respects_bind; [done|by apply respects_read|intros ?].
  respects_go Hemit Hcall.
Qed.
End Atoms.

(** A relation that these three procedures preserve, and the
    primitives for the callbacks, the search, the query agent and the
    round marker, is preserved by the whole workflow. *)
Section Procedures.
Context {W : Type} (cfg : config) (ad : adapters W).
Context (R : relation (state W)) `{!PreOrder R} (ks : list kind).
Context (Hemit : ∀ e, kind_of e ∈ ks → respects R (emit e)).
Context (Hcall : ∀ A (oracle : W → (A + exn) * W) ev,
            (∀ r, kind_of (ev r) ∈ ks) → respects R (call oracle ev)).
Context (Hsummarize : ∀ x, respects R (summarize_pick cfg ad x)).
Context (Hfollow : respects R (_follow_up_decision cfg ad)).
Context (Hsynthesize : respects R (_synthesize cfg ad)).
Context (Hlog : K_log ∈ ks) (Hthought : K_thought ∈ ks) (Hround : K_round ∈ ks).
Context (Hddg : K_ddg_text ∈ ks) (Hquery : K_query_agent ∈ ks).

Local Lemma log_ok msg : respects R (_log cfg msg).
Proof. unfold _log. respects_go Hemit Hcall. Qed.

Local Lemma section_ok title : respects R (_section cfg title).
Proof. unfold _section. apply log_ok. Qed.

Local Lemma thought_ok msg : respects R (_thought cfg msg).
Proof. unfold _thought. respects_go Hemit Hcall. Qed.

Lemma _ddg_search_respects q : respects R (_ddg_search cfg ad q).
Proof. unfold _ddg_search. respects_go Hemit Hcall. Qed.

Lemma score_loop_respects q raw ranked :
  respects R (score_loop cfg q raw ranked).
Proof.
  revert ranked. induction raw as [|r raw IH]; intros ranked; simpl.
  - respects_go Hemit Hcall.
  - apply respects_bind; [done|apply respects_pure; done|intros c].
    apply respects_bind; [done|by apply log_ok|intros _]. apply IH.
Qed.

Lemma research_query_respects q : respects R (research_query cfg ad q).
Proof.
  unfold research_query.
  pose proof log_ok. pose proof _ddg_search_respects.
  pose proof score_loop_respects. respects_go Hemit Hcall.
Qed.

Lemma _research_queries_respects queries :
  respects R (_research_queries cfg ad queries).
Proof.
  unfold _research_queries.
  pose proof research_query_respects. respects_go Hemit Hcall.
Qed.

Lemma synthesis_step_respects : respects R (synthesis_step cfg ad).
Proof.
  unfold synthesis_step.
  pose proof log_ok. pose proof section_ok. respects_go Hemit Hcall.
Qed.

Lemma follow_up_rounds_respects fuel round_no :
  respects R (follow_up_rounds cfg ad fuel round_no).
Proof.
  revert round_no.
  pose proof log_ok. pose proof section_ok.
  pose proof _research_queries_respects.
  induction fuel as [|fuel IH]; intros round_no; simpl;
    respects_go Hemit Hcall.
Qed.

Lemma first_round_respects query_resp :
  respects R (first_round cfg ad query_resp).
Proof.
  unfold first_round.
  pose proof log_ok. pose proof section_ok.
  pose proof thought_ok. pose proof _research_queries_respects.
  repeat first
    [ apply (respects_read R generated_queries)
    | progress respects_go Hemit Hcall ].
Qed.

Lemma first_pass_respects :
  (∀ l, respects R (set_generated_queries l)) →
  respects R (first_pass cfg ad).
Proof.
  intros. unfold first_pass, run_query_agent.
  pose proof section_ok. pose proof first_round_respects.
  respects_go Hemit Hcall.
Qed.

Lemma research_respects :
  (∀ l, respects R (set_generated_queries l)) →
  respects R (research cfg ad).
Proof.
  intros. unfold research.
  pose proof first_pass_respects. pose proof follow_up_rounds_respects.
  pose proof synthesis_step_respects. respects_go Hemit Hcall.
Qed.
End Procedures.

Ltac kind_in := apply (bool_decide_unpack _); exact I.

Lemma kind_in_all (k : kind) : k ∈ all_kinds.
Proof. destruct k; kind_in. Qed.

(** An inclusion between two lists of kinds. *)
Ltac kinds_sub :=
  let k := fresh "k" in
  let Hk := fresh "Hk" in
  intros k Hk; destruct k; try kind_in;
  exfalso; apply (bool_decide_pack _) in Hk; exact Hk.

(** *** [generated_queries] is left alone, [search_results] only grows *)

Section Frame.
Context {W : Type} (cfg : config) (ad : adapters W).

Ltac atoms_same :=
  first [ apply _ | apply kind_in_all
        | by intros; apply same_queries_emit
        | by intros; apply same_queries_call
        | by intros; apply same_queries_append_search_result ].

Lemma summarize_pick_same_queries x :
  respects same_queries (summarize_pick cfg ad x).
Proof. apply summarize_pick_respects with (ks := all_kinds); atoms_same. Qed.

Lemma _follow_up_decision_same_queries :
  respects same_queries (_follow_up_decision cfg ad).
Proof.
  apply _follow_up_decision_respects with (ks := all_kinds); atoms_same.
Qed.

Lemma _synthesize_same_queries : respects same_queries (_synthesize cfg ad).
Proof. apply _synthesize_respects with (ks := all_kinds); atoms_same. Qed.

Ltac frame_same :=
  first [ atoms_same
        | apply summarize_pick_same_queries
        | apply _follow_up_decision_same_queries
        | apply _synthesize_same_queries ].

Lemma _research_queries_same_queries queries :
  respects same_queries (_research_queries cfg ad queries).
Proof. apply _research_queries_respects with (ks := all_kinds); frame_same. Qed.

Lemma follow_up_rounds_same_queries fuel round_no :
  respects same_queries (follow_up_rounds cfg ad fuel round_no).
Proof. apply follow_up_rounds_respects with (ks := all_kinds); frame_same. Qed.

Lemma synthesis_step_same_queries :
  respects same_queries (synthesis_step cfg ad).
Proof. apply synthesis_step_respects with (ks := all_kinds); frame_same. Qed.

Lemma first_round_same_queries query_resp :
  respects same_queries (first_round cfg ad query_resp).
Proof. apply first_round_respects with (ks := all_kinds); frame_same. Qed.

Ltac atoms_grow :=
  first [ apply _ | apply kind_in_all
        | by intros; apply results_grow_emit
        | by intros; apply results_grow_call
        | by intros; apply results_grow_append_search_result
        | by intros; apply results_grow_set_generated_queries ].

Lemma summarize_pick_results_grow x :
  respects results_grow (summarize_pick cfg ad x).
Proof. apply summarize_pick_respects with (ks := all_kinds); atoms_grow. Qed.

Lemma _follow_up_decision_results_grow :
  respects results_grow (_follow_up_decision cfg ad).
Proof.
  apply _follow_up_decision_respects with (ks := all_kinds); atoms_grow.
Qed.

Lemma _synthesize_results_grow : respects results_grow (_synthesize cfg ad).
Proof. apply _synthesize_respects with (ks := all_kinds); atoms_grow. Qed.

Lemma research_results_grow : respects results_grow (research cfg ad).
Proof.
  apply research_respects with (ks := all_kinds);
    first [ atoms_grow
          | apply summarize_pick_results_grow
          | apply _follow_up_decision_results_grow
          | apply _synthesize_results_grow ].
Qed.
End Frame.

(** *** The callbacks *)

Section Callbacks.
Context {W : Type} (cfg : config) (ad : adapters W).

Lemma _log_run msg (st : state W) :
  ∃ st', _log cfg msg st = (Ok tt, st')
         ∧ same_but_trace st st' ∧ ext (only [K_log]) st st'.
Proof.
  unfold _log. destruct (on_log cfg).
  - eexists. split; [reflexivity|]. split; [done|].
    by exists [Ev_log msg].
  - exists st. split; [done|]. split; [done|]. reflexivity.
Qed.

Lemma _section_run title (st : state W) :
  ∃ st', _section cfg title st = (Ok tt, st')
         ∧ same_but_trace st st' ∧ ext (only [K_log]) st st'.
Proof. apply _log_run. Qed.
End Callbacks.

(** ** C9: the generated queries *)

Section GeneratedQueries.
Context {W : Type} (cfg : config) (ad : adapters W).

Lemma first_pass_queries (st : state W) :
  generated_queries (first_pass cfg ad st).2
  = match (query_agent ad (query cfg) (world st)).1 with
    | inl query_resp => QueryResponse.queries query_resp
    | inr _ => generated_queries st
    end.
Proof.
  unfold first_pass. rewrite bind_run.
  destruct (_section_run cfg "GENERATE QUERIES" st)
    as (st1 & -> & (_ & Hq & Hw) & _).
  rewrite bind_run. unfold run_query_agent, call. rewrite Hw.
  destruct (query_agent ad (query cfg) (world st)) as [[qr|e] w']; simpl;
    [|done].
  rewrite bind_run. simpl.
  apply (first_round_same_queries cfg ad qr).
Qed.

Lemma research_after_first_pass (st : state W) :
  same_queries (first_pass cfg ad st).2 (research cfg ad st).2.
Proof.
  unfold research. rewrite bind_run.
  destruct (first_pass cfg ad st) as [[round_no|e|] st1]; simpl;
    [|reflexivity..].
  apply (respects_bind same_queries).
  - apply follow_up_rounds_same_queries.
  - intros _. apply synthesis_step_same_queries.
Qed.
End GeneratedQueries.

(** C9: [generated_queries] is assigned once, to the batch the query
    agent returned (and not at all when that call raised); the rounds,
    the follow-up evaluation and the synthesis leave it unchanged, and
    [search_results] only grows. *)
Theorem generated_queries_frame {W} (cfg : config) (ad : adapters W) :
  (∀ st : state W,
     generated_queries (research cfg ad st).2
     = match (query_agent ad (query cfg) (world st)).1 with
       | inl query_resp => QueryResponse.queries query_resp
       | inr _ => generated_queries st
       end)
  ∧ (∀ query_resp, respects same_queries (first_round cfg ad query_resp))
  ∧ (∀ queries, respects same_queries (_research_queries cfg ad queries))
  ∧ respects same_queries (_follow_up_decision cfg ad)
  ∧ (∀ fuel round_no,
       respects same_queries (follow_up_rounds cfg ad fuel round_no))
  ∧ respects same_queries (synthesis_step cfg ad)
  ∧ respects results_grow (research cfg ad).
Proof.
  split.
  { intros st. rewrite <- first_pass_queries.
    apply research_after_first_pass. }
  split; [apply first_round_same_queries|].
  split; [apply _research_queries_same_queries|].
  split; [apply _follow_up_decision_same_queries|].
  split; [apply follow_up_rounds_same_queries|].
  split; [apply synthesis_step_same_queries|].
  apply research_results_grow.
Qed.

(** ** The model of [research] never runs out of fuel *)

Section Termination.
Context {W : Type} (cfg : config) (ad : adapters W).

Ltac term_go :=
  repeat first
    [ assumption
    | solve [auto 3]
    | apply terminates_ret
    | apply terminates_call
    | apply terminates_bind
    | apply terminates_for_each
    | apply terminates_try_except
    | match goal with
      | |- ∀ _, _ => intros ?
      | |- terminates (if ?b then _ else _) => destruct b
      | |- terminates (match ?x with (_, _) => _ end) => destruct x
      end ].

Lemma terminates_step {A} (f : state W → outcome A) :
  (∀ st, f st ≠ Diverge) → terminates (λ st, (f st, st)).
Proof. intros H st. apply H. Qed.

Lemma emit_terminates e : terminates (@emit W e).
Proof. by intros st. Qed.

Lemma _log_terminates msg : terminates (@_log W cfg msg).
Proof. unfold _log. pose proof emit_terminates. term_go. Qed.

Lemma _thought_terminates msg : terminates (@_thought W cfg msg).
Proof. unfold _thought. pose proof emit_terminates. term_go. Qed.

Lemma _section_terminates title : terminates (@_section W cfg title).
Proof. apply _log_terminates. Qed.

Lemma score_loop_terminates q raw ranked :
  terminates (@score_loop W cfg q raw ranked).
Proof.
  revert ranked. induction raw as [|r raw IH]; intros ranked; simpl.
  - apply terminates_ret.
  - apply terminates_bind.
    + intros st. simpl. by rewrite score_hit_eq.
    + intros c. apply terminates_bind; [apply _log_terminates|auto].
Qed.

Lemma summarize_pick_terminates x : terminates (summarize_pick cfg ad x).
Proof.
  unfold summarize_pick, run_search_agent. destruct x as [[score title] url].
  pose proof _log_terminates. term_go; try by intros st.
Qed.

Lemma _research_queries_terminates queries :
  terminates (_research_queries cfg ad queries).
Proof.
  unfold _research_queries, research_query, _ddg_search.
  pose proof _log_terminates. pose proof emit_terminates.
  pose proof score_loop_terminates. pose proof summarize_pick_terminates.
  term_go.
Qed.

Lemma _follow_up_decision_terminates :
  terminates (_follow_up_decision cfg ad).
Proof.
  unfold _follow_up_decision, run_follow_up_decision_agent, _findings_text.
  pose proof _log_terminates. term_go; try by intros st.
Qed.

Lemma synthesis_step_terminates : terminates (synthesis_step cfg ad).
Proof.
  unfold synthesis_step, _synthesize, run_synthesis_agent.
  pose proof _log_terminates. pose proof _section_terminates.
  term_go; try by intros st.
Qed.

(** Enough fuel: the loop starts at most [max_rounds - round_no]
    rounds. *)
Lemma follow_up_rounds_terminates fuel round_no :
  (Z.to_nat (max_rounds cfg - round_no) ≤ fuel)%nat →
  terminates (follow_up_rounds cfg ad fuel round_no).
Proof.
  revert round_no.
  pose proof _log_terminates. pose proof _section_terminates.
  pose proof _follow_up_decision_terminates.
  pose proof _research_queries_terminates.
  induction fuel as [|fuel IH]; intros round_no Hfuel; simpl.
  - destruct (Z.ltb_spec round_no (max_rounds cfg)); [lia|].
    apply terminates_ret.
  - destruct (Z.ltb_spec round_no (max_rounds cfg)); [|apply terminates_ret].
    assert (terminates (follow_up_rounds cfg ad fuel (round_no + 1)))
      by (apply IH; lia).
    term_go.
Qed.

Lemma first_pass_terminates : terminates (first_pass cfg ad).
Proof.
  unfold first_pass, first_round, run_query_agent.
  pose proof _log_terminates. pose proof _section_terminates.
  pose proof _thought_terminates. pose proof _research_queries_terminates.
  term_go; try by intros st.
Qed.

Lemma first_pass_round_no (st : state W) round_no st' :
  first_pass cfg ad st = (Ok round_no, st') → round_no = 1.
Proof.
  unfold first_pass, first_round.
  repeat (rewrite bind_run;
          match goal with
          | |- context [match ?c with _ => _ end] =>
              destruct c as [[?|?|] ?]; try done
          end).
  intros [= <- _]. reflexivity.
Qed.

(** [research] returns or raises. *)
Lemma research_terminates : terminates (research cfg ad).
Proof.
  intros st. unfold research. rewrite bind_run.
  pose proof (first_pass_terminates st) as H1.
  destruct (first_pass cfg ad st) as [[round_no|e|] st1] eqn:E; [|done..].
  apply terminates_bind.
  - by apply follow_up_rounds_terminates.
  - intros _. apply synthesis_step_terminates.
Qed.
End Termination.

(** ** Counting events *)

Lemma count_app p (a b : list event) : count p (a ++ b) = count p a + count p b.
Proof. unfold count, len. rewrite List.filter_app, length_app. lia. Qed.

Lemma count_nonneg p (tr : list event) : 0 ≤ count p tr.
Proof. unfold count, len. lia. Qed.

Lemma count_none p allowed (tr : list event) :
  (∀ e, allowed e = true → p e = false) →
  forallb allowed tr = true → count p tr = 0.
Proof.
  intros Hp. induction tr as [|e tr IH]; [done|].
  simpl. intros [He Htr]%andb_true_iff.
  unfold count in *. simpl. rewrite (Hp e He). by apply IH.
Qed.

Lemma ext_count {W} p allowed (st st' : state W) :
  (∀ e, allowed e = true → p e = false) →
  ext allowed st st' → count p (trace st') = count p (trace st).
Proof.
  intros Hp (tr & -> & Htr).
  rewrite count_app, (count_none p allowed tr Hp Htr). lia.
Qed.

Lemma ext_only_mono {W} (ks ks' : list kind) (st st' : state W) :
  ks ⊆ ks' → ext (only ks) st st' → ext (only ks') st st'.
Proof. intros Hsub. apply ext_mono. intros e. by apply only_mono. Qed.

Lemma select_picks_nil k : select_picks k [] = [].
Proof.
  unfold select_picks, slice_to. simpl. rewrite filter_nil.
  destruct (0 <=? k); by rewrite take_nil, andb_false_r.
Qed.

(** ** C6: a failing search *)

Section SearchFailure.
Context {W : Type} (cfg : config) (ad : adapters W).

Lemma _ddg_search_ok q (st : state W) :
  ∃ hits, (_ddg_search cfg ad q st).1 = Ok hits.
Proof.
  unfold _ddg_search, try_except, call.
  destruct (ddg_text _ _ _ _ _ _ _) as [[hits|e] w']; simpl; eauto.
Qed.

Lemma _ddg_search_failed q (st : state W) e w' :
  ddg_text ad q (ddg_region cfg) (ddg_safesearch cfg) (ddg_timelimit cfg)
    (results_per_query cfg) (world st) = (inr e, w') →
  _ddg_search cfg ad q st
  = (Ok [],
     {| search_results := search_results st;
        generated_queries := generated_queries st;
        world := w';
        trace := trace st ++ [Ev_ddg_text q (inr e)] |}).
Proof. intros H. unfold _ddg_search, try_except, call. by rewrite H. Qed.

Lemma research_query_failed q (st : state W) e w' :
  ddg_text ad q (ddg_region cfg) (ddg_safesearch cfg) (ddg_timelimit cfg)
    (results_per_query cfg) (world st) = (inr e, w') →
  ∃ st', research_query cfg ad q st = (Ok tt, st')
         ∧ search_results st' = search_results st
         ∧ ext (only [K_log; K_ddg_text]) st st'.
Proof.
  intros H. unfold research_query. rewrite bind_run.
  destruct (_log_run cfg ("Searching for: " +:+ q) st)
    as (st1 & -> & (Hr1 & Hq1 & Hw1) & Hext1).
  rewrite bind_run. rewrite <- Hw1 in H.
  rewrite (_ddg_search_failed q st1 e w' H).
  rewrite bind_run. simpl score_loop. unfold mret at 1, M_ret at 1.
  rewrite select_picks_nil.
  rewrite bind_run.
  match goal with
  | |- context [_log cfg ?m ?s] =>
      destruct (_log_run cfg m s) as (st3 & -> & (Hr3 & Hq3 & Hw3) & Hext3)
  end.
  simpl. exists st3. split; [done|]. split; [by rewrite Hr3|].
  etrans; [eapply ext_only_mono; [|exact Hext1]; kinds_sub|].
  etrans; [|eapply ext_only_mono; [|exact Hext3]; kinds_sub].
  exists [Ev_ddg_text q (inr e)]. by split.
Qed.
End SearchFailure.

(** C6: when the search provider raises on a query, the search step
    returns the empty list, the query yields no candidate, no summary
    and no result, the round goes on with the remaining queries, and
    the search step never raises, whatever the provider does. *)
Theorem search_failure_resilience {W} (cfg : config) (ad : adapters W)
    (q : string) (queries : list string) (st : state W) (e : exn) (w' : W) :
  ddg_text ad q (ddg_region cfg) (ddg_safesearch cfg) (ddg_timelimit cfg)
    (results_per_query cfg) (world st) = (inr e, w') →
  (_ddg_search cfg ad q st).1 = Ok []
  ∧ pick_candidates (picks_per_query cfg) q [] = Ok []
  ∧ (research_query cfg ad q st).1 = Ok tt
  ∧ search_results (research_query cfg ad q st).2 = search_results st
  ∧ count is_search_agent (trace (research_query cfg ad q st).2)
    = count is_search_agent (trace st)
  ∧ for_each (q :: queries) (research_query cfg ad) st
    = for_each queries (research_query cfg ad) (research_query cfg ad q st).2
  ∧ (∀ q' (st' : state W), ∃ hits, (_ddg_search cfg ad q' st').1 = Ok hits).
Proof.
  intros H.
  split; [by rewrite (_ddg_search_failed cfg ad q st e w' H)|].
  split; [unfold pick_candidates; simpl; by rewrite select_picks_nil|].
  destruct (research_query_failed cfg ad q st e w' H) as (st' & E & Hr & Hext).
  rewrite for_each_cons, bind_run, E. simpl.
  split; [done|]. split; [done|].
  split; [|split; [done|apply _ddg_search_ok]].
  eapply ext_count; [|exact Hext]. by intros []; vm_compute.
Qed.

(** Witness of C6: the provider raises on the only query. *)
Lemma search_failure_resilience_witness :
  let cfg := example_config "python" 3 in
  let st := init_state () in
  (_ddg_search cfg failing_search_adapters "python" st).1 = Ok []
  ∧ pick_candidates (picks_per_query cfg) "python" [] = Ok []
  ∧ (research_query cfg failing_search_adapters "python" st).1 = Ok tt
  ∧ search_results (research_query cfg failing_search_adapters "python" st).2
    = search_results st
  ∧ count is_search_agent
      (trace (research_query cfg failing_search_adapters "python" st).2)
    = count is_search_agent (trace st)
  ∧ for_each ("python" :: ["rocq"]) (research_query cfg failing_search_adapters) st
    = for_each ["rocq"] (research_query cfg failing_search_adapters)
        (research_query cfg failing_search_adapters "python" st).2
  ∧ (∀ q' (st' : state ()),
       ∃ hits, (_ddg_search cfg failing_search_adapters q' st').1 = Ok hits).
Proof.
  exact (search_failure_resilience (example_config "python" 3)
           failing_search_adapters "python" ["rocq"] (init_state ())
           (PyExc "TimeoutException" "timed out") () eq_refl).
Defined.

(** ** The events each procedure appends *)

Section Ext.
Context {W : Type} (cfg : config) (ad : adapters W) (ks : list kind).

Lemma emit_ext e : kind_of e ∈ ks → respects (@ext W (only ks)) (emit e).
Proof. intros H. apply ext_emit. by apply bool_decide_eq_true. Qed.

Lemma call_ext {A} (oracle : W → (A + exn) * W) ev :
  (∀ r, kind_of (ev r) ∈ ks) → respects (ext (only ks)) (call oracle ev).
Proof. intros H. apply ext_call. intros r. by apply bool_decide_eq_true. Qed.

Ltac atoms_ext :=
  first [ apply _ | assumption
        | by intros; apply emit_ext
        | by intros; apply call_ext
        | by intros; apply ext_append_search_result
        | by intros; apply ext_set_generated_queries ].

Lemma _log_ext msg : K_log ∈ ks → respects (ext (only ks)) (@_log W cfg msg).
Proof. intros. apply _log_respects with (ks := ks); atoms_ext. Qed.

Lemma _section_ext title :
  K_log ∈ ks → respects (ext (only ks)) (@_section W cfg title).
Proof. intros. by apply _log_ext. Qed.

Lemma _thought_ext msg :
  K_thought ∈ ks → respects (ext (only ks)) (@_thought W cfg msg).
Proof. intros. apply _thought_respects with (ks := ks); atoms_ext. Qed.

Lemma summarize_pick_ext x :
  K_log ∈ ks → K_search_agent ∈ ks →
  respects (ext (only ks)) (summarize_pick cfg ad x).
Proof. intros. apply summarize_pick_respects with (ks := ks); atoms_ext. Qed.

Lemma _follow_up_decision_ext :
  K_log ∈ ks → K_follow_up_agent ∈ ks →
  respects (ext (only ks)) (_follow_up_decision cfg ad).
Proof. intros. apply _follow_up_decision_respects with (ks := ks); atoms_ext. Qed.

Lemma _synthesize_ext :
  K_synthesis_agent ∈ ks → respects (ext (only ks)) (_synthesize cfg ad).
Proof. intros. apply _synthesize_respects with (ks := ks); atoms_ext. Qed.

Lemma research_query_ext q :
  K_log ∈ ks → K_ddg_text ∈ ks → K_search_agent ∈ ks →
  respects (ext (only ks)) (research_query cfg ad q).
Proof.
  intros. apply research_query_respects with (ks := ks);
    first [atoms_ext | by intros; apply summarize_pick_ext].
Qed.

Lemma synthesis_step_ext :
  K_log ∈ ks → K_synthesis_agent ∈ ks →
  respects (ext (only ks)) (synthesis_step cfg ad).
Proof.
  intros. apply synthesis_step_respects with (ks := ks);
    first [atoms_ext | by apply _synthesize_ext].
Qed.
End Ext.

(** ** C1: the round cap *)

Lemma all_of_count p ks (tr : list event) :
  (∀ e, only ks e = true → p e = false) → all_of ks tr → count p tr = 0.
Proof. intros Hp H. by apply (count_none p (only ks)). Qed.

Lemma rounds_in_app (a b : list event) :
  rounds_in (a ++ b) = rounds_in a + rounds_in b.
Proof. apply count_app. Qed.

Lemma rounds_in_nonneg (tr : list event) : 0 ≤ rounds_in tr.
Proof. apply count_nonneg. Qed.

Lemma cap_ok_app k (a b : list event) :
  cap_ok k (a ++ b) ↔ cap_ok k a ∧ cap_ok (k - rounds_in a) b.
Proof.
  revert k. induction a as [|e a IH]; intros k; simpl.
  - unfold rounds_in, count, len. simpl. rewrite Z.sub_0_r. tauto.
  - unfold rounds_in, count in *.
    destruct e; simpl; rewrite ?IH; unfold len; simpl length;
      rewrite ?Nat2Z.inj_succ;
      try (replace (k - Z.succ (Z.of_nat (length (List.filter is_round a))))
             with (k - 1 - Z.of_nat (length (List.filter is_round a))) by lia);
      tauto.
Qed.

(** Events other than rounds and follow-up calls never break the cap. *)
Lemma cap_ok_quiet ks k (tr : list event) :
  K_round ∉ ks → K_follow_up_agent ∉ ks → all_of ks tr → cap_ok k tr.
Proof.
  intros Hr Hf. unfold all_of. induction tr as [|e tr IH]; [done|].
  simpl. intros [He Htr]%andb_true_iff.
  apply bool_decide_eq_true in He.
  destruct e; simpl in *; auto; done.
Qed.

(** Follow-up calls are fine while a round may still start. *)
Lemma cap_ok_follow_up ks k (tr : list event) :
  K_round ∉ ks → 0 < k → all_of ks tr → cap_ok k tr.
Proof.
  intros Hr Hk. unfold all_of. induction tr as [|e tr IH]; [done|].
  simpl. intros [He Htr]%andb_true_iff.
  apply bool_decide_eq_true in He.
  destruct e; simpl in *; auto; done.
Qed.

Lemma all_of_no_rounds ks (tr : list event) :
  K_round ∉ ks → all_of ks tr → rounds_in tr = 0.
Proof.
  intros Hr. apply all_of_count. intros e He.
  apply bool_decide_eq_true in He. by destruct e.
Qed.

Ltac not_in := let H := fresh in intros H; apply (bool_decide_pack _) in H; exact H.

Lemma capped_nil k : capped k [].
Proof. split; [done|]. unfold rounds_in, count, len. simpl. lia. Qed.

Lemma capped_quiet ks k (t : list event) :
  K_round ∉ ks → 0 < k → all_of ks t → capped k t.
Proof.
  intros Hr Hk Ht. split; [by eapply cap_ok_follow_up|].
  rewrite (all_of_no_rounds ks t Hr Ht). lia.
Qed.

Lemma capped_prefix ks k (t1 t2 : list event) :
  K_round ∉ ks → 0 < k → all_of ks t1 → capped k t2 → capped k (t1 ++ t2).
Proof.
  intros Hr Hk Ht [Hc Hn].
  pose proof (all_of_no_rounds ks t1 Hr Ht) as H0.
  split.
  - apply cap_ok_app. split; [by eapply cap_ok_follow_up|].
    by rewrite H0, Z.sub_0_r.
  - rewrite rounds_in_app, H0. lia.
Qed.

Lemma capped_suffix ks k (t1 t2 : list event) :
  K_round ∉ ks → K_follow_up_agent ∉ ks →
  capped k t1 → all_of ks t2 → capped k (t1 ++ t2).
Proof.
  intros Hr Hf [Hc Hn] Ht.
  pose proof (all_of_no_rounds ks t2 Hr Ht) as H0.
  split.
  - apply cap_ok_app. split; [done|]. by eapply cap_ok_quiet.
  - rewrite rounds_in_app, H0. lia.
Qed.

Lemma one_round_rounds (t : list event) : one_round t → rounds_in t = 1.
Proof.
  intros (qs & t' & -> & Ht).
  change (Ev_round qs :: t') with ([Ev_round qs] ++ t').
  rewrite rounds_in_app,
    (all_of_no_rounds [K_log; K_ddg_text; K_search_agent] t' ltac:(not_in) Ht).
  done.
Qed.

Lemma one_round_cap_ok k (t : list event) : one_round t → cap_ok k t.
Proof.
  intros (qs & t' & -> & Ht). simpl.
  eapply cap_ok_quiet; [| |exact Ht]; not_in.
Qed.

Lemma capped_one_round k (t : list event) : 0 < k → one_round t → capped k t.
Proof.
  intros Hk Ht. split; [by apply one_round_cap_ok|].
  rewrite (one_round_rounds t Ht). lia.
Qed.

Lemma capped_round k (t1 t2 : list event) :
  0 < k → one_round t1 → capped (k - 1) t2 → capped k (t1 ++ t2).
Proof.
  intros Hk Ht [Hc Hn]. pose proof (one_round_rounds t1 Ht) as H1. split.
  - apply cap_ok_app. split; [by apply one_round_cap_ok|]. by rewrite H1.
  - rewrite rounds_in_app, H1. lia.
Qed.

Section RoundCap.
Context {W : Type} (cfg : config) (ad : adapters W).

Lemma _research_queries_post queries :
  post (λ _ t, one_round t) (_research_queries cfg ad queries).
Proof.
  unfold _research_queries.
  apply (post_bind (λ _ t, t = [Ev_round queries])
           (λ _ _ t, all_of [K_log; K_ddg_text; K_search_agent] t)).
  - intros st. by exists [Ev_round queries].
  - intros _. apply post_of_ext.
    apply respects_for_each; [apply _|]. intros q.
    apply research_query_ext; kind_in.
  - intros ? t1 r t2 -> Ht. by exists queries, t2.
  - intros e t1 ->. by exists queries, [].
  - intros t1 ->. by exists queries, [].
Qed.

Lemma follow_up_rounds_capped fuel round_no :
  post (λ _ t, capped (max_rounds cfg - round_no) t)
    (follow_up_rounds cfg ad fuel round_no).
Proof.
  revert round_no. induction fuel as [|fuel IH]; intros round_no; simpl;
    destruct (Z.ltb_spec round_no (max_rounds cfg)) as [Hlt|Hge];
    try (apply post_ret; apply capped_nil).
  { intros st. exists []. split; [by rewrite app_nil_r|apply capped_nil]. }
  assert (0 < max_rounds cfg - round_no) as Hk by lia.
  assert (K_round ∉ [K_log; K_follow_up_agent]) as Hnr by not_in.
  assert (∀ B (c : M W B),
            respects (ext (only [K_log; K_follow_up_agent])) c →
            post (λ _ t, capped (max_rounds cfg - round_no) t) c) as Hquiet.
  { intros B c Hc. eapply post_weaken; [|apply post_of_ext, Hc].
    intros ? t. by apply capped_quiet. }
  assert (∀ (A B : Type) (c : M W A) (k : A → M W B),
            respects (ext (only [K_log; K_follow_up_agent])) c →
            (∀ a, post (λ _ t, capped (max_rounds cfg - round_no) t) (k a)) →
            post (λ _ t, capped (max_rounds cfg - round_no) t) (c ≫= k))
    as Hstep.
  { intros A B c k Hc Hk'.
    apply (post_bind_prefix [K_log; K_follow_up_agent]); auto.
    - intros ? t1 t2. by apply capped_prefix.
    - intros ? t1. by apply capped_quiet.
    - intros t1. by apply capped_quiet. }
  apply Hstep; [apply _section_ext; kind_in|intros _].
  apply Hstep; [apply _follow_up_decision_ext; kind_in|intros decision].
  apply Hstep; [apply _log_ext; kind_in|intros _].
  apply Hstep; [apply _log_ext; kind_in|intros _].
  destruct (negb _).
  - apply Hquiet. apply _log_ext; kind_in.
  - apply Hstep; [apply _section_ext; kind_in|intros _].
    apply (post_bind (λ _ t, one_round t)
             (λ _ _ t, capped (max_rounds cfg - (round_no + 1)) t)).
    + apply _research_queries_post.
    + intros _. apply IH.
    + intros ? t1 ? t2 H1 H2. apply capped_round; [done..|].
      by replace (max_rounds cfg - round_no - 1)
        with (max_rounds cfg - (round_no + 1)) by lia.
    + intros e t1. by apply capped_one_round.
    + intros t1. by apply capped_one_round.
Qed.

(** Past the cap the loop does nothing: synthesis comes next. *)
Lemma follow_up_rounds_at_cap fuel round_no (st : state W) :
  max_rounds cfg ≤ round_no →
  follow_up_rounds cfg ad fuel round_no st = (Ok tt, st).
Proof.
  intros H. destruct fuel; simpl;
    by destruct (Z.ltb_spec round_no (max_rounds cfg)); [lia|].
Qed.
End RoundCap.

Section FirstPass.
Context {W : Type} (cfg : config) (ad : adapters W).

Lemma first_pass_post_prefix (r : outcome Z) (t1 t2 : list event) :
  all_of preamble_kinds t1 → first_pass_post r t2 →
  first_pass_post r (t1 ++ t2).
Proof.
  intros H1 [(Hall & Hshape & Hle & Heq) Ha].
  pose proof (all_of_no_rounds preamble_kinds t1 ltac:(not_in) H1) as H0.
  split; [|done]. split; [|split; [|split]].
  - apply all_of_app. split; [|done].
    eapply all_of_mono; [|exact H1]. kinds_sub.
  - intros a Hr. destruct (Hshape a Hr) as (tr0 & tr1 & -> & Hp & Ho).
    exists (t1 ++ tr0), tr1. split; [by rewrite (assoc_L (++))|].
    split; [|done]. by apply all_of_app.
  - rewrite rounds_in_app, H0. lia.
  - intros Hok. rewrite rounds_in_app, H0, (Heq Hok). lia.
Qed.

Lemma first_pass_post_quiet (r : outcome Z) (t : list event) :
  is_Ok r = false → all_of preamble_kinds t → first_pass_post r t.
Proof.
  intros Hr H1.
  pose proof (all_of_no_rounds preamble_kinds t ltac:(not_in) H1) as H0.
  split; [|by intros a ->]. split; [|split; [|split]].
  - eapply all_of_mono; [|exact H1]. kinds_sub.
  - by intros a ->.
  - lia.
  - by rewrite Hr.
Qed.

Lemma first_pass_post_round (r : outcome Z) (t : list event) :
  (∀ a, r = Ok a → a = 1) → one_round t → first_pass_post r t.
Proof.
  intros Ha Ht. pose proof (one_round_rounds t Ht) as H1.
  split; [|done]. split; [|split; [|split]].
  - destruct Ht as (qs & t' & -> & Ht'). unfold all_of. simpl.
    eapply all_of_mono in Ht'; [exact Ht'|kinds_sub].
  - intros a _. exists [], t. split; [done|]. by split.
  - lia.
  - done.
Qed.

Lemma first_pass_step {A} (c : M W A) (k : A → M W Z) :
  respects (ext (only preamble_kinds)) c →
  (∀ a, post first_pass_post (k a)) →
  post first_pass_post (c ≫= k).
Proof.
  intros Hc Hk. apply (post_bind_prefix preamble_kinds); auto.
  - intros r t1 t2. apply first_pass_post_prefix.
  - intros e t1. by apply first_pass_post_quiet.
  - intros t1. by apply first_pass_post_quiet.
Qed.

Lemma first_round_post query_resp :
  post first_pass_post (first_round cfg ad query_resp).
Proof.
  unfold first_round.
  apply first_pass_step.
  { destruct (Str.nonempty _); [apply _thought_ext; kind_in|].
    apply respects_ret, _. }
  intros _. apply first_pass_step; [apply _log_ext; kind_in|intros _].
  apply first_pass_step; [by apply (respects_read _ generated_queries)|].
  intros queries. apply first_pass_step.
  { apply respects_for_each; [apply _|]. intros iq. apply _log_ext; kind_in. }
  intros _. apply first_pass_step; [apply _section_ext; kind_in|intros _].
  apply first_pass_step; [by apply (respects_read _ generated_queries)|].
  intros queries'.
  apply (post_bind (λ _ t, one_round t) (λ _ r t, t = [] ∧ r = Ok 1)).
  - apply _research_queries_post.
  - intros _. by apply post_ret.
  - intros ? t1 r t2 H1 [-> ->]. rewrite app_nil_r.
    apply first_pass_post_round; [congruence|done].
  - intros e t1 H1. by apply first_pass_post_round.
  - intros t1 H1. by apply first_pass_post_round.
Qed.

Lemma first_pass_post_holds : post first_pass_post (first_pass cfg ad).
Proof.
  unfold first_pass, run_query_agent.
  apply first_pass_step; [apply _section_ext; kind_in|intros _].
  apply first_pass_step; [apply call_ext; intros; kind_in|intros query_resp].
  apply first_pass_step; [apply ext_set_generated_queries|intros _].
  apply first_round_post.
Qed.
End FirstPass.

Lemma cap_ok_no_follow_up ks k (tr : list event) :
  K_follow_up_agent ∉ ks → all_of ks tr → cap_ok k tr.
Proof.
  intros Hf. unfold all_of. revert k.
  induction tr as [|e tr IH]; intros k; [done|].
  simpl. intros [He Htr]%andb_true_iff.
  apply bool_decide_eq_true in He.
  destruct e; simpl in *; auto; done.
Qed.

(** The recursive reading of the cap and the one by positions agree. *)
Lemma cap_ok_split k (tr : list event) :
  cap_ok k tr →
  ∀ tr1 e tr2, tr = tr1 ++ e :: tr2 → is_follow_up e = true →
    rounds_in tr1 < k.
Proof.
  intros H tr1 e tr2 -> He.
  apply cap_ok_app in H as [_ H].
  destruct e; try done. simpl in H. lia.
Qed.

Section Research.
Context {W : Type} (cfg : config) (ad : adapters W).

Lemma research_capped :
  post (λ _ t, cap_ok (max_rounds cfg) t
               ∧ rounds_in t ≤ Z.max 1 (max_rounds cfg))
    (research cfg ad).
Proof.
  unfold research.
  apply (post_bind first_pass_post
           (λ a _ t, capped (max_rounds cfg - a) t)).
  - apply first_pass_post_holds.
  - intros a.
    apply (post_bind (λ _ t, capped (max_rounds cfg - a) t)
             (λ _ _ t, all_of [K_log; K_synthesis_agent] t)).
    + apply follow_up_rounds_capped.
    + intros _. apply post_of_ext. apply synthesis_step_ext; kind_in.
    + intros ? t1 ? t2 H1 H2.
      eapply capped_suffix; [| |exact H1|exact H2]; not_in.
    + by intros e t1.
    + by intros t1.
  - intros a t1 r t2 [(Hall & _ & Hle & Heq) Ha] [Hc Hn].
    rewrite (Ha a eq_refl) in *.
    rewrite rounds_in_app, (Heq eq_refl). split; [|lia].
    apply cap_ok_app. rewrite (Heq eq_refl). split; [|done].
    eapply cap_ok_no_follow_up; [|exact Hall]. not_in.
  - intros e t1 [(Hall & _ & Hle & _) _]. split; [|lia].
    eapply cap_ok_no_follow_up; [|exact Hall]. not_in.
  - intros t1 [(Hall & _ & Hle & _) _]. split; [|lia].
    eapply cap_ok_no_follow_up; [|exact Hall]. not_in.
Qed.
End Research.

(** C1, as amended: round 1 always runs, so a call of [research] starts
    at most max(1, N) rounds for [max_rounds = N] (at most N for
    N >= 1), whatever the follow-up agent answers; the follow-up agent
    is only called while fewer than N rounds have started; and with
    [round_no] at the cap the loop is left at once, for the synthesis. *)
Theorem round_cap_holds {W} (cfg : config) (ad : adapters W) (w : W) :
  round_cap (Z.max 1 (max_rounds cfg)) (max_rounds cfg)
    (trace (research cfg ad (init_state w)).2)
  ∧ (∀ fuel round_no (st : state W),
       max_rounds cfg ≤ round_no →
       follow_up_rounds cfg ad fuel round_no st = (Ok tt, st))
  ∧ (research cfg ad (init_state w)).1 ≠ Diverge.
Proof.
  split; [|split; [apply follow_up_rounds_at_cap|apply research_terminates]].
  destruct (research_capped cfg ad (init_state w)) as (tr & E & Hc & Hn).
  simpl in E. rewrite E. split; [done|]. by apply cap_ok_split.
Qed.

(** Counterexample to C1 as stated: with [max_rounds = 0] round 1 still
    runs, so one round is performed where at most zero are claimed. *)
Lemma round_cap_fails_at_zero :
  ¬ round_cap 0 0
      (trace (research (example_config "python" 0) (example_adapters true)
                (init_state ())).2).
Proof. intros [H _]. vm_compute in H. by apply H. Qed.

(** ** C7: the follow-up decision that stops the research *)

#[global] Instance same_results_preorder {W} : PreOrder (@same_results W).
Proof.
  split; [by intros st|].
  intros st1 st2 st3. unfold same_results. congruence.
Qed.

Section ShortCircuit.
Context {W : Type} (cfg : config) (ad : adapters W).

Lemma for_each_log_run {A} (l : list A) (f : A → string) (st : state W) :
  ∃ st', for_each l (λ x, _log cfg (f x)) st = (Ok tt, st')
         ∧ same_but_trace st st' ∧ ext (only [K_log]) st st'.
Proof.
  revert st. induction l as [|x l IH]; intros st.
  - exists st. split; [done|]. split; [done|]. reflexivity.
  - rewrite for_each_cons, bind_run.
    destruct (_log_run cfg (f x) st) as (st1 & -> & (Hr1 & Hq1 & Hw1) & He1).
    destruct (IH st1) as (st2 & -> & (Hr2 & Hq2 & Hw2) & He2).
    exists st2. split; [done|]. split; [|by etrans].
    unfold same_but_trace. by rewrite Hr2, Hq2, Hw2.
Qed.

Lemma _follow_up_decision_run (st : state W) d w2 :
  follow_up_decision_agent ad (findings_digest cfg (search_results st))
    (world st) = (inl d, w2) →
  ∃ st', _follow_up_decision cfg ad st = (Ok d, st')
         ∧ search_results st' = search_results st
         ∧ world st' = w2
         ∧ ext (only [K_log; K_follow_up_agent]) st st'.
Proof.
  intros H. unfold _follow_up_decision.
  rewrite bind_run. unfold _findings_text at 1. rewrite bind_run. simpl.
  rewrite bind_run. unfold run_follow_up_decision_agent, call. rewrite H. simpl.
  set (st1 := Build_state _ _ _ _).
  assert (ext (only [K_log; K_follow_up_agent]) st st1) as He1.
  { eexists [_]. by split. }
  rewrite bind_run. destruct (negb _).
  - rewrite bind_run.
    destruct (_log_run cfg "Proposed follow-up queries:" st1)
      as (st2 & -> & (Hr2 & Hq2 & Hw2) & He2).
    destruct (for_each_log_run
                (enumerate 1 (FollowUpDecisionResponse.queries d))
                (λ iq, "  " +:+ Str.of_Z iq.1 +:+ ". " +:+ iq.2) st2)
      as (st3 & -> & (Hr3 & Hq3 & Hw3) & He3).
    simpl. exists st3. split; [done|]. split; [by rewrite Hr3, Hr2|].
    split; [by rewrite Hw3, Hw2|].
    etrans; [exact He1|].
    etrans; eapply ext_only_mono; try eassumption; kinds_sub.
  - simpl. by exists st1.
Qed.

Lemma follow_up_rounds_stop fuel round_no (st : state W) d w2 :
  round_no < max_rounds cfg →
  follow_up_decision_agent ad (findings_digest cfg (search_results st))
    (world st) = (inl d, w2) →
  FollowUpDecisionResponse.should_follow_up d = false →
  ∃ st', follow_up_rounds cfg ad (S fuel) round_no st = (Ok tt, st')
         ∧ search_results st' = search_results st
         ∧ world st' = w2
         ∧ ext (only [K_log; K_follow_up_agent]) st st'.
Proof.
  intros Hlt H Hd. simpl.
  destruct (Z.ltb_spec round_no (max_rounds cfg)); [|lia].
  rewrite bind_run.
  destruct (_section_run cfg "EVALUATE FOLLOW-UP" st)
    as (st1 & -> & (Hr1 & Hq1 & Hw1) & He1).
  rewrite bind_run. rewrite <- Hr1, <- Hw1 in H.
  destruct (_follow_up_decision_run st1 d w2 H) as (st2 & -> & Hr2 & Hw2 & He2).
  rewrite Hd. simpl.
  rewrite bind_run.
  destruct (_log_run cfg ("Decision: " +:+ "Research complete") st2)
    as (st3 & -> & (Hr3 & _ & Hw3) & He3).
  rewrite bind_run.
  destruct (_log_run cfg
              ("Reasoning: " +:+ FollowUpDecisionResponse.reasoning d) st3)
    as (st4 & -> & (Hr4 & _ & Hw4) & He4).
  destruct (_log_run cfg "No more research needed. Synthesizing report..." st4)
    as (st5 & -> & (Hr5 & _ & Hw5) & He5).
  exists st5. split; [done|].
  split; [by rewrite Hr5, Hr4, Hr3, Hr2, Hr1|].
  split; [by rewrite Hw5, Hw4, Hw3, Hw2|].
  etrans; [eapply ext_only_mono; [|exact He1]; kinds_sub|].
  etrans; [exact He2|].
  etrans; [eapply ext_only_mono; [|exact He3]; kinds_sub|].
  etrans; eapply ext_only_mono; try eassumption; kinds_sub.
Qed.

Lemma synthesis_step_same_results :
  respects same_results (synthesis_step cfg ad).
Proof.
  apply synthesis_step_respects with (ks := all_kinds);
    try first [ apply _ | apply kind_in_all | by intros; intros ? ].
  apply _synthesize_respects with (ks := all_kinds);
    try first [ apply _ | apply kind_in_all ].
  intros A oracle ev _ st. unfold call, same_results.
  by destruct (oracle (world st)).
Qed.

(** The synthesis step: the section header, the synthesis agent on
    the digest of the results, and one more log line when it
    returned. *)
Lemma synthesis_step_run (st : state W) :
  ∃ l0 l1, all_of [K_log] l0 ∧ all_of [K_log] l1 ∧
    let input := synthesis_digest cfg (search_results st) in
    let out := (synthesis_agent ad input (world st)).1 in
    (synthesis_step cfg ad st).1 = of_result out
    ∧ trace (synthesis_step cfg ad st).2
      = trace st ++ l0 ++ Ev_synthesis_agent input out :: l1
    ∧ search_results (synthesis_step cfg ad st).2 = search_results st.
Proof.
  assert (∀ st1 : state W,
            search_results st1 = search_results st → world st1 = world st →
            ∃ l1, all_of [K_log] l1 ∧
              let input := synthesis_digest cfg (search_results st) in
              let out := (synthesis_agent ad input (world st)).1 in
              ((_synthesize cfg ad ≫= λ final_report,
                _log cfg ("✓ Research complete!" +:+ nl);; mret final_report) st1).1
              = of_result out
              ∧ trace ((_synthesize cfg ad ≫= λ final_report,
                _log cfg ("✓ Research complete!" +:+ nl);; mret final_report) st1).2
                = trace st1 ++ Ev_synthesis_agent input out :: l1
              ∧ search_results ((_synthesize cfg ad ≫= λ final_report,
                _log cfg ("✓ Research complete!" +:+ nl);; mret final_report) st1).2
                = search_results st) as Hrest.
  { intros st1 Hr Hw. rewrite bind_run.
    unfold _synthesize. rewrite bind_run. unfold get_search_results.
    simpl. rewrite Hr. unfold run_synthesis_agent, call. rewrite Hw.
    destruct (synthesis_agent ad _ (world st)) as [[report|e] w']; simpl.
    - rewrite bind_run.
      match goal with
      | |- context [_log cfg ?m ?s] =>
          destruct (_log_run cfg m s)
            as (st3 & -> & (Hr3 & _ & _) & (l1 & E1 & H1))
      end.
      exists l1. simpl in *. split; [done|]. split; [done|].
      rewrite E1, Hr3. split; [|done]. by rewrite <- (assoc_L (++)).
    - exists []. by repeat split. }
  unfold synthesis_step. rewrite bind_run.
  destruct (_section_run cfg "SYNTHESIS" st)
    as (st1 & -> & (Hr & Hq & Hw) & (l0 & E0 & H0)).
  destruct (Hrest st1 Hr Hw) as (l1 & H1 & Hout & E1 & Hres).
  exists l0, l1. split; [done|]. split; [done|]. simpl in *.
  split; [done|]. split; [|done].
  rewrite E1, E0. by rewrite <- (assoc_L (++)).
Qed.
End ShortCircuit.

(** C7: with more than one round allowed, when round 1 has completed
    and the follow-up agent then answers that no follow-up is needed,
    the loop ends at once, calling nothing but the follow-up agent and
    the log; exactly one round has been performed and there is no
    further search, summary or result.  [research] goes on with the
    synthesis: after the loop it logs, calls the synthesis agent, once,
    on the digest of the results of round 1, logs, and what the agent
    answered is its outcome: the report it returns, or the exception
    it raises. *)
Theorem follow_up_short_circuit {W} (cfg : config) (ad : adapters W)
    (st0 st1 : state W) (d : FollowUpDecisionResponse.t) (w2 : W) :
  1 < max_rounds cfg →
  first_pass cfg ad st0 = (Ok 1, st1) →
  follow_up_decision_agent ad (findings_digest cfg (search_results st1))
    (world st1) = (inl d, w2) →
  FollowUpDecisionResponse.should_follow_up d = false →
  ∃ st2,
    follow_up_rounds cfg ad (Z.to_nat (max_rounds cfg - 1)) 1 st1 = (Ok tt, st2)
    ∧ ext (only [K_log; K_follow_up_agent]) st1 st2
    ∧ research cfg ad st0 = synthesis_step cfg ad st2
    ∧ rounds_in (trace (research cfg ad st0).2) = rounds_in (trace st0) + 1
    ∧ count is_ddg (trace (research cfg ad st0).2) = count is_ddg (trace st1)
    ∧ count is_search_agent (trace (research cfg ad st0).2)
      = count is_search_agent (trace st1)
    ∧ search_results (research cfg ad st0).2 = search_results st1
    ∧ (∃ l0 l1,
         all_of [K_log] l0 ∧ all_of [K_log] l1
         ∧ trace (research cfg ad st0).2
           = trace st2 ++ l0
             ++ Ev_synthesis_agent (synthesis_digest cfg (search_results st1))
                  (synthesis_agent ad
                     (synthesis_digest cfg (search_results st1)) w2).1
                :: l1)
    ∧ (research cfg ad st0).1
      = of_result
          (synthesis_agent ad (synthesis_digest cfg (search_results st1)) w2).1
    ∧ count is_synthesis (trace (research cfg ad st0).2)
      = count is_synthesis (trace st1) + 1.
Proof.
  intros Hmax Hfp Hd Hno.
  destruct (Z.to_nat (max_rounds cfg - 1)) as [|fuel] eqn:Ef; [lia|].
  destruct (follow_up_rounds_stop cfg ad fuel 1 st1 d w2 Hmax Hd Hno)
    as (st2 & Hloop & Hr2 & Hw2 & He2).
  exists st2.
  assert (research cfg ad st0 = synthesis_step cfg ad st2) as Hres.
  { unfold research. rewrite bind_run, Hfp, bind_run, Ef, Hloop. done. }
  split; [done|]. split; [done|]. split; [done|]. rewrite Hres.
  pose proof (synthesis_step_ext cfg ad [K_log; K_synthesis_agent]
                ltac:(kind_in) ltac:(kind_in) st2) as He3.
  assert (ext (only [K_log; K_follow_up_agent; K_synthesis_agent]) st1
            (synthesis_step cfg ad st2).2) as He.
  { etrans; eapply ext_only_mono; try eassumption; kinds_sub. }
  assert (∀ p, (∀ e, only [K_log; K_follow_up_agent; K_synthesis_agent] e = true
                     → p e = false) →
               count p (trace (synthesis_step cfg ad st2).2) = count p (trace st1))
    as Hcount.
  { intros p Hp. eapply ext_count; [exact Hp|exact He]. }
  split.
  { unfold rounds_in.
    rewrite (Hcount is_round) by (by intros []; vm_compute).
    destruct (first_pass_post_holds cfg ad st0) as (t & E & (_ & _ & _ & Heq) & _).
    rewrite Hfp in E, Heq. simpl in E, Heq.
    unfold rounds_in in *. rewrite E, count_app, (Heq eq_refl). done. }
  split; [apply Hcount; by intros []; vm_compute|].
  split; [apply Hcount; by intros []; vm_compute|].
  split; [by rewrite (synthesis_step_same_results cfg ad st2)|].
  destruct (synthesis_step_run cfg ad st2) as (l0 & l1 & H0 & H1 & Hout & E & _).
  cbv zeta in Hout, E. rewrite Hr2, Hw2 in Hout, E.
  split; [by exists l0, l1|]. split; [done|].
  rewrite E. destruct He2 as (t2 & -> & Ht2).
  assert (count is_synthesis t2 = 0) as Hc2.
  { apply (count_none _ (only [K_log; K_follow_up_agent])); [|done].
    by intros []; vm_compute. }
  assert (count is_synthesis l0 = 0) as Hc0.
  { apply (count_none _ (only [K_log])); [|done]. by intros []; vm_compute. }
  assert (count is_synthesis l1 = 0) as Hc1.
  { apply (count_none _ (only [K_log])); [|done]. by intros []; vm_compute. }
  match goal with
  | |- context [?e :: l1] => change (e :: l1) with ([e] ++ l1)
  end.
  rewrite !count_app, Hc2, Hc0, Hc1. unfold count at 2. simpl. unfold len. simpl. lia.
Qed.

(** Witness of C7: three rounds allowed, the follow-up agent declines;
    the report is the answer of the synthesis agent. *)
Lemma follow_up_short_circuit_witness :
  let cfg := example_config "python" 3 in
  let ad := example_adapters false in
  let st1 := (first_pass cfg ad (init_state ())).2 in
  ∃ st2,
    follow_up_rounds cfg ad (Z.to_nat (max_rounds cfg - 1)) 1 st1 = (Ok tt, st2)
    ∧ ext (only [K_log; K_follow_up_agent]) st1 st2
    ∧ research cfg ad (init_state ()) = synthesis_step cfg ad st2
    ∧ rounds_in (trace (research cfg ad (init_state ())).2)
      = rounds_in (trace (init_state ())) + 1
    ∧ count is_ddg (trace (research cfg ad (init_state ())).2)
      = count is_ddg (trace st1)
    ∧ count is_search_agent (trace (research cfg ad (init_state ())).2)
      = count is_search_agent (trace st1)
    ∧ search_results (research cfg ad (init_state ())).2 = search_results st1
    ∧ (∃ l0 l1,
         all_of [K_log] l0 ∧ all_of [K_log] l1
         ∧ trace (research cfg ad (init_state ())).2
           = trace st2 ++ l0
             ++ Ev_synthesis_agent (synthesis_digest cfg (search_results st1))
                  (inl "report [1]")
                :: l1)
    ∧ (research cfg ad (init_state ())).1 = Ok "report [1]"
    ∧ count is_synthesis (trace (research cfg ad (init_state ())).2)
      = count is_synthesis (trace st1) + 1.
Proof.
  apply (follow_up_short_circuit (example_config "python" 3)
           (example_adapters false) (init_state ())
           (first_pass (example_config "python" 3) (example_adapters false)
              (init_state ())).2
           (FollowUpDecisionResponse.mk false "because" ["python language"]) ()).
  - reflexivity.
  - vm_compute. reflexivity.
  - reflexivity.
  - reflexivity.
Defined.

(** ** C5: the order of the results *)

Lemma summaries_of_app (a b : list event) :
  summaries_of (a ++ b) = summaries_of a ++ summaries_of b.
Proof.
  induction a as [|e a IH]; [done|].
  destruct e as [| | | |input [out|err]| | |]; simpl; by rewrite ?IH.
Qed.

Lemma digests_from_app cfg n rs (a b : list event) :
  digests_from cfg n rs (a ++ b)
  ↔ digests_from cfg n rs a
    ∧ digests_from cfg (n + length (summaries_of a)) rs b.
Proof.
  revert n. induction a as [|e a IH]; intros n; simpl.
  - rewrite Nat.add_0_r. tauto.
  - destruct e as [| | | |input [out|err]| | |]; simpl; rewrite ?IH;
      rewrite ?Nat.add_succ_r; simpl; tauto.
Qed.

Lemma digests_from_grow cfg n rs extra (tr : list event) :
  (n + length (summaries_of tr) ≤ length rs)%nat →
  digests_from cfg n (rs ++ extra) tr ↔ digests_from cfg n rs tr.
Proof.
  revert n. induction tr as [|e tr IH]; intros n Hn; simpl; [done|].
  destruct e as [| | | |input [out|err]| | |]; simpl in *;
    rewrite ?IH by lia; rewrite ?take_app_le by lia; tauto.
Qed.

Lemma plain_summaries (tr : list event) :
  all_of plain_kinds tr → summaries_of tr = [].
Proof.
  unfold all_of. induction tr as [|e tr IH]; [done|].
  simpl. intros [He Htr]%andb_true_iff.
  destruct e as [| | | |input [out|err]| | |]; simpl; auto; done.
Qed.

Lemma plain_digests cfg n rs (tr : list event) :
  all_of plain_kinds tr → digests_from cfg n rs tr.
Proof.
  unfold all_of. induction tr as [|e tr IH]; [done|].
  simpl. intros [He Htr]%andb_true_iff.
  destruct e as [| | | |input [out|err]| | |]; simpl; auto; done.
Qed.

Section ResultsInv.
Context {W : Type} (cfg : config) (ad : adapters W).

#[global] Instance keeps_results_inv_preorder :
  PreOrder (@keeps_results_inv W cfg).
Proof.
  split; [intros st; unfold keeps_results_inv; auto|].
  intros st1 st2 st3. unfold keeps_results_inv. auto.
Qed.

(** With the same results and a plain extension of the trace the
    invariant stays. *)
Lemma results_inv_plain (st st' : state W) :
  search_results st' = search_results st →
  ext (only plain_kinds) st st' →
  keeps_results_inv cfg st st'.
Proof.
  intros Hr (t & Et & Ht) [Hmap Hdig]. unfold results_inv.
  rewrite Hr, Et, summaries_of_app, (plain_summaries t Ht), app_nil_r.
  split; [done|]. apply digests_from_app. split; [done|].
  by apply plain_digests.
Qed.

Lemma emit_keeps e :
  kind_of e ∈ plain_kinds → respects (keeps_results_inv cfg) (@emit W e).
Proof.
  intros He st. apply results_inv_plain; [done|]. by apply emit_ext.
Qed.

Lemma call_keeps {A} (oracle : W → (A + exn) * W) ev :
  (∀ r, kind_of (ev r) ∈ plain_kinds) →
  respects (keeps_results_inv cfg) (call oracle ev).
Proof.
  intros He st. apply results_inv_plain; [|by apply call_ext].
  unfold call. by destruct (oracle (world st)).
Qed.

Lemma _log_keeps msg : respects (keeps_results_inv cfg) (@_log W cfg msg).
Proof.
  unfold _log. destruct (on_log cfg); [|apply respects_ret, _].
  apply emit_keeps. kind_in.
Qed.

Lemma summarize_pick_keeps x :
  respects (keeps_results_inv cfg) (summarize_pick cfg ad x).
Proof.
  unfold summarize_pick. destruct x as [[score title] url].
  apply respects_bind; [apply _|apply _log_keeps|intros _].
  apply respects_bind; [apply _|apply _log_keeps|intros _].
  apply respects_bind; [apply _|apply _log_keeps|intros _].
  intros st [Hmap Hdig]. rewrite bind_run.
  unfold run_search_agent, call.
  destruct (search_agent ad (search_agent_input title url) (world st))
    as [[out|err] w']; simpl.
  - rewrite bind_run. simpl.
    match goal with
    | |- results_inv cfg (_log cfg ?m ?s).2 =>
        apply (_log_keeps m s)
    end.
    split; simpl.
    + rewrite map_app, summaries_of_app, Hmap. done.
    + apply digests_from_app. split; [|done].
      apply digests_from_grow; [|done].
      rewrite <- Hmap, length_map. lia.
  - split; simpl.
    + by rewrite summaries_of_app, app_nil_r.
    + apply digests_from_app. by split.
Qed.

Lemma results_inv_length (st : state W) :
  results_inv cfg st →
  length (summaries_of (trace st)) = length (search_results st).
Proof. intros [Hmap _]. by rewrite <- Hmap, length_map. Qed.

Lemma _follow_up_decision_keeps :
  respects (keeps_results_inv cfg) (_follow_up_decision cfg ad).
Proof.
  unfold _follow_up_decision.
  intros st Hinv. rewrite bind_run. unfold _findings_text at 1.
  rewrite bind_run. simpl. rewrite bind_run.
  unfold run_follow_up_decision_agent, call.
  destruct (follow_up_decision_agent ad _ (world st)) as [r w'].
  set (st1 := Build_state _ _ _ _).
  assert (results_inv cfg st1) as Hinv1.
  { destruct Hinv as [Hmap Hdig]. split; simpl.
    - by rewrite summaries_of_app, app_nil_r.
    - apply digests_from_app. split; [done|]. simpl. split; [|done].
      rewrite (results_inv_length st (conj Hmap Hdig)).
      by rewrite take_ge by lia. }
  destruct r as [d|err]; simpl; [|done].
  revert Hinv1. generalize st1. clear.
  change (respects (keeps_results_inv cfg)
            ((if negb (is_nil (FollowUpDecisionResponse.queries d))
              then
                _log cfg "Proposed follow-up queries:" ≫= λ _,
                for_each (enumerate 1 (FollowUpDecisionResponse.queries d))
                  (λ iq, _log cfg ("  " +:+ Str.of_Z iq.1 +:+ ". " +:+ iq.2))
              else mret tt) ≫= λ _, (mret d : M W _))).
  apply respects_bind; [apply _| |intros _; apply respects_ret, _].
  destruct (negb _); [|apply respects_ret, _].
  apply respects_bind; [apply _|apply _log_keeps|intros _].
  apply respects_for_each; [apply _|]. intros iq. apply _log_keeps.
Qed.

Lemma _synthesize_keeps :
  respects (keeps_results_inv cfg) (_synthesize cfg ad).
Proof.
  unfold _synthesize. intros st Hinv. rewrite bind_run. simpl.
  unfold run_synthesis_agent, call.
  destruct (synthesis_agent ad _ (world st)) as [r w'].
  destruct Hinv as [Hmap Hdig].
  assert (results_inv cfg
            {| search_results := search_results st;
               generated_queries := generated_queries st;
               world := w';
               trace := trace st
                        ++ [Ev_synthesis_agent
                              (synthesis_digest cfg (search_results st)) r] |})
    as Hinv1.
  { split; simpl.
    - by rewrite summaries_of_app, app_nil_r.
    - apply digests_from_app. split; [done|]. simpl. split; [|done].
      rewrite (results_inv_length st (conj Hmap Hdig)).
      by rewrite take_ge by lia. }
  by destruct r.
Qed.

Lemma research_keeps : respects (keeps_results_inv cfg) (research cfg ad).
Proof.
  apply research_respects with (ks := plain_kinds);
    first [ apply _ | kind_in
          | by intros; apply emit_keeps
          | by intros; apply call_keeps
          | by intros; apply summarize_pick_keeps
          | apply _follow_up_decision_keeps
          | apply _synthesize_keeps
          | idtac ].
  intros l st [Hmap Hdig]. by split.
Qed.

End ResultsInv.

(** *** The numbering of the digests *)



(** *** The results of the picks of one query *)

Section Picks.
Context {W : Type} (cfg : config) (ad : adapters W).

Lemma summarize_pick_run x (st : state W) :
  (∃ out, (summarize_pick cfg ad x st).1 = Ok tt
          ∧ search_results (summarize_pick cfg ad x st).2
            = search_results st
              ++ [SearchResult.mk (cand_title x) (cand_url x) out])
  ∨ ((summarize_pick cfg ad x st).1 ≠ Ok tt
     ∧ search_results (summarize_pick cfg ad x st).2 = search_results st).
Proof.
  unfold summarize_pick. destruct x as [[score title] url].
  rewrite bind_run.
  match goal with
  | |- context [_log cfg ?m st] =>
      destruct (_log_run cfg m st) as (st1 & -> & (Hr1 & _ & _) & _)
  end.
  rewrite bind_run.
  match goal with
  | |- context [_log cfg ?m st1] =>
      destruct (_log_run cfg m st1) as (st2 & -> & (Hr2 & _ & _) & _)
  end.
  rewrite bind_run.
  match goal with
  | |- context [_log cfg ?m st2] =>
      destruct (_log_run cfg m st2) as (st3 & -> & (Hr3 & _ & _) & _)
  end.
  rewrite bind_run. unfold run_search_agent, call.
  destruct (search_agent ad _ (world st3)) as [[out|err] w']; simpl.
  - left. exists out. rewrite bind_run. simpl.
    match goal with
    | |- context [_log cfg ?m ?s] =>
        destruct (_log_run cfg m s) as (st5 & -> & (Hr5 & _ & _) & _)
    end.
    split; [done|]. simpl in *. by rewrite Hr5, Hr3, Hr2, Hr1.
  - right. split; [done|]. simpl. by rewrite Hr3, Hr2, Hr1.
Qed.

Lemma for_each_summarize_sources picks (st : state W) :
  ∃ rs,
    search_results (for_each picks (summarize_pick cfg ad) st).2
    = search_results st ++ rs
    ∧ map result_source rs `prefix_of` map pick_source picks
    ∧ ((for_each picks (summarize_pick cfg ad) st).1 = Ok tt →
       map result_source rs = map pick_source picks).
Proof.
  revert st. induction picks as [|x picks IH]; intros st.
  - exists []. simpl. by rewrite app_nil_r.
  - rewrite for_each_cons, bind_run.
    destruct (summarize_pick_run x st) as [(out & Ho & Hr)|[Hn Hr]].
    + destruct (summarize_pick cfg ad x st) as [[[]|e|] st1];
        simpl in *; try done.
      destruct (IH st1) as (rs & E & Hpre & Heq).
      exists (SearchResult.mk (cand_title x) (cand_url x) out :: rs).
      rewrite E, Hr, <- (assoc_L (++)). split; [done|].
      split; [by apply prefix_cons|].
      intros Hok. simpl. f_equal. by apply Heq.
    + destruct (summarize_pick cfg ad x st) as [[[]|e|] st1];
        simpl in *; try done.
      * exists []. rewrite app_nil_r. split; [done|].
        split; [apply prefix_nil|done].
      * exists []. rewrite app_nil_r. split; [done|].
        split; [apply prefix_nil|done].
Qed.
End Picks.

Lemma digests_from_split cfg rs (tr : list event) :
  digests_from cfg 0 rs tr →
  ∀ tr1 e tr2, tr = tr1 ++ e :: tr2 →
    match e with
    | Ev_follow_up_agent input _ =>
        input = findings_digest cfg (take (length (summaries_of tr1)) rs)
    | Ev_synthesis_agent input _ =>
        input = synthesis_digest cfg (take (length (summaries_of tr1)) rs)
    | _ => True
    end.
Proof.
  intros H tr1 e tr2 ->. apply digests_from_app in H as [_ H].
  destruct e; try done; simpl in H; tauto.
Qed.


(* ================================================================= *)
(** * Part III: further properties of the code *)
(* ================================================================= *)

(** ** The tokens of [_tok] *)

Lemma string_forallb_impl (p q : ascii → bool) (s : string) :
  (∀ c, p c = true → q c = true) →
  string_forallb p s = true → string_forallb q s = true.
Proof.
  intros Hpq. induction s as [|c s IH]; simpl; [done|].
  intros [Hc Hs]%andb_true_iff. apply andb_true_iff. auto.
Qed.

Lemma string_forallb_app (p : ascii → bool) (a b : string) :
  string_forallb p (a +:+ b) = string_forallb p a && string_forallb p b.
Proof.
  induction a as [|c a IH]; [done|].
  rewrite app_cons. simpl. by rewrite IH, andb_assoc.
Qed.

(** After the substitution only [a-z0-9] and the space are left. *)
Lemma sub_chars (b : bool) (s : string) :
  string_forallb (λ c, is_az09 c || Ascii.eqb c " ")
    (_TOKEN_RE_sub_from b " " s) = true.
Proof.
  revert b. induction s as [|c s IH]; intros b; simpl; [done|].
  destruct (is_az09 c) eqn:E.
  - simpl. by rewrite E, IH.
  - destruct b; [apply IH|].
    rewrite app_cons, app_nil_l. simpl. apply IH.
Qed.

Lemma space_isspace c : Ascii.eqb c " " = true → Str.isspace c = true.
Proof. intros ->%Ascii.eqb_eq. reflexivity. Qed.

Lemma is_az09_not_isspace c : is_az09 c = true → Str.isspace c = false.
Proof. destruct c as [[] [] [] [] [] [] [] []]; done. Qed.

Lemma fields_cons (s : string) : ∃ w ws, Str.fields s = w :: ws.
Proof.
  induction s as [|c s (w & ws & IH)]; simpl; [by eexists _, _|].
  destruct (Str.isspace c); [by eexists _, _|]. rewrite IH. by eexists _, _.
Qed.

(** A field holds the characters between two white-space characters. *)
Lemma fields_chars (p : ascii → bool) (s : string) :
  string_forallb (λ c, p c || Str.isspace c) s = true →
  Forall (λ w, string_forallb p w = true) (Str.fields s).
Proof.
  induction s as [|c s IH]; simpl.
  - intros _. by repeat constructor.
  - intros [Hc Hs]%andb_true_iff. specialize (IH Hs).
    destruct (Str.isspace c) eqn:E.
    + by constructor.
    + rewrite orb_false_r in Hc.
      destruct (fields_cons s) as (w & ws & Hf). rewrite Hf in *.
      inversion IH; subst. constructor; [|done]. simpl. by rewrite Hc.
Qed.

Lemma tokens_ok (s : string) : Forall token_ok (tokens s).
Proof.
  unfold tokens, Str.split, _TOKEN_RE_sub.
  apply Forall_forall. intros t Ht.
  apply list_elem_of_filter in Ht as [[Hne Hstop] Ht].
  apply list_elem_of_filter in Ht as [_ Ht].
  split; [done|]. split; [|done].
  clear Hne Hstop. revert t Ht. apply Forall_forall, fields_chars.
  eapply string_forallb_impl; [|apply sub_chars].
  intros c [H|H]%orb_true_iff; apply orb_true_iff; [by left|].
  right. by apply space_isspace.
Qed.

(** X1: every token that [_tok] returns is a non-empty word over
    [a-z0-9] that is no stop word, whatever the input ([None]
    included). *)
Theorem tok_tokens_well_formed (v : pyval) :
  ∃ ts, _tok v = Ok ts ∧ Forall token_ok ts.
Proof.
  exists (tokens (text_of v)). split; [apply _tok_eq|apply tokens_ok].
Qed.

(** ** Tokenizing the joined tokens *)

Lemma lower_char_fixed c :
  is_az09 c || Ascii.eqb c " " = true → Str.lower_char c = c.
Proof. destruct c as [[] [] [] [] [] [] [] []]; done. Qed.

Lemma lower_char_idemp c : Str.lower_char (Str.lower_char c) = Str.lower_char c.
Proof. destruct c as [[] [] [] [] [] [] [] []]; reflexivity. Qed.

Lemma lower_idemp (s : string) : Str.lower (Str.lower s) = Str.lower s.
Proof.
  induction s as [|c s IH]; simpl; [done|]. by rewrite lower_char_idemp, IH.
Qed.

Lemma lower_fixed (s : string) :
  string_forallb (λ c, is_az09 c || Ascii.eqb c " ") s = true →
  Str.lower s = s.
Proof.
  induction s as [|c s IH]; simpl; [done|].
  intros [Hc Hs]%andb_true_iff. by rewrite lower_char_fixed, IH.
Qed.

Lemma join_cons2 (sep t t' : string) (ts : list string) :
  Str.join sep (t :: t' :: ts) = t +:+ sep +:+ Str.join sep (t' :: ts).
Proof. reflexivity. Qed.

Lemma join_chars (ts : list string) :
  Forall token_ok ts →
  string_forallb (λ c, is_az09 c || Ascii.eqb c " ") (Str.join " " ts) = true.
Proof.
  induction 1 as [|t ts (_ & Ht & _) Hts IH]; [done|].
  assert (string_forallb (λ c, is_az09 c || Ascii.eqb c " ") t = true) as Ht'.
  { eapply string_forallb_impl; [|exact Ht]. intros c ->. done. }
  destruct ts as [|t' ts]; [done|].
  rewrite join_cons2, !string_forallb_app, Ht', IH. done.
Qed.

(** The substitution copies a word over [a-z0-9]. *)
Lemma sub_word (b : bool) (t r : string) :
  string_forallb is_az09 t = true → Str.nonempty t = true →
  _TOKEN_RE_sub_from b " " (t +:+ r) = t +:+ _TOKEN_RE_sub_from false " " r.
Proof.
  revert b. induction t as [|c t IH]; intros b; [done|].
  simpl string_forallb. intros [Hc Ht]%andb_true_iff _.
  rewrite !app_cons. simpl. rewrite Hc. f_equal.
  destruct t as [|c' t]; [done|]. by apply IH.
Qed.

Lemma sub_join (b : bool) (ts : list string) :
  Forall token_ok ts →
  _TOKEN_RE_sub_from b " " (Str.join " " ts) = Str.join " " ts.
Proof.
  intros H. revert b. induction H as [|t ts (Hne & Ht & _) Hts IH]; intros b; [done|].
  destruct ts as [|t' ts].
  - change (Str.join " " [t]) with t.
    rewrite <- (append_nil_r t) at 1. rewrite sub_word by done.
    simpl. apply append_nil_r.
  - rewrite join_cons2, sub_word by done. f_equal.
    rewrite app_cons, app_nil_l. simpl.
    rewrite app_cons, app_nil_l. f_equal. apply IH.
Qed.

Lemma fields_word (t r : string) :
  string_forallb is_az09 t = true →
  Str.fields (t +:+ String " " r) = t :: Str.fields r.
Proof.
  induction t as [|c t IH]; [done|].
  simpl string_forallb. intros [Hc Ht]%andb_true_iff.
  rewrite app_cons. simpl. rewrite (is_az09_not_isspace _ Hc), IH; done.
Qed.

Lemma fields_last (t : string) :
  string_forallb is_az09 t = true → Str.fields t = [t].
Proof.
  induction t as [|c t IH]; [done|].
  simpl. intros [Hc Ht]%andb_true_iff.
  by rewrite (is_az09_not_isspace _ Hc), IH.
Qed.

Lemma split_join (ts : list string) :
  Forall token_ok ts → Str.split (Str.join " " ts) = ts.
Proof.
  unfold Str.split.
  induction 1 as [|t ts (Hne & Ht & _) Hts IH]; [done|].
  destruct ts as [|t' ts].
  - change (Str.join " " [t]) with t. rewrite fields_last by done.
    rewrite filter_cons. by rewrite decide_True.
  - rewrite join_cons2, app_cons, app_nil_l, fields_word by done.
    rewrite filter_cons, decide_True by done. by rewrite IH.
Qed.

Lemma filter_all {A} (P : A → Prop) `{∀ x, Decision (P x)} (l : list A) :
  Forall P l → filter P l = l.
Proof.
  induction 1 as [|x l Hx Hl IH]; [done|].
  by rewrite filter_cons, decide_True, IH.
Qed.

Lemma tokens_join (ts : list string) :
  Forall token_ok ts → tokens (Str.join " " ts) = ts.
Proof.
  intros H. unfold tokens, _TOKEN_RE_sub.
  rewrite lower_fixed by by apply join_chars.
  rewrite sub_join, split_join by done.
  apply filter_all. eapply Forall_impl; [exact H|].
  intros t (? & ? & ?). done.
Qed.

Lemma tokens_joined (s : string) : tokens (joined_tokens s) = tokens s.
Proof. apply tokens_join, tokens_ok. Qed.

Lemma tokens_lower (s : string) : tokens (Str.lower s) = tokens s.
Proof. unfold tokens. by rewrite lower_idemp. Qed.

(** X2: tokenizing is idempotent through the join: the tokens of
    [" ".join(_tok(s))] are the tokens of [s], in the same order; and
    lower-casing the input first changes nothing. *)
Theorem tok_join_round_trip (v : pyval) :
  ∃ ts, _tok v = Ok ts
        ∧ _tok (PyStr (Str.join " " ts)) = Ok ts
        ∧ _tok (PyStr (Str.lower (text_of v))) = Ok ts.
Proof.
  exists (tokens (text_of v)). rewrite !_tok_eq. simpl text_of.
  split; [done|]. split.
  - f_equal. apply tokens_join, tokens_ok.
  - f_equal. apply tokens_lower.
Qed.

(** ** What the score depends on *)

Lemma score_of_texts_tokens (q q' t t' u u' s s' : string) :
  tokens q = tokens q' → tokens t = tokens t' →
  tokens u = tokens u' → tokens s = tokens s' →
  score_of_texts q t u s = score_of_texts q' t' u' s'.
Proof. unfold score_of_texts. by intros -> -> -> ->. Qed.

(** X3: the score only reads the token lists of its arguments:
    replacing every argument by its joined tokens, or by its
    lower-casing, gives the same score. *)
Theorem match_score_reads_tokens (query title url snippet : string) :
  _match_score (PyStr (joined_tokens query)) (PyStr (joined_tokens title))
    (PyStr (joined_tokens url)) (PyStr (joined_tokens snippet))
  = _match_score (PyStr query) (PyStr title) (PyStr url) (PyStr snippet)
  ∧ _match_score (PyStr (Str.lower query)) (PyStr (Str.lower title))
      (PyStr (Str.lower url)) (PyStr (Str.lower snippet))
    = _match_score (PyStr query) (PyStr title) (PyStr url) (PyStr snippet).
Proof.
  rewrite !_match_score_eq. simpl text_of.
  split; f_equal; apply score_of_texts_tokens;
    auto using tokens_joined, tokens_lower.
Qed.

(** ** The range of the score *)

Lemma nonneg_not_below_zero (x : float) :
  Float64.nonneg x → Float64.ltb x Float64.zero = false.
Proof. destruct x as [| [] | |[] m e]; done. Qed.

(** X4: the score is never negative and never a NaN. *)
Theorem match_score_nonneg (query title url snippet : pyval) :
  ∃ x, _match_score query title url snippet = Ok x
       ∧ Float64.nonneg x
       ∧ Float64.ltb x Float64.zero = false.
Proof.
  eexists. split; [apply _match_score_eq|].
  split; [apply score_of_texts_nonneg|].
  apply nonneg_not_below_zero, score_of_texts_nonneg.
Qed.

Lemma overlap_disjoint (Q X : gset string) :
  Q ∩ X = ∅ → overlap Q X = Float64.zero.
Proof.
  intros H. unfold overlap. rewrite H, size_empty.
  unfold Float64.ratio. simpl.
  by destruct (Z.max 1 (Z.of_nat (size Q))) eqn:E; [lia| |lia].
Qed.

(** X5: a hit that shares no token with the query, and whose joined
    title tokens do not contain the joined query tokens, scores
    exactly 0.0, which is below the threshold. *)
Theorem match_score_no_overlap (query title url snippet : string) :
  list_to_set (tokens query) ∩ list_to_set (tokens title) = (∅ : gset string) →
  list_to_set (tokens query) ∩ list_to_set (tokens snippet) = (∅ : gset string) →
  list_to_set (tokens query) ∩ list_to_set (tokens url) = (∅ : gset string) →
  Str.contains (joined_tokens title) (joined_tokens query) = false →
  _match_score (PyStr query) (PyStr title) (PyStr url) (PyStr snippet)
  = Ok Float64.zero
  ∧ Float64.ltb Float64.zero MIN_SCORE = true.
Proof.
  intros Ht Hs Hu Hc. split; [|by vm_compute].
  rewrite _match_score_eq. simpl text_of. f_equal.
  unfold score_of_texts. destruct (decide _); [done|].
  unfold joined_tokens in Hc.
  rewrite !overlap_disjoint, Hc by done. by vm_compute.
Qed.

(** Witness of X5: a hit on another subject. *)
Lemma match_score_no_overlap_witness :
  _match_score (PyStr "rocq prover") (PyStr "Python") (PyStr "https://python.org")
    (PyStr "Python is a language")
  = Ok Float64.zero
  ∧ Float64.ltb Float64.zero MIN_SCORE = true.
Proof.
  apply (match_score_no_overlap "rocq prover" "Python" "https://python.org"
           "Python is a language");
    by vm_compute.
Defined.

(** ** The picks of the ranker *)

Lemma geb_trans (a b c : float) :
  not_nan a → not_nan b → not_nan c →
  Float64.geb a b = true → Float64.geb b c = true → Float64.geb a c = true.
Proof.
  intros Ha Hb Hc. rewrite !geb_ltb by done.
  intros Hab Hbc. apply negb_true_iff in Hab, Hbc. apply negb_true_iff.
  destruct (Float64.ltb a c) eqn:E; [|done].
  destruct (ltb_cotrans a c b Hb E); congruence.
Qed.

Lemma sorted_strongly (l : list candidate) :
  keys_ok cand_score l → Sorted (ge_key cand_score) l →
  StronglySorted (ge_key cand_score) l.
Proof.
  induction l as [|x l IH]; intros Hok Hs; [constructor|].
  apply Forall_cons in Hok as [Hx Hok].
  apply Sorted_inv in Hs as [Hs Hhd].
  specialize (IH Hok Hs). constructor; [done|].
  destruct l as [|y l]; [constructor|].
  apply HdRel_inv in Hhd.
  apply StronglySorted_inv in IH as [_ Hy].
  apply Forall_cons in Hok as [Hy' Hok].
  constructor; [done|].
  apply Forall_forall. intros z Hz.
  unfold ge_key in *.
  eapply geb_trans; [done|exact Hy'| |exact Hhd|].
  - by eapply Forall_forall in Hok.
  - by eapply Forall_forall in Hy.
Qed.

Lemma strongly_sorted_sublist {A} (R : relation A) (l1 l2 : list A) :
  l1 `sublist_of` l2 → StronglySorted R l2 → StronglySorted R l1.
Proof.
  induction 1 as [|x l1 l2 Hsub IH|x l1 l2 Hsub IH]; intros Hs.
  - constructor.
  - apply StronglySorted_inv in Hs as [Hs Hx]. constructor; [by apply IH|].
    apply Forall_forall. intros y Hy.
    eapply Forall_forall in Hx; [exact Hx|].
    by eapply elem_of_sublist.
  - apply StronglySorted_inv in Hs as [Hs _]. by apply IH.
Qed.

Lemma slice_to_prefix {A} (k : Z) (l : list A) : ∃ n, slice_to k l = take n l.
Proof. unfold slice_to. destruct (0 <=? k); by eexists. Qed.

(** The two ways the picks come about. *)
Lemma select_picks_cases (picks_per_query : Z) (ranked : list candidate) :
  let sorted := sort_reverse cand_score ranked in
  (∃ n, select_picks picks_per_query ranked = take n (filter clears sorted))
  ∨ (∃ c rest, sorted = c :: rest ∧ select_picks picks_per_query ranked = [c]).
Proof.
  simpl. unfold select_picks.
  change (λ x : candidate, Float64.geb (cand_score x) MIN_SCORE = true) with clears.
  destruct (is_nil (slice_to _ _) && _) eqn:E.
  - right. apply andb_true_iff in E as [_ E].
    destruct (sort_reverse cand_score ranked) as [|c rest]; [done|].
    by exists c, rest.
  - left. apply slice_to_prefix.
Qed.

Lemma select_picks_sublist (picks_per_query : Z) (ranked : list candidate) :
  select_picks picks_per_query ranked
    `sublist_of` sort_reverse cand_score ranked.
Proof.
  destruct (select_picks_cases picks_per_query ranked)
    as [[n ->]|(c & rest & Hs & ->)].
  - etrans; [apply sublist_take|apply sublist_filter].
  - rewrite Hs. apply singleton_sublist_l. left.
Qed.

Lemma select_picks_length (picks_per_query : Z) (ranked : list candidate) :
  0 ≤ picks_per_query →
  len (select_picks picks_per_query ranked) ≤ Z.max 1 picks_per_query.
Proof.
  intros Hk. unfold select_picks.
  destruct (is_nil (slice_to _ _) && _).
  - unfold slice_to, len. simpl. rewrite length_take. lia.
  - rewrite slice_to_nonneg by done. unfold len. rewrite length_take. lia.
Qed.

Lemma score_hits_sources (q : string) (raw : list hit) (ranked : list candidate) :
  score_hits q raw = Ok ranked → map pick_source ranked = map hit_source raw.
Proof.
  revert ranked. induction raw as [|r raw IH]; simpl; intros ranked.
  - by intros [= <-].
  - rewrite score_hit_eq. simpl.
    destruct (score_hits q raw) as [cs| |]; simpl; [|done..].
    intros [= <-]. simpl. by rewrite (IH cs).
Qed.

(** X6: the picks are taken from the scored hits: there is one scored
    entry per raw hit, with the title and the address of the hit, in
    the order of the hits; the picks are a sublist of the sorted
    entries, so every pick is an entry, none is picked twice and the
    best comes first; and for a non-negative [picks_per_query] there
    are at most max(1, picks_per_query) picks. *)
Theorem picks_come_from_hits (picks_per_query : Z) (q : string) (raw : list hit) :
  ∃ ranked picks,
    score_hits q raw = Ok ranked
    ∧ pick_candidates picks_per_query q raw = Ok picks
    ∧ map pick_source ranked = map hit_source raw
    ∧ picks `sublist_of` sort_reverse cand_score ranked
    ∧ picks ⊆+ ranked
    ∧ Sorted (ge_key cand_score) picks
    ∧ len picks ≤ len raw
    ∧ (0 ≤ picks_per_query → len picks ≤ Z.max 1 picks_per_query).
Proof.
  destruct (score_hits_total q raw) as (ranked & Hr & Hlen & Hnn).
  exists ranked, (select_picks picks_per_query ranked).
  unfold pick_candidates. rewrite Hr.
  pose proof (select_picks_sublist picks_per_query ranked) as Hsub.
  pose proof (nonneg_keys_ok _ Hnn) as Hok.
  split; [done|]. split; [done|].
  split; [by apply (score_hits_sources q)|].
  split; [done|].
  split.
  { etrans; [by apply sublist_submseteq|].
    apply Permutation_submseteq, sort_reverse_perm. }
  split.
  { apply StronglySorted_Sorted.
    eapply strongly_sorted_sublist; [exact Hsub|].
    apply sorted_strongly.
    - by apply sort_reverse_keys_ok.
    - by apply sort_reverse_sorted. }
  split.
  { apply sublist_length in Hsub.
    rewrite (Permutation_length (sort_reverse_perm cand_score ranked)) in Hsub.
    unfold len. lia. }
  apply select_picks_length.
Qed.

(** X7: a candidate below the threshold is only ever picked alone:
    either every pick has a score of at least 0.26, or there is exactly
    one pick, the first of the entries with the greatest score. *)
Theorem picks_clear_or_single (picks_per_query : Z) (q : string) (raw : list hit) :
  ∃ ranked picks,
    score_hits q raw = Ok ranked
    ∧ pick_candidates picks_per_query q raw = Ok picks
    ∧ (Forall clears picks
       ∨ ∃ c, picks = [c] ∧ first_greatest cand_score c ranked).
Proof.
  destruct (score_hits_total q raw) as (ranked & Hr & Hlen & Hnn).
  exists ranked, (select_picks picks_per_query ranked).
  unfold pick_candidates. rewrite Hr.
  split; [done|]. split; [done|].
  destruct (select_picks_cases picks_per_query ranked)
    as [[n ->]|(c & rest & Hs & ->)].
  - left. apply Forall_forall. intros x Hx.
    apply elem_of_take in Hx as (i & Hx & _).
    apply list_elem_of_lookup_2 in Hx.
    by apply list_elem_of_filter in Hx as [Hx _].
  - right. exists c. split; [done|].
    eapply sort_reverse_head; [|exact Hs]. by apply nonneg_keys_ok.
Qed.

(** ** One query of a round *)

Lemma count_singleton p (e : event) : count p [e] = if p e then 1 else 0.
Proof. unfold count, len. simpl. by destruct (p e). Qed.

Lemma log_counts (t : list event) :
  forallb (only [K_log]) t = true →
  count is_search_agent t = 0 ∧ count is_ddg t = 0.
Proof.
  intros H. split; (eapply count_none; [|exact H]); by intros [].
Qed.

Section OneQuery.
Context {W : Type} (cfg : config) (ad : adapters W).

Lemma _ddg_search_run q (st : state W) :
  ∃ out w',
    _ddg_search cfg ad q st
    = (Ok (provider_hits cfg ad q st),
       {| search_results := search_results st;
          generated_queries := generated_queries st;
          world := w';
          trace := trace st ++ [Ev_ddg_text q out] |}).
Proof.
  unfold _ddg_search, try_except, call, provider_hits.
  destruct (ddg_text _ _ _ _ _ _ _) as [[hits|e] w']; simpl; by eexists _, _.
Qed.

(** The loop that scores the hits returns the list of [score_hits]
    and only logs. *)
Lemma score_loop_run q raw ranked (st : state W) :
  ∃ cs st',
    score_hits q raw = Ok cs
    ∧ score_loop cfg q raw ranked st = (Ok (ranked ++ cs), st')
    ∧ same_but_trace st st' ∧ ext (only [K_log]) st st'.
Proof.
  revert ranked st. induction raw as [|r raw IH]; intros ranked st; simpl.
  - exists [], st. rewrite app_nil_r. by repeat split.
  - rewrite bind_run. rewrite score_hit_eq. simpl.
    rewrite bind_run.
    match goal with
    | |- context [_log cfg ?m st] =>
        destruct (_log_run cfg m st) as (st1 & -> & (Hr1 & Hq1 & Hw1) & Hext1)
    end.
    match goal with
    | |- context [score_loop cfg q raw ?l st1] =>
        destruct (IH l st1) as (cs & st2 & Hcs & -> & (Hr2 & Hq2 & Hw2) & Hext2)
    end.
    rewrite Hcs. simpl. eexists _, st2.
    split; [done|]. rewrite <- (assoc_L (++)). split; [done|].
    split; [|by etrans].
    unfold same_but_trace. by rewrite Hr2, Hq2, Hw2.
Qed.

(** A pick costs one call of the search agent. *)
Lemma summarize_pick_calls x :
  post (λ _ t, count is_search_agent t = 1 ∧ count is_ddg t = 0)
    (summarize_pick cfg ad x).
Proof.
  intros st. unfold summarize_pick. destruct x as [[score title] url].
  rewrite bind_run.
  match goal with
  | |- context [_log cfg ?m st] =>
      destruct (_log_run cfg m st) as (st1 & -> & _ & (t1 & E1 & H1))
  end.
  rewrite bind_run.
  match goal with
  | |- context [_log cfg ?m st1] =>
      destruct (_log_run cfg m st1) as (st2 & -> & _ & (t2 & E2 & H2))
  end.
  rewrite bind_run.
  match goal with
  | |- context [_log cfg ?m st2] =>
      destruct (_log_run cfg m st2) as (st3 & -> & _ & (t3 & E3 & H3))
  end.
  destruct (log_counts _ H1) as [S1 D1], (log_counts _ H2) as [S2 D2],
    (log_counts _ H3) as [S3 D3].
  rewrite bind_run. unfold run_search_agent, call.
  destruct (search_agent ad _ (world st3)) as [[out|err] w']; simpl.
  - rewrite bind_run. simpl.
    match goal with
    | |- context [_log cfg ?m ?s] =>
        destruct (_log_run cfg m s) as (st5 & -> & _ & (t5 & E5 & H5))
    end.
    destruct (log_counts _ H5) as [S5 D5].
    simpl in *. eexists (t1 ++ t2 ++ t3 ++ [_] ++ t5).
    split; [rewrite E5, E3, E2, E1; by rewrite <- !(assoc_L (++))|].
    rewrite !count_app, !count_singleton, S1, S2, S3, S5, D1, D2, D3, D5.
    done.
  - simpl in *. eexists (t1 ++ t2 ++ t3 ++ [_]).
    split; [rewrite E3, E2, E1; by rewrite <- !(assoc_L (++))|].
    rewrite !count_app, !count_singleton, S1, S2, S3, D1, D2, D3. done.
Qed.

Lemma for_each_summarize_calls picks :
  post (λ r t, count is_search_agent t ≤ len picks
               ∧ (r = Ok tt → count is_search_agent t = len picks)
               ∧ count is_ddg t = 0)
    (for_each picks (summarize_pick cfg ad)).
Proof.
  induction picks as [|x picks IH].
  - apply post_ret. done.
  - rewrite for_each_cons.
    eapply post_bind; [apply summarize_pick_calls|intros ?; apply IH|..].
    + intros _ t1 r t2 [H1 D1] (H2 & H2' & D2).
      rewrite !count_app, H1, D1, D2. unfold len in *. simpl.
      split; [lia|]. split; [|done]. intros Hr. specialize (H2' Hr). lia.
    + intros e t1 [H1 D1]. rewrite H1, D1. unfold len. simpl.
      split; [lia|]. done.
    + intros t1 [H1 D1]. rewrite H1, D1. unfold len. simpl.
      split; [lia|]. done.
Qed.
End OneQuery.

(** X8: the round body runs the ranker on what the provider answered:
    for a query, the provider is called exactly once; the picks are
    those of the ranker on the hits returned; the search agent is
    called once per pick, in the order of the picks, until one call
    raises; and the results added are those of the picks summarized. *)
Theorem research_query_runs_ranker {W} (cfg : config) (ad : adapters W)
    (q : string) (st : state W) :
  ∃ picks rs,
    pick_candidates (picks_per_query cfg) q (provider_hits cfg ad q st) = Ok picks
    ∧ search_results (research_query cfg ad q st).2 = search_results st ++ rs
    ∧ map result_source rs `prefix_of` map pick_source picks
    ∧ ((research_query cfg ad q st).1 = Ok tt →
       map result_source rs = map pick_source picks)
    ∧ count is_ddg (trace (research_query cfg ad q st).2)
      = count is_ddg (trace st) + 1
    ∧ count is_search_agent (trace (research_query cfg ad q st).2)
      ≤ count is_search_agent (trace st) + len picks
    ∧ ((research_query cfg ad q st).1 = Ok tt →
       count is_search_agent (trace (research_query cfg ad q st).2)
       = count is_search_agent (trace st) + len picks).
Proof.
  unfold research_query. rewrite bind_run.
  destruct (_log_run cfg ("Searching for: " +:+ q) st)
    as (st1 & -> & (Hr1 & Hq1 & Hw1) & (t1 & E1 & H1)).
  rewrite bind_run.
  destruct (_ddg_search_run cfg ad q st1) as (out & w' & ->).
  assert (provider_hits cfg ad q st1 = provider_hits cfg ad q st) as ->.
  { unfold provider_hits. by rewrite Hw1. }
  set (raw := provider_hits cfg ad q st).
  rewrite bind_run.
  match goal with
  | |- context [score_loop cfg q raw [] ?s] =>
      destruct (score_loop_run cfg q raw [] s)
        as (cs & st3 & Hcs & -> & (Hr3 & Hq3 & Hw3) & (t3 & E3 & H3))
  end.
  change ([] ++ cs) with cs. rewrite bind_run.
  match goal with
  | |- context [_log cfg ?m st3] =>
      destruct (_log_run cfg m st3)
        as (st4 & -> & (Hr4 & Hq4 & Hw4) & (t4 & E4 & H4))
  end.
  set (picks := select_picks (picks_per_query cfg) cs).
  exists picks.
  destruct (for_each_summarize_sources cfg ad picks st4) as (rs & Ers & Hpre & Heq).
  destruct (for_each_summarize_calls cfg ad picks st4)
    as (t5 & E5 & Hle & Hok & Hd).
  exists rs. simpl in *.
  split; [unfold pick_candidates; by rewrite Hcs|].
  split; [by rewrite Ers, Hr4, Hr3, Hr1|].
  split; [done|]. split; [done|].
  destruct (log_counts _ H1) as [S1 D1], (log_counts _ H3) as [S3 D3],
    (log_counts _ H4) as [S4 D4].
  rewrite E5, E4, E3, E1. simpl.
  rewrite !count_app, !count_singleton, S1, S3, S4, D1, D3, D4, Hd. simpl.
  split; [lia|]. split; [lia|].
  intros Hr. rewrite (Hok Hr). lia.
Qed.

(** ** Where an exception of [research] comes from *)

Lemma agents_returned_app (a b : list event) :
  agents_returned (a ++ b) ↔ agents_returned a ∧ agents_returned b.
Proof. apply Forall_app. Qed.

Lemma accounts_for_seq {A B} (a : A) (r : outcome B) (t1 t2 : list event) :
  accounts_for (Ok a) t1 → accounts_for r t2 → accounts_for r (t1 ++ t2).
Proof.
  intros H1. destruct r as [b|e|]; simpl.
  - intros H2. by apply agents_returned_app.
  - intros (tr0 & ev & -> & Hev & H0). exists (t1 ++ tr0), ev.
    split; [by rewrite (assoc_L (++))|]. split; [done|].
    by apply agents_returned_app.
  - done.
Qed.

Lemma all_of_returned (ks : list kind) (t : list event) :
  K_query_agent ∉ ks → K_search_agent ∉ ks → K_follow_up_agent ∉ ks →
  K_synthesis_agent ∉ ks → all_of ks t → agents_returned t.
Proof.
  intros Hq Hs Hf Hy H. apply Forall_forall. intros ev Hev.
  unfold all_of in H. rewrite forallb_forall in H.
  specialize (H ev (proj1 (list_elem_of_In _ _) Hev)).
  apply bool_decide_eq_true in H.
  destruct ev as [| | ? []| | ? []| ? []| ? []|]; simpl in *; done.
Qed.

Section Accounts.
Context {W : Type} (cfg : config) (ad : adapters W).

Lemma acc_bind {A B} (c : M W A) (k : A → M W B) :
  post accounts_for c → (∀ a, post accounts_for (k a)) →
  post accounts_for (c ≫= k).
Proof.
  intros Hc Hk. eapply post_bind; [exact Hc|exact Hk|..].
  - intros a t1 r t2. apply accounts_for_seq.
  - by intros e t1.
  - by intros t1.
Qed.

Lemma acc_ret {A} (a : A) : post accounts_for (mret a : M W A).
Proof. apply post_ret. constructor. Qed.

Lemma acc_read {A} (f : state W → A) :
  post accounts_for (λ st : state W, (Ok (f st), st)).
Proof. intros st. exists []. simpl. rewrite app_nil_r. split; [done|constructor]. Qed.

Lemma acc_for_each {A} (l : list A) (body : A → M W unit) :
  (∀ x, post accounts_for (body x)) → post accounts_for (for_each l body).
Proof.
  intros Hb. induction l as [|x l IH]; [apply acc_ret|].
  rewrite for_each_cons. apply acc_bind; [apply Hb|]. by intros [].
Qed.

Lemma acc_quiet {A} (c : M W A) :
  (∀ st, ∃ a st', c st = (Ok a, st') ∧ ext (only [K_log; K_thought; K_ddg_text]) st st') →
  post accounts_for c.
Proof.
  intros Hc st. destruct (Hc st) as (a & st' & -> & (t & E & Ht)).
  exists t. split; [done|]. simpl.
  eapply all_of_returned; [..|exact Ht]; not_in.
Qed.

Lemma acc_log msg : post accounts_for (@_log W cfg msg).
Proof.
  apply acc_quiet. intros st.
  destruct (_log_run cfg msg st) as (st' & E & _ & Hext).
  exists tt, st'. split; [done|].
  eapply ext_only_mono; [|exact Hext]. kinds_sub.
Qed.

Lemma acc_thought msg : post accounts_for (@_thought W cfg msg).
Proof.
  intros st. unfold _thought. destruct (on_thought cfg).
  - exists [Ev_thought msg]. split; [done|]. by repeat constructor.
  - exists []. simpl. rewrite app_nil_r. split; [done|constructor].
Qed.

Lemma acc_emit_round queries : post accounts_for (@emit W (Ev_round queries)).
Proof. intros st. exists [Ev_round queries]. split; [done|]. by repeat constructor. Qed.

Lemma acc_call {A} (oracle : W → (A + exn) * W) (ev : A + exn → event) :
  (∀ a, agent_raised (ev (inl a)) = None) →
  (∀ e, agent_raised (ev (inr e)) = Some e) →
  post accounts_for (call oracle ev).
Proof.
  intros Hl Hr st. unfold call.
  destruct (oracle (world st)) as [[a|e] w']; simpl.
  - exists [ev (inl a)]. split; [done|]. by repeat constructor.
  - exists [ev (inr e)]. split; [done|]. exists [], (ev (inr e)).
    split; [done|]. split; [done|constructor].
Qed.

Lemma acc_ddg_search q : post accounts_for (_ddg_search cfg ad q).
Proof.
  intros st. destruct (_ddg_search_run cfg ad q st) as (out & w' & ->).
  exists [Ev_ddg_text q out]. split; [done|]. by repeat constructor.
Qed.

Lemma acc_score_loop q raw ranked : post accounts_for (@score_loop W cfg q raw ranked).
Proof.
  apply acc_quiet. intros st.
  destruct (score_loop_run cfg q raw ranked st) as (cs & st' & _ & E & _ & Hext).
  eexists _, st'. split; [done|].
  eapply ext_only_mono; [|exact Hext]. kinds_sub.
Qed.

Ltac acc_go :=
  repeat first
    [ assumption
    | match goal with H : _ |- post _ _ => apply H end
    | apply acc_ret
    | apply acc_log
    | apply acc_thought
    | apply acc_emit_round
    | apply acc_ddg_search
    | apply acc_score_loop
    | apply acc_read
    | by apply acc_call
    | match goal with
      | |- post _ (if ?b then _ else _) => destruct b
      | |- post _ (match ?x with (_, _) => _ end) => destruct x
      | |- post _ (for_each _ _) => apply acc_for_each
      | |- post _ (_ ≫= _) => apply acc_bind
      | |- post _ _ => fail 1
      | |- ∀ _, _ => intros ?
      end ].

Lemma acc_append r : post accounts_for (@append_search_result W r).
Proof. intros st. exists []. simpl. rewrite app_nil_r. split; [done|constructor]. Qed.

Lemma acc_set_queries l : post accounts_for (@set_generated_queries W l).
Proof. intros st. exists []. simpl. rewrite app_nil_r. split; [done|constructor]. Qed.

Lemma acc_summarize_pick x : post accounts_for (summarize_pick cfg ad x).
Proof.
  unfold summarize_pick, run_search_agent. destruct x as [[score title] url].
  pose proof acc_append. acc_go.
Qed.

Lemma acc_research_query q : post accounts_for (research_query cfg ad q).
Proof.
  unfold research_query. pose proof acc_summarize_pick. acc_go.
Qed.

Lemma acc_research_queries queries :
  post accounts_for (_research_queries cfg ad queries).
Proof.
  unfold _research_queries. pose proof acc_research_query. acc_go.
Qed.

Lemma acc_follow_up_decision : post accounts_for (_follow_up_decision cfg ad).
Proof.
  unfold _follow_up_decision, _findings_text, get_search_results,
    run_follow_up_decision_agent.
  acc_go.
Qed.

Lemma acc_synthesis_step : post accounts_for (synthesis_step cfg ad).
Proof.
  unfold synthesis_step, _synthesize, get_search_results, run_synthesis_agent,
    _section.
  acc_go.
Qed.

Lemma acc_follow_up_rounds fuel round_no :
  post accounts_for (follow_up_rounds cfg ad fuel round_no).
Proof.
  revert round_no. induction fuel as [|fuel IH]; intros round_no; simpl;
    destruct (round_no <? max_rounds cfg); try apply acc_ret.
  - intros st. exists []. simpl. by rewrite app_nil_r.
  - pose proof acc_follow_up_decision. pose proof acc_research_queries.
    unfold _section. acc_go.
Qed.

Lemma acc_first_pass : post accounts_for (first_pass cfg ad).
Proof.
  unfold first_pass, first_round, run_query_agent, get_generated_queries,
    _section.
  pose proof acc_research_queries. pose proof acc_set_queries. acc_go.
Qed.

Lemma acc_research : post accounts_for (research cfg ad).
Proof.
  unfold research.
  pose proof acc_first_pass. pose proof acc_follow_up_rounds.
  pose proof acc_synthesis_step. acc_go.
Qed.
End Accounts.

(** X9: an exception of an agent is never swallowed.  Whichever call
    of the query, search, follow-up or synthesis agent raises, that
    call is the last thing [research] does, and [research] raises that
    very exception; so when [research] returns, every agent call has
    returned.  A call of [research] always comes to an end. *)
Theorem research_raises_agent_errors {W} (cfg : config) (ad : adapters W)
    (st : state W) :
  ∃ tr,
    trace (research cfg ad st).2 = trace st ++ tr
    ∧ (∀ tr0 ev tr1 e,
         tr = tr0 ++ ev :: tr1 → agent_raised ev = Some e →
         tr1 = [] ∧ (research cfg ad st).1 = Raise e)
    ∧ (∀ report, (research cfg ad st).1 = Ok report → agents_returned tr)
    ∧ (research cfg ad st).1 ≠ Diverge.
Proof.
  destruct (acc_research cfg ad st) as (tr & E & H).
  exists tr. split; [done|].
  pose proof (research_terminates cfg ad st) as Ht.
  split; [|split; [|done]].
  - intros tr0 ev tr1 e Htr Hev.
    destruct (research cfg ad st).1 as [report|e'|]; [| |done].
    + exfalso. rewrite Htr in H.
      apply Forall_app in H as [_ H]. apply Forall_cons in H as [H _].
      by rewrite Hev in H.
    + destruct H as (tr0' & ev' & Htr' & Hev' & Hret).
      rewrite Htr in Htr'.
      destruct tr1 as [|x tr1 _] using rev_ind.
      * apply app_inj_tail in Htr' as [_ ->].
        rewrite Hev in Hev'. by injection Hev' as ->.
      * exfalso.
        change (ev :: tr1 ++ [x]) with ((ev :: tr1) ++ [x]) in Htr'.
        rewrite (assoc_L (++)) in Htr'.
        apply app_inj_tail in Htr' as [<- _].
        apply Forall_app in Hret as [_ Hret].
        apply Forall_cons in Hret as [Hret _].
        by rewrite Hev in Hret.
  - intros report Hok. by rewrite Hok in H.
Qed.

(** ** The first and the last call of [research] *)

Section Report.
Context {W : Type} (cfg : config) (ad : adapters W).

Lemma first_round_ext ks query_resp :
  K_log ∈ ks → K_thought ∈ ks → K_round ∈ ks → K_ddg_text ∈ ks →
  K_search_agent ∈ ks →
  respects (ext (only ks)) (first_round cfg ad query_resp).
Proof.
  intros. apply first_round_respects with (ks := ks); try done.
  - apply _.
  - intros. by apply emit_ext.
  - intros. by apply call_ext.
  - intros. by apply summarize_pick_ext.
Qed.

Lemma follow_up_rounds_ext ks fuel round_no :
  K_log ∈ ks → K_round ∈ ks → K_ddg_text ∈ ks → K_search_agent ∈ ks →
  K_follow_up_agent ∈ ks →
  respects (ext (only ks)) (follow_up_rounds cfg ad fuel round_no).
Proof.
  intros. apply follow_up_rounds_respects with (ks := ks); try done.
  - apply _.
  - intros. by apply emit_ext.
  - intros. by apply call_ext.
  - intros. by apply summarize_pick_ext.
  - by apply _follow_up_decision_ext.
Qed.

(** The first pass: the section header, then the query agent on the
    query of the user. *)
Lemma first_pass_run (st : state W) :
  ∃ l0, all_of [K_log] l0 ∧
    match query_agent ad (query cfg) (world st) with
    | (inr e, w') =>
        first_pass cfg ad st
        = (Raise e,
           {| search_results := search_results st;
              generated_queries := generated_queries st;
              world := w';
              trace := (trace st ++ l0) ++ [Ev_query_agent (query cfg) (inr e)] |})
    | (inl resp, w') =>
        ∃ l1, trace (first_pass cfg ad st).2
              = trace st ++ l0 ++ Ev_query_agent (query cfg) (inl resp) :: l1
              ∧ all_of [K_log; K_thought; K_round; K_ddg_text; K_search_agent] l1
    end.
Proof.
  unfold first_pass. rewrite bind_run.
  destruct (_section_run cfg "GENERATE QUERIES" st)
    as (st1 & -> & (Hr & Hq & Hw) & (l0 & E0 & H0)).
  exists l0. split; [done|].
  rewrite bind_run. unfold run_query_agent, call. rewrite Hw.
  destruct (query_agent ad (query cfg) (world st)) as [[resp|e] w']; simpl.
  - rewrite bind_run. simpl.
    match goal with
    | |- context [first_round cfg ad resp ?s] =>
        destruct (first_round_ext
                    [K_log; K_thought; K_round; K_ddg_text; K_search_agent]
                    resp ltac:(kind_in) ltac:(kind_in) ltac:(kind_in)
                    ltac:(kind_in) ltac:(kind_in) s) as (l1 & E1 & H1)
    end.
    exists l1. rewrite E1. simpl. rewrite E0.
    split; [|done]. by rewrite <- !(assoc_L (++)).
  - by rewrite Hr, Hq, E0.
Qed.
End Report.

Lemma all_of_count_zero ks p (t : list event) :
  (∀ e, only ks e = true → p e = false) → all_of ks t → count p t = 0.
Proof. intros Hp Ht. by eapply count_none. Qed.

(** X10: when [research] returns, the report is the output of the
    synthesis agent.  The query agent was called once, on the query of
    the user, before anything but log lines; the synthesis agent was
    called once, on the digest of all the results gathered, and only
    log lines follow that call. *)
Theorem research_returns_synthesis_output {W} (cfg : config) (ad : adapters W)
    (st : state W) (report : string) :
  (research cfg ad st).1 = Ok report →
  ∃ l0 resp mid l1,
    trace (research cfg ad st).2
    = trace st ++ l0 ++ Ev_query_agent (query cfg) (inl resp) :: mid
        ++ Ev_synthesis_agent
             (synthesis_digest cfg (search_results (research cfg ad st).2))
             (inl report) :: l1
    ∧ all_of [K_log] l0
    ∧ count is_query_agent mid = 0
    ∧ count is_synthesis mid = 0
    ∧ all_of [K_log] l1.
Proof.
  unfold research. rewrite bind_run.
  destruct (first_pass_run cfg ad st) as (l0 & H0 & Hfp).
  destruct (query_agent ad (query cfg) (world st)) as [[resp|e] w'];
    [|by rewrite Hfp].
  destruct Hfp as (l1 & E1 & H1).
  destruct (first_pass cfg ad st) as [[round_no|e|] st1]; simpl in *; [|done..].
  rewrite bind_run.
  pose proof (follow_up_rounds_ext cfg ad
                [K_log; K_round; K_ddg_text; K_search_agent; K_follow_up_agent]
                (Z.to_nat (max_rounds cfg - round_no)) round_no
                ltac:(kind_in) ltac:(kind_in) ltac:(kind_in) ltac:(kind_in)
                ltac:(kind_in) st1) as (l2 & E2 & H2).
  destruct (follow_up_rounds cfg ad _ round_no st1) as [[[]|e|] st2];
    simpl in *; [|done..].
  destruct (synthesis_step_run cfg ad st2) as (l3 & l4 & H3 & H4 & Hout & E3 & Hr).
  simpl in *. rewrite Hout. rewrite Hr.
  destruct (synthesis_agent ad _ (world st2)) as [[rep|e] w3]; simpl in *;
    [|done].
  intros [= ->].
  exists l0, resp, (l1 ++ l2 ++ l3), l4.
  split.
  { rewrite E3, E2, E1. rewrite <- !(assoc_L (++)). simpl. done. }
  split; [done|].
  assert (∀ ks (t : list event),
            all_of ks t → K_query_agent ∉ ks → K_synthesis_agent ∉ ks →
            count is_query_agent t = 0 ∧ count is_synthesis t = 0) as Hnone.
  { intros ks t Ht Hq Hs.
    split; (eapply all_of_count_zero; [|exact Ht]);
      intros ev Hev%bool_decide_eq_true; by destruct ev. }
  destruct (Hnone _ l1 H1) as [Q1 S1]; [not_in..|].
  destruct (Hnone _ l2 H2) as [Q2 S2]; [not_in..|].
  destruct (Hnone _ l3 H3) as [Q3 S3]; [not_in..|].
  rewrite !count_app, Q1, Q2, Q3, S1, S2, S3. done.
Qed.

(** Witness of X10: one round, then the report. *)
Lemma research_returns_synthesis_output_witness :
  let cfg := example_config "python" 3 in
  let ad := example_adapters false in
  let st := init_state () in
  ∃ l0 resp mid l1,
    trace (research cfg ad st).2
    = trace st ++ l0 ++ Ev_query_agent (query cfg) (inl resp) :: mid
        ++ Ev_synthesis_agent
             (synthesis_digest cfg (search_results (research cfg ad st).2))
             (inl "report [1]") :: l1
    ∧ all_of [K_log] l0
    ∧ count is_query_agent mid = 0
    ∧ count is_synthesis mid = 0
    ∧ all_of [K_log] l1.
Proof.
  exact (research_returns_synthesis_output (example_config "python" 3)
           (example_adapters false) (init_state ()) "report [1]" eq_refl).
Defined.

(** X11: when the query agent raises, [research] raises that exception
    at once: the only events are the section header and the failed
    call, and the fields of the coordinator are as before. *)
Theorem research_query_agent_failure {W} (cfg : config) (ad : adapters W)
    (st : state W) (e : exn) (w' : W) :
  query_agent ad (query cfg) (world st) = (inr e, w') →
  ∃ l0,
    all_of [K_log] l0
    ∧ research cfg ad st
      = (Raise e,
         {| search_results := search_results st;
            generated_queries := generated_queries st;
            world := w';
            trace := (trace st ++ l0) ++ [Ev_query_agent (query cfg) (inr e)] |}).
Proof.
  intros H. destruct (first_pass_run cfg ad st) as (l0 & H0 & Hfp).
  rewrite H in Hfp. exists l0. split; [done|].
  unfold research. by rewrite bind_run, Hfp.
Qed.

(** Witness of X11: the query agent cannot be reached. *)
Lemma research_query_agent_failure_witness :
  ∃ l0,
    all_of [K_log] l0
    ∧ research (example_config "python" 3) failing_query_adapters (init_state ())
      = (Raise (PyExc "APIConnectionError" "no route"),
         {| search_results := [];
            generated_queries := [];
            world := ();
            trace := ([] ++ l0)
                     ++ [Ev_query_agent "python"
                           (inr (PyExc "APIConnectionError" "no route"))] |}).
Proof.
  exact (research_query_agent_failure (example_config "python" 3)
           failing_query_adapters (init_state ())
           (PyExc "APIConnectionError" "no route") () eq_refl).
Defined.

(** ** The searches follow the queries handed in *)

Lemma plan_run_app (todo : list string) (a b : list event) :
  plan_run todo (a ++ b)
  = match plan_run todo a with
    | Some todo' => plan_run todo' b
    | None => None
    end.
Proof.
  revert todo. induction a as [|e a IH]; intros todo; [done|].
  destruct e as [| |? [resp|]| |? []|? [d|]|? []|]; simpl; try apply IH.
  - destruct (is_nil todo); [apply IH|done].
  - destruct todo as [|q' todo]; [done|]. destruct (decide _); [apply IH|done].
  - destruct (is_nil todo); [apply IH|done].
  - destruct (is_nil todo); [apply IH|done].
  - destruct (is_nil todo); [apply IH|done].
Qed.

Lemma plan_run_quiet (todo : list string) (t : list event) :
  all_of [K_log; K_thought; K_round; K_search_agent] t →
  plan_run todo t = Some todo.
Proof.
  induction t as [|e t IH]; [done|].
  intros [He Ht]%andb_true_iff. specialize (IH Ht).
  apply bool_decide_eq_true in He.
  destruct e as [| |? []| |? []|? []|? []|]; simpl in *; try done;
    exfalso; revert He; not_in.
Qed.

Lemma fits_plan_seq {A B} (t0 t1 t2 : list string) (a : A) (r : outcome B)
    (tr1 tr2 : list event) :
  fits_plan t0 t1 (Ok a) tr1 → fits_plan t1 t2 r tr2 →
  fits_plan t0 t2 r (tr1 ++ tr2).
Proof.
  intros [_ H1] [H2 H2']. unfold fits_plan.
  rewrite plan_run_app, (H1 eq_refl). done.
Qed.

Lemma fits_plan_stop {A B} (t0 t1 t2 : list string) (r : outcome A)
    (r' : outcome B) (tr : list event) :
  is_Ok r' = false → fits_plan t0 t1 r tr → fits_plan t0 t2 r' tr.
Proof. intros Hr [H _]. split; [done|]. by rewrite Hr. Qed.

Section Plan.
Context {W : Type} (cfg : config) (ad : adapters W).

Lemma plan_bind {A B} (t0 t1 t2 : list string) (c : M W A) (k : A → M W B) :
  post (fits_plan t0 t1) c → (∀ a, post (fits_plan t1 t2) (k a)) →
  post (fits_plan t0 t2) (c ≫= k).
Proof.
  intros Hc Hk. eapply post_bind; [exact Hc|exact Hk|..].
  - intros a tr1 r tr2. apply fits_plan_seq.
  - intros e tr1. by apply fits_plan_stop.
  - intros tr1. by apply fits_plan_stop.
Qed.

(** A piece of code that returns and neither searches nor calls the
    query, the follow-up or the synthesis agent leaves the plan as it
    is. *)
Lemma plan_quiet {A} (todo : list string) (c : M W A) :
  respects (ext (only [K_log; K_thought; K_round; K_search_agent])) c →
  post (fits_plan todo todo) c.
Proof.
  intros Hc st. destruct (Hc st) as (t & E & Ht). exists t.
  split; [done|]. unfold fits_plan. by rewrite (plan_run_quiet todo t Ht).
Qed.

Lemma plan_log todo msg : post (fits_plan todo todo) (@_log W cfg msg).
Proof. apply plan_quiet, _log_ext. kind_in. Qed.

Lemma plan_ddg_search q todo :
  post (fits_plan (q :: todo) todo) (_ddg_search cfg ad q).
Proof.
  intros st. destruct (_ddg_search_run cfg ad q st) as (out & w' & ->).
  exists [Ev_ddg_text q out]. split; [done|].
  unfold fits_plan. simpl. by rewrite decide_True.
Qed.

Lemma plan_research_query q todo :
  post (fits_plan (q :: todo) todo) (research_query cfg ad q).
Proof.
  unfold research_query.
  apply (plan_bind _ (q :: todo)); [apply plan_log|intros _].
  apply (plan_bind _ todo); [apply plan_ddg_search|intros raw].
  apply (plan_bind _ todo).
  { apply plan_quiet. intros st.
    destruct (score_loop_run cfg q raw [] st) as (cs & st' & _ & -> & _ & Hext).
    simpl. eapply ext_only_mono; [|exact Hext]. kinds_sub. }
  intros ranked.
  apply (plan_bind _ todo); [apply plan_log|intros _].
  apply plan_quiet. apply respects_for_each; [apply _|].
  intros x. apply summarize_pick_ext; kind_in.
Qed.

Lemma plan_for_each_query queries todo :
  post (fits_plan (queries ++ todo) todo)
    (for_each queries (research_query cfg ad)).
Proof.
  induction queries as [|q queries IH].
  - apply post_ret. done.
  - rewrite for_each_cons.
    apply (plan_bind _ (queries ++ todo)); [apply plan_research_query|].
    intros _. apply IH.
Qed.

Lemma plan_research_queries queries :
  post (fits_plan queries []) (_research_queries cfg ad queries).
Proof.
  unfold _research_queries.
  apply (plan_bind _ queries).
  - apply plan_quiet, emit_ext. kind_in.
  - intros _. rewrite <- (app_nil_r queries) at 1. apply plan_for_each_query.
Qed.

Lemma plan_follow_up_decision :
  post (λ r tr, is_Some (plan_run [] tr)
                ∧ ∀ d, r = Ok d → plan_run [] tr = Some (handed_in d))
    (_follow_up_decision cfg ad).
Proof.
  intros st. unfold _follow_up_decision. rewrite bind_run.
  unfold _findings_text at 1. rewrite bind_run. unfold get_search_results at 1.
  simpl. rewrite bind_run.
  unfold run_follow_up_decision_agent, call.
  destruct (follow_up_decision_agent ad _ (world st)) as [[d|e] w']; simpl.
  - rewrite bind_run.
    assert (∀ st1 : state W, ∃ st2 l,
              (if negb (is_nil (FollowUpDecisionResponse.queries d))
               then _log cfg "Proposed follow-up queries:";;
                    for_each (enumerate 1 (FollowUpDecisionResponse.queries d))
                      (λ iq, _log cfg ("  " +:+ Str.of_Z iq.1 +:+ ". " +:+ iq.2))
               else mret tt) st1 = (Ok tt, st2)
              ∧ trace st2 = trace st1 ++ l ∧ all_of [K_log] l) as Hlogs.
    { intros st1. destruct (negb _).
      - rewrite bind_run.
        destruct (_log_run cfg "Proposed follow-up queries:" st1)
          as (st2 & -> & _ & (l2 & E2 & H2)).
        destruct (for_each_log_run cfg
                    (enumerate 1 (FollowUpDecisionResponse.queries d))
                    (λ iq, "  " +:+ Str.of_Z iq.1 +:+ ". " +:+ iq.2) st2)
          as (st3 & -> & _ & (l3 & E3 & H3)).
        exists st3, (l2 ++ l3). split; [done|].
        split; [by rewrite E3, E2, <- (assoc_L (++))|].
        by apply all_of_app.
      - exists st1, []. split; [done|]. by rewrite app_nil_r. }
    match goal with
    | |- context [(if negb _ then _ else _) ?s] =>
        destruct (Hlogs s) as (st2 & l & -> & E & Hl)
    end.
    simpl. exists (Ev_follow_up_agent (findings_digest cfg (search_results st)) (inl d) :: l).
    split; [rewrite E; simpl; by rewrite <- (assoc_L (++))|].
    simpl. fold (handed_in d).
    rewrite plan_run_quiet.
    2:{ eapply all_of_mono; [|exact Hl]. kinds_sub. }
    split; [done|]. by intros ? [= <-].
  - eexists [_]. split; [done|]. simpl. split; [done|]. done.
Qed.

Lemma plan_follow_up_rounds fuel round_no :
  post (fits_plan [] []) (follow_up_rounds cfg ad fuel round_no).
Proof.
  revert round_no. induction fuel as [|fuel IH]; intros round_no; simpl;
    destruct (round_no <? max_rounds cfg); try (by apply post_ret).
  { intros st. exists []. simpl. by rewrite app_nil_r. }
  apply (plan_bind _ []); [apply plan_log|intros _].
  eapply post_bind; [apply plan_follow_up_decision|..].
  - intros d.
    instantiate (1 := λ d, fits_plan (handed_in d) []). simpl.
    apply (plan_bind _ (handed_in d)); [apply plan_log|intros _].
    apply (plan_bind _ (handed_in d)); [apply plan_log|intros _].
    unfold handed_in.
    destruct (FollowUpDecisionResponse.should_follow_up d); simpl.
    + apply (plan_bind _ (FollowUpDecisionResponse.queries d));
        [apply plan_log|intros _].
      apply (plan_bind _ []); [apply plan_research_queries|intros _].
      apply IH.
    + apply plan_log.
  - intros d t1 r t2 [_ H1] [H2 H2']. unfold fits_plan.
    rewrite plan_run_app, (H1 d eq_refl). done.
  - intros e t1 [H1 _]. by split.
  - intros t1 [H1 _]. by split.
Qed.

Lemma _thought_run msg (st : state W) :
  ∃ st', _thought cfg msg st = (Ok tt, st')
         ∧ same_but_trace st st' ∧ ext (only [K_thought]) st st'.
Proof.
  unfold _thought. destruct (on_thought cfg).
  - eexists. split; [reflexivity|]. split; [done|].
    by exists [Ev_thought msg].
  - exists st. split; [done|]. split; [done|]. reflexivity.
Qed.

(** Round 1 searches the queries that were assigned. *)
Lemma plan_first_round query_resp (st : state W) :
  ∃ tr, trace (first_round cfg ad query_resp st).2 = trace st ++ tr
        ∧ fits_plan (generated_queries st) []
            (first_round cfg ad query_resp st).1 tr.
Proof.
  unfold first_round. rewrite bind_run.
  assert (∃ st1 l1, (if Str.nonempty (QueryResponse.thoughts query_resp)
                     then _thought cfg (QueryResponse.thoughts query_resp)
                     else mret tt) st = (Ok tt, st1)
                    ∧ generated_queries st1 = generated_queries st
                    ∧ trace st1 = trace st ++ l1
                    ∧ all_of [K_log; K_thought] l1) as (st1 & l1 & -> & Hq1 & E1 & H1).
  { destruct (Str.nonempty _).
    - destruct (_thought_run (QueryResponse.thoughts query_resp) st)
        as (st1 & -> & (_ & Hq & _) & (l & E & Hl)).
      exists st1, l. split; [done|]. split; [done|]. split; [done|].
      eapply all_of_mono; [|exact Hl]. kinds_sub.
    - exists st, []. by rewrite app_nil_r. }
  rewrite bind_run.
  destruct (_log_run cfg "Generated Search Queries:" st1)
    as (st2 & -> & (_ & Hq2 & _) & (l2 & E2 & H2)).
  rewrite bind_run. unfold get_generated_queries at 1. simpl.
  rewrite bind_run.
  match goal with
  | |- context [for_each ?l (λ iq, _log cfg (@?f iq)) st2] =>
      destruct (for_each_log_run cfg l f st2)
        as (st3 & -> & (_ & Hq3 & _) & (l3 & E3 & H3))
  end.
  rewrite bind_run.
  match goal with
  | |- context [_section cfg ?m st3] =>
      destruct (_section_run cfg m st3)
        as (st4 & -> & (_ & Hq4 & _) & (l4 & E4 & H4))
  end.
  rewrite bind_run. unfold get_generated_queries at 1. simpl.
  rewrite bind_run.
  assert (generated_queries st4 = generated_queries st) as ->
    by (by rewrite Hq4, Hq3, Hq2, Hq1).
  destruct (plan_research_queries (generated_queries st) st4) as (t5 & E5 & H5).
  exists (l1 ++ l2 ++ l3 ++ l4 ++ t5).
  assert (plan_run (generated_queries st) (l1 ++ l2 ++ l3 ++ l4)
          = Some (generated_queries st)) as Hpre.
  { apply plan_run_quiet. rewrite !all_of_app.
    repeat split; (eapply all_of_mono; [|eassumption]); kinds_sub. }
  destruct (_research_queries cfg ad (generated_queries st) st4)
    as [[[]|e|] st5]; simpl in *.
  - split; [rewrite E5, E4, E3, E2, E1; by rewrite <- !(assoc_L (++))|].
    unfold fits_plan in *.
    rewrite !(assoc_L (++) l1), !(assoc_L (++) (l1 ++ l2)),
      !(assoc_L (++) ((l1 ++ l2) ++ l3)), plan_run_app.
    rewrite <- !(assoc_L (++)), Hpre. done.
  - split; [rewrite E5, E4, E3, E2, E1; by rewrite <- !(assoc_L (++))|].
    unfold fits_plan in *.
    rewrite !(assoc_L (++) l1), !(assoc_L (++) (l1 ++ l2)),
      !(assoc_L (++) ((l1 ++ l2) ++ l3)), plan_run_app.
    rewrite <- !(assoc_L (++)), Hpre. done.
  - split; [rewrite E5, E4, E3, E2, E1; by rewrite <- !(assoc_L (++))|].
    unfold fits_plan in *.
    rewrite !(assoc_L (++) l1), !(assoc_L (++) (l1 ++ l2)),
      !(assoc_L (++) ((l1 ++ l2) ++ l3)), plan_run_app.
    rewrite <- !(assoc_L (++)), Hpre. done.
Qed.

Lemma plan_first_pass : post (fits_plan [] []) (first_pass cfg ad).
Proof.
  intros st. unfold first_pass. rewrite bind_run.
  destruct (_section_run cfg "GENERATE QUERIES" st)
    as (st1 & -> & (Hr & Hq & Hw) & (l0 & E0 & H0)).
  assert (plan_run [] l0 = Some []) as Hl0.
  { apply plan_run_quiet. eapply all_of_mono; [|exact H0]. kinds_sub. }
  rewrite bind_run. unfold run_query_agent, call.
  destruct (query_agent ad (query cfg) (world st1)) as [[resp|e] w']; simpl.
  - rewrite bind_run. simpl.
    match goal with
    | |- context [first_round cfg ad resp ?s] =>
        destruct (plan_first_round resp s) as (t1 & E1 & H1 & H1')
    end.
    simpl in *.
    exists (l0 ++ Ev_query_agent (query cfg) (inl resp) :: t1).
    split; [rewrite E1, E0; by rewrite <- !(assoc_L (++))|].
    unfold fits_plan. rewrite plan_run_app, Hl0. simpl. done.
  - exists (l0 ++ [Ev_query_agent (query cfg) (inr e)]).
    split; [by rewrite E0, <- !(assoc_L (++))|].
    unfold fits_plan. rewrite plan_run_app, Hl0. simpl. done.
Qed.

Lemma plan_synthesis_step : post (fits_plan [] []) (synthesis_step cfg ad).
Proof.
  intros st.
  destruct (synthesis_step_run cfg ad st) as (l0 & l1 & H0 & H1 & _ & E & _).
  simpl in E. eexists. split; [exact E|].
  unfold fits_plan. rewrite plan_run_app, plan_run_quiet.
  2:{ eapply all_of_mono; [|exact H0]. kinds_sub. }
  simpl. rewrite plan_run_quiet; [done|].
  eapply all_of_mono; [|exact H1]. kinds_sub.
Qed.

Lemma plan_research : post (fits_plan [] []) (research cfg ad).
Proof.
  unfold research.
  apply (plan_bind _ []); [apply plan_first_pass|intros round_no].
  apply (plan_bind _ []); [apply plan_follow_up_rounds|intros _].
  apply plan_synthesis_step.
Qed.
End Plan.

(** X12: the provider is searched for the queries the agents handed
    in and for nothing else: first the batch of the query agent, then,
    after every follow-up decision that asks for more research, the
    batch of that decision; each query once, in the order of the
    batch; a decision that declines starts no search; the follow-up
    agent and the synthesis agent are only called when the batch is
    used up; and nothing is left to search when [research] returns. *)
Theorem research_searches_follow_plan {W} (cfg : config) (ad : adapters W)
    (st : state W) :
  ∃ tr,
    trace (research cfg ad st).2 = trace st ++ tr
    ∧ is_Some (plan_run [] tr)
    ∧ (is_Ok (research cfg ad st).1 = true → plan_run [] tr = Some []).
Proof. exact (plan_research cfg ad st). Qed.

(** ** The callbacks only observe *)

Lemma without_callbacks_app (a b : list event) :
  without_callbacks (a ++ b) = without_callbacks a ++ without_callbacks b.
Proof. apply List.filter_app. Qed.

Section Silent.
Context {W : Type} (cfg : config) (ad : adapters W).

Lemma sb_ret {A} (a : A) : same_behaviour (mret a : M W A) (mret a).
Proof. by intros st1 st2 H. Qed.

Lemma sb_bind {A B} (c1 c2 : M W A) (k1 k2 : A → M W B) :
  same_behaviour c1 c2 → (∀ a, same_behaviour (k1 a) (k2 a)) →
  same_behaviour (c1 ≫= k1) (c2 ≫= k2).
Proof.
  intros Hc Hk st1 st2 H. rewrite !bind_run.
  destruct (Hc st1 st2 H) as [Ho Hs].
  destruct (c1 st1) as [o1 st1'], (c2 st2) as [o2 st2']. simpl in *. subst o2.
  destruct o1 as [a|e|]; [by apply Hk|done..].
Qed.

Lemma sb_for_each {A} (l : list A) (b1 b2 : A → M W unit) :
  (∀ x, same_behaviour (b1 x) (b2 x)) →
  same_behaviour (for_each l b1) (for_each l b2).
Proof.
  intros Hb. induction l as [|x l IH]; [apply sb_ret|].
  rewrite !for_each_cons. apply sb_bind; [apply Hb|]. by intros [].
Qed.

Lemma sb_try_except {A} (b1 b2 : M W A) (h1 h2 : exn → M W A) :
  same_behaviour b1 b2 → (∀ e, same_behaviour (h1 e) (h2 e)) →
  same_behaviour (try_except b1 h1) (try_except b2 h2).
Proof.
  intros Hb Hh st1 st2 H. unfold try_except.
  destruct (Hb st1 st2 H) as [Ho Hs].
  destruct (b1 st1) as [o1 st1'], (b2 st2) as [o2 st2']. simpl in *. subst o2.
  destruct o1 as [a|e|]; [done|by apply Hh|done].
Qed.

Lemma sb_pure {A} (x : outcome A) :
  same_behaviour (λ st : state W, (x, st)) (λ st, (x, st)).
Proof. by intros st1 st2 H. Qed.

(** A log line and a thought change nothing but the callback
    events, whatever the message and whether or not the callback is
    there. *)
Lemma sb_log cfg1 cfg2 msg1 msg2 :
  same_behaviour (@_log W cfg1 msg1) (@_log W cfg2 msg2).
Proof.
  intros st1 st2 (Hr & Hq & Hw & Ht). unfold _log, emit.
  destruct (on_log cfg1), (on_log cfg2); simpl; (split; [done|]);
    unfold same_effects; simpl;
    rewrite ?without_callbacks_app; simpl; by rewrite ?app_nil_r.
Qed.

Lemma sb_thought cfg1 cfg2 msg1 msg2 :
  same_behaviour (@_thought W cfg1 msg1) (@_thought W cfg2 msg2).
Proof.
  intros st1 st2 (Hr & Hq & Hw & Ht). unfold _thought, emit.
  destruct (on_thought cfg1), (on_thought cfg2); simpl; (split; [done|]);
    unfold same_effects; simpl;
    rewrite ?without_callbacks_app; simpl; by rewrite ?app_nil_r.
Qed.

Lemma sb_emit e : same_behaviour (@emit W e) (emit e).
Proof.
  intros st1 st2 (Hr & Hq & Hw & Ht). unfold emit. simpl.
  split; [done|]. unfold same_effects. simpl.
  by rewrite !without_callbacks_app, Ht.
Qed.

Lemma sb_call {A} (oracle : W → (A + exn) * W) ev :
  same_behaviour (call oracle ev) (call oracle ev).
Proof.
  intros st1 st2 (Hr & Hq & Hw & Ht). unfold call. rewrite Hw.
  destruct (oracle (world st2)) as [r w']. simpl.
  split; [done|]. unfold same_effects. simpl.
  by rewrite !without_callbacks_app, Ht.
Qed.

Lemma sb_get_search_results :
  same_behaviour (@get_search_results W) get_search_results.
Proof.
  intros st1 st2 H. unfold get_search_results. simpl.
  split; [|done]. destruct H as [-> _]. done.
Qed.

Lemma sb_get_generated_queries :
  same_behaviour (@get_generated_queries W) get_generated_queries.
Proof.
  intros st1 st2 H. unfold get_generated_queries. simpl.
  split; [|done]. destruct H as (_ & -> & _). done.
Qed.

Lemma sb_set_generated_queries l :
  same_behaviour (@set_generated_queries W l) (set_generated_queries l).
Proof. by intros st1 st2 (Hr & Hq & Hw & Ht). Qed.

Lemma sb_append_search_result r :
  same_behaviour (@append_search_result W r) (append_search_result r).
Proof.
  intros st1 st2 (Hr & Hq & Hw & Ht). split; [done|].
  unfold same_effects. simpl. by rewrite Hr.
Qed.

Ltac sb_go :=
  repeat first
    [ assumption
    | match goal with H : _ |- same_behaviour _ _ => apply H end
    | apply sb_ret
    | apply sb_log
    | apply sb_thought
    | apply sb_emit
    | apply sb_call
    | apply sb_pure
    | apply sb_get_search_results
    | apply sb_get_generated_queries
    | apply sb_set_generated_queries
    | apply sb_append_search_result
    | match goal with
      | |- same_behaviour (if ?b then _ else _) _ => destruct b
      | |- same_behaviour (match ?x with (_, _) => _ end) _ => destruct x
      | |- same_behaviour (for_each _ _) _ => apply sb_for_each
      | |- same_behaviour (try_except _ _) _ => apply sb_try_except
      | |- same_behaviour (_ ≫= _) _ => apply sb_bind
      | |- same_behaviour _ _ => fail 1
      | |- ∀ _, _ => intros ?
      end ].

Lemma sb_score_loop q raw ranked :
  same_behaviour (@score_loop W cfg q raw ranked)
    (score_loop (silent cfg) q raw ranked).
Proof. revert ranked. induction raw as [|r raw IH]; intros ranked; simpl; sb_go. Qed.

Lemma sb_summarize_pick x :
  same_behaviour (summarize_pick cfg ad x) (summarize_pick (silent cfg) ad x).
Proof.
  unfold summarize_pick, run_search_agent. destruct x as [[score title] url].
  sb_go.
Qed.

Lemma sb_research_queries queries :
  same_behaviour (_research_queries cfg ad queries)
    (_research_queries (silent cfg) ad queries).
Proof.
  unfold _research_queries, research_query, _ddg_search. simpl.
  pose proof sb_score_loop. pose proof sb_summarize_pick. sb_go.
Qed.

Lemma sb_follow_up_decision :
  same_behaviour (_follow_up_decision cfg ad)
    (_follow_up_decision (silent cfg) ad).
Proof.
  unfold _follow_up_decision, _findings_text, run_follow_up_decision_agent,
    findings_digest.
  simpl. sb_go.
Qed.

Lemma sb_synthesis_step :
  same_behaviour (synthesis_step cfg ad) (synthesis_step (silent cfg) ad).
Proof.
  unfold synthesis_step, _synthesize, run_synthesis_agent, _section,
    synthesis_digest, synthesis_preamble.
  simpl. sb_go.
Qed.

Lemma sb_follow_up_rounds fuel round_no :
  same_behaviour (follow_up_rounds cfg ad fuel round_no)
    (follow_up_rounds (silent cfg) ad fuel round_no).
Proof.
  revert round_no.
  pose proof sb_follow_up_decision. pose proof sb_research_queries.
  induction fuel as [|fuel IH]; intros round_no; simpl;
    destruct (round_no <? max_rounds cfg); unfold _section, diverge; sb_go.
Qed.

Lemma sb_first_pass :
  same_behaviour (first_pass cfg ad) (first_pass (silent cfg) ad).
Proof.
  unfold first_pass, first_round, run_query_agent, _section. simpl.
  pose proof sb_research_queries. sb_go.
Qed.

Lemma sb_research :
  same_behaviour (research cfg ad) (research (silent cfg) ad).
Proof.
  unfold research. simpl.
  pose proof sb_first_pass. pose proof sb_follow_up_rounds.
  pose proof sb_synthesis_step. sb_go.
Qed.

Lemma silent_no_callbacks :
  respects (ext (only [K_query_agent; K_ddg_text; K_search_agent;
                       K_follow_up_agent; K_synthesis_agent; K_round]))
    (research (silent cfg) ad).
Proof.
  set (ks := [K_query_agent; K_ddg_text; K_search_agent;
              K_follow_up_agent; K_synthesis_agent; K_round]).
  assert (∀ msg, respects (ext (only ks)) (@_log W (silent cfg) msg)) as Hlog.
  { intros msg st. unfold _log. simpl. reflexivity. }
  assert (∀ msg, respects (ext (only ks)) (@_thought W (silent cfg) msg)) as Hth.
  { intros msg st. unfold _thought. simpl. reflexivity. }
  assert (∀ e, kind_of e ∈ ks → respects (@ext W (only ks)) (emit e)) as Hemit.
  { intros e He. by apply emit_ext. }
  assert (∀ A (oracle : W → (A + exn) * W) ev,
            (∀ r, kind_of (ev r) ∈ ks) → respects (ext (only ks)) (call oracle ev))
    as Hcall.
  { intros A oracle ev He. by apply call_ext. }
  assert (∀ l, respects (@ext W (only ks)) (set_generated_queries l)) as Hset.
  { intros l. apply ext_set_generated_queries. }
  assert (∀ r, respects (@ext W (only ks)) (append_search_result r)) as Happ.
  { intros r. apply ext_append_search_result. }
  assert (∀ q raw ranked,
            respects (ext (only ks)) (@score_loop W (silent cfg) q raw ranked))
    as Hscore.
  { intros q raw. induction raw as [|r raw IH]; intros ranked; simpl.
    - apply respects_ret. apply _.
    - apply respects_bind; [apply _|apply respects_pure; apply _|intros c].
      apply respects_bind; [apply _|apply Hlog|intros _]. apply IH. }
  assert (∀ x, respects (ext (only ks)) (summarize_pick (silent cfg) ad x)) as Hsum.
  { intros [[score title] url]. unfold summarize_pick, run_search_agent.
    repeat first
      [ apply Hlog | apply Happ
      | apply Hcall; intros ?; simpl; kind_in
      | apply respects_bind; [apply _| |intros ?] ]. }
  assert (∀ queries,
            respects (ext (only ks)) (_research_queries (silent cfg) ad queries))
    as Hrq.
  { intros queries. unfold _research_queries, research_query, _ddg_search.
    repeat first
      [ apply Hlog | apply Hscore | apply Hsum
      | apply respects_ret; apply _
      | apply Hemit; simpl; kind_in
      | apply Hcall; intros ?; simpl; kind_in
      | apply respects_for_each; [apply _|intros ?]
      | apply respects_try_except; [apply _| |intros ?]
      | apply respects_bind; [apply _| |intros ?] ]. }
  assert (respects (ext (only ks)) (_follow_up_decision (silent cfg) ad)) as Hfd.
  { unfold _follow_up_decision, _findings_text, run_follow_up_decision_agent.
    repeat first
      [ apply Hlog
      | apply respects_ret; apply _
      | apply (respects_read _ search_results)
      | apply Hcall; intros ?; simpl; kind_in
      | apply respects_for_each; [apply _|intros ?]
      | apply respects_bind; [apply _| |intros ?]
      | match goal with
        | |- respects _ (if ?b then _ else _) => destruct b
        end ]. }
  assert (respects (ext (only ks)) (synthesis_step (silent cfg) ad)) as Hsy.
  { unfold synthesis_step, _synthesize, run_synthesis_agent, _section.
    repeat first
      [ apply Hlog
      | apply respects_ret; apply _
      | apply (respects_read _ search_results)
      | apply Hcall; intros ?; simpl; kind_in
      | apply respects_bind; [apply _| |intros ?] ]. }
  assert (∀ fuel round_no,
            respects (ext (only ks)) (follow_up_rounds (silent cfg) ad fuel round_no))
    as Hfr.
  { induction fuel as [|fuel IH]; intros round_no; simpl;
      destruct (round_no <? max_rounds cfg); unfold _section;
      repeat first
        [ apply Hlog | apply Hfd | apply Hrq | apply IH
        | apply respects_ret; apply _
        | apply respects_diverge; apply _
        | apply respects_bind; [apply _| |intros ?]
        | match goal with
          | |- respects _ (if ?b then _ else _) => destruct b
          end ]. }
  unfold research, first_pass, first_round, run_query_agent, _section.
  repeat first
    [ apply Hlog | apply Hth | apply Hrq | apply Hfr | apply Hsy | apply Hset
    | apply respects_ret; apply _
    | apply (respects_read _ generated_queries)
    | apply Hcall; intros ?; simpl; kind_in
    | apply respects_for_each; [apply _|intros ?]
    | apply respects_bind; [apply _| |intros ?]
    | match goal with
      | |- respects _ (if ?b then _ else _) => destruct b
      end ].
Qed.
End Silent.

(** X13: providing the callbacks changes nothing but the calls of the
    callbacks.  (By the convention of the embedding a callback returns
    and touches neither the coordinator nor the world of the agents; a
    callback that raises ends [research] with its exception.)  With
    and without [on_log] and [on_thought], [research] has the same
    outcome, leaves the same results and generated queries, and makes
    the same calls to the agents and the search provider with the same
    answers, in the same order: nothing the coordinator does depends on
    a callback being there.  Without callbacks the trace holds no
    callback event. *)
Theorem research_callbacks_only_observe {W} (cfg : config) (ad : adapters W)
    (st : state W) :
  (research cfg ad st).1 = (research (silent cfg) ad st).1
  ∧ search_results (research cfg ad st).2
    = search_results (research (silent cfg) ad st).2
  ∧ generated_queries (research cfg ad st).2
    = generated_queries (research (silent cfg) ad st).2
  ∧ world (research cfg ad st).2 = world (research (silent cfg) ad st).2
  ∧ without_callbacks (trace (research cfg ad st).2)
    = without_callbacks (trace (research (silent cfg) ad st).2)
  ∧ ∃ tr, trace (research (silent cfg) ad st).2 = trace st ++ tr
          ∧ without_callbacks tr = tr.
Proof.
  destruct (sb_research cfg ad st st) as (Ho & Hr & Hq & Hw & Ht); [done|].
  repeat (split; [done|]).
  destruct (silent_no_callbacks cfg ad st) as (tr & E & Htr).
  exists tr. split; [done|].
  unfold without_callbacks. clear E.
  induction tr as [|e tr IH]; [done|].
  simpl in Htr. apply andb_true_iff in Htr as [He Htr].
  simpl. rewrite (IH Htr).
  apply bool_decide_eq_true in He.
  destruct e; simpl in *; try done; exfalso; revert He; not_in.
Qed.

(** ** The digests of one session extend each other *)

Lemma take_prefix_le {A} (n m : nat) (l : list A) :
  (n ≤ m)%nat → take n l `prefix_of` take m l.
Proof.
  intros H. replace n with (n `min` m)%nat by lia.
  rewrite <- take_take. apply prefix_take.
Qed.

Lemma numbered_entries_prefix (rs1 rs2 : list SearchResult.t) :
  rs1 `prefix_of` rs2 → numbered_entries rs1 `prefix_of` numbered_entries rs2.
Proof.
  intros [k ->]. unfold numbered_entries. rewrite imap_app. by eexists.
Qed.

(** X14: within one call of [research], a later digest extends an
    earlier one: of two calls that are sent a digest, the earlier got
    the digest of a prefix of the results the later got, so a result
    keeps its number from one digest to the next, and both are
    prefixes of the results the coordinator ends with. *)
Theorem digests_extend {W} (cfg : config) (ad : adapters W) (w : W)
    (tr1 : list event) (e1 : event) (tr2 : list event) (e2 : event)
    (tr3 : list event) :
  trace (research cfg ad (init_state w)).2 = tr1 ++ e1 :: tr2 ++ e2 :: tr3 →
  is_digest_call e1 = true → is_digest_call e2 = true →
  ∃ rs1 rs2,
    sent_digest_of cfg e1 rs1
    ∧ sent_digest_of cfg e2 rs2
    ∧ rs1 `prefix_of` rs2
    ∧ rs2 `prefix_of` search_results (research cfg ad (init_state w)).2
    ∧ numbered_entries rs1 `prefix_of` numbered_entries rs2.
Proof.
  intros E H1 H2.
  destruct (research_keeps cfg ad (init_state w)) as [_ Hdig]; [by split|].
  set (rs := search_results (research cfg ad (init_state w)).2) in *.
  pose proof (digests_from_split cfg rs _ Hdig tr1 e1 (tr2 ++ e2 :: tr3) E) as D1.
  assert (trace (research cfg ad (init_state w)).2
          = (tr1 ++ e1 :: tr2) ++ e2 :: tr3) as E'.
  { rewrite E. by rewrite <- (assoc_L (++)). }
  pose proof (digests_from_split cfg rs _ Hdig (tr1 ++ e1 :: tr2) e2 tr3 E') as D2.
  exists (take (length (summaries_of tr1)) rs),
    (take (length (summaries_of (tr1 ++ e1 :: tr2))) rs).
  assert (take (length (summaries_of tr1)) rs
            `prefix_of` take (length (summaries_of (tr1 ++ e1 :: tr2))) rs) as Hpre.
  { apply take_prefix_le. rewrite summaries_of_app, length_app. lia. }
  split; [by destruct e1 as [| | | | |? ?|? ?|]|].
  split; [by destruct e2 as [| | | | |? ?|? ?|]|].
  split; [done|]. split; [apply prefix_take|].
  by apply numbered_entries_prefix.
Qed.

(** Witness of X14: two rounds without callbacks; the follow-up agent
    is sent the digest of one result, the synthesis agent the digest
    of two. *)
Lemma digests_extend_witness :
  let cfg := silent (example_config "python" 2) in
  let st := (research cfg (example_adapters true) (init_state ())).2 in
  ∃ e1 e2 rs1 rs2,
    trace st !! 4%nat = Some e1 ∧ trace st !! 8%nat = Some e2
    ∧ sent_digest_of cfg e1 rs1
    ∧ sent_digest_of cfg e2 rs2
    ∧ rs1 `prefix_of` rs2
    ∧ rs2 `prefix_of` search_results st
    ∧ numbered_entries rs1 `prefix_of` numbered_entries rs2.
Proof.
  pose (cfg := silent (example_config "python" 2)).
  pose (tr := trace (research cfg (example_adapters true) (init_state ())).2).
  pose (e1 := Ev_follow_up_agent
                (findings_digest cfg
                   [SearchResult.mk (PyStr "Python") (PyStr "https://python.org")
                      "a summary"])
                (inl (FollowUpDecisionResponse.mk true "because" ["python language"]))).
  pose (e2 := Ev_synthesis_agent
                (synthesis_digest cfg
                   [SearchResult.mk (PyStr "Python") (PyStr "https://python.org")
                      "a summary";
                    SearchResult.mk (PyStr "Python") (PyStr "https://python.org")
                      "a summary"])
                (inl "report [1]")).
  destruct (digests_extend cfg (example_adapters true) ()
              (take 4 tr) e1 (take 3 (drop 5 tr)) e2 (drop 9 tr))
    as (rs1 & rs2 & H); [by vm_compute..|].
  exists e1, e2, rs1, rs2. split; [by vm_compute|]. split; [by vm_compute|].
  exact H.
Defined.

(** ** [strip_ansi] *)

Lemma match_none_not_esc (c : ascii) (s : string) :
  Ascii.eqb c ESC = false → ANSI_ESCAPE_RE_match (String c s) = None.
Proof. intros H. destruct s as [|b s]; simpl; [done|]. by rewrite H. Qed.

Lemma sub_plain_app (a s : string) :
  plain_text a →
  ANSI_ESCAPE_RE_sub_from O (a +:+ s) = a +:+ ANSI_ESCAPE_RE_sub_from O s.
Proof.
  unfold plain_text. induction a as [|c a IH]; [done|].
  simpl string_forallb. intros [[Hc _]%andb_true_iff Ha]%andb_true_iff.
  apply negb_true_iff in Hc.
  rewrite !app_cons. cbn [ANSI_ESCAPE_RE_sub_from].
  rewrite (match_none_not_esc c _ Hc). by rewrite IH.
Qed.

Lemma remove_plain_app (a s : string) :
  plain_text a → Text.remove CR (a +:+ s) = a +:+ Text.remove CR s.
Proof.
  unfold plain_text. induction a as [|c a IH]; [done|].
  simpl string_forallb. intros [[_ Hc]%andb_true_iff Ha]%andb_true_iff.
  apply negb_true_iff in Hc.
  rewrite !app_cons. simpl. by rewrite Hc, IH.
Qed.

Lemma sub_skip (t s : string) :
  ANSI_ESCAPE_RE_sub_from (String.length t) (t +:+ s)
  = ANSI_ESCAPE_RE_sub_from O s.
Proof.
  induction t as [|c t IH]; [by destruct s|].
  rewrite app_cons. simpl. apply IH.
Qed.

(** The longest run of [p] ends where a character fails [p]. *)
Lemma span_run (p : ascii → bool) (t : string) (c : ascii) (rest : string) :
  string_forallb p t = true → p c = false →
  Text.span p (t +:+ String c rest) = (String.length t, String c rest).
Proof.
  intros Ht Hc. induction t as [|x t IH]; simpl.
  - by rewrite Hc.
  - simpl in Ht. apply andb_true_iff in Ht as [Hx Ht].
    rewrite ?app_cons. simpl. by rewrite Hx, IH.
Qed.

Lemma inter_not_param c : Str.in_range 32 47 c = true → Str.in_range 48 63 c = false.
Proof. destruct c as [[] [] [] [] [] [] [] []]; done. Qed.

Lemma final_not_param c : Str.in_range 64 126 c = true → Str.in_range 48 63 c = false.
Proof. destruct c as [[] [] [] [] [] [] [] []]; done. Qed.

Lemma final_not_inter c : Str.in_range 64 126 c = true → Str.in_range 32 47 c = false.
Proof. destruct c as [[] [] [] [] [] [] [] []]; done. Qed.

Lemma length_append (a b : string) :
  String.length (a +:+ b) = (String.length a + String.length b)%nat.
Proof. induction a as [|c a IH]; [done|]. rewrite app_cons. simpl. by rewrite IH. Qed.

Lemma match_sequence (params inter : string) (final : ascii) (s : string) :
  well_formed_sequence params inter final →
  ANSI_ESCAPE_RE_match (control_sequence params inter final +:+ s)
  = Some (String.length (control_sequence params inter final)).
Proof.
  intros (Hp & Hi & Hf). unfold control_sequence.
  rewrite !app_cons. unfold ANSI_ESCAPE_RE_match.
  change (Ascii.eqb ESC ESC && Ascii.eqb "[" "[") with true. cbv iota.
  rewrite !append_assoc, app_cons, app_nil_l.
  assert (Text.span (Str.in_range 48 63) (params +:+ inter +:+ String final s)
          = (String.length params, inter +:+ String final s)) as ->.
  { destruct inter as [|i inter].
    - rewrite app_nil_l. apply span_run; [done|]. by apply final_not_param.
    - rewrite app_cons. apply span_run; [done|].
      simpl in Hi. apply andb_true_iff in Hi as [Hi _]. by apply inter_not_param. }
  rewrite (span_run _ inter final s Hi (final_not_inter _ Hf)), Hf.
  f_equal. simpl. rewrite !length_append. simpl. lia.
Qed.

Lemma sub_sequence (params inter : string) (final : ascii) (s : string) :
  well_formed_sequence params inter final →
  ANSI_ESCAPE_RE_sub (control_sequence params inter final +:+ s)
  = ANSI_ESCAPE_RE_sub s.
Proof.
  intros H. unfold ANSI_ESCAPE_RE_sub.
  pose proof (match_sequence params inter final s H) as Hm.
  unfold control_sequence in *. rewrite app_cons in *.
  cbn [ANSI_ESCAPE_RE_sub_from]. rewrite Hm.
  cbn [String.length Nat.pred]. apply sub_skip.
Qed.

Lemma sub_from_length (skip : nat) (s : string) :
  (String.length (ANSI_ESCAPE_RE_sub_from skip s) ≤ String.length s)%nat.
Proof.
  revert skip. induction s as [|c s IH]; intros skip; [done|].
  cbn [ANSI_ESCAPE_RE_sub_from]. destruct skip as [|k].
  - destruct (ANSI_ESCAPE_RE_match _).
    + specialize (IH (Nat.pred n)). simpl. lia.
    + specialize (IH O). simpl. lia.
  - specialize (IH k). simpl. lia.
Qed.

Lemma remove_length (c : ascii) (s : string) :
  (String.length (Text.remove c s) ≤ String.length s)%nat.
Proof.
  induction s as [|x s IH]; [done|]. simpl.
  destruct (Ascii.eqb x c); simpl; lia.
Qed.

Lemma remove_gone (c : ascii) (s : string) :
  string_forallb (λ x, negb (Ascii.eqb x c)) (Text.remove c s) = true.
Proof.
  induction s as [|x s IH]; [done|]. simpl.
  destruct (Ascii.eqb x c) eqn:E; [done|]. simpl. by rewrite E.
Qed.

Lemma strip_ansi_plain (a : string) : plain_text a → strip_ansi a = a.
Proof.
  intros Ha. unfold strip_ansi, ANSI_ESCAPE_RE_sub.
  rewrite <- (append_nil_r a) at 1.
  rewrite sub_plain_app by done. simpl.
  rewrite remove_plain_app by done. simpl. apply append_nil_r.
Qed.

(** X15: [strip_ansi] returns a text without carriage return and never
    a longer one; it returns a text without escape character and
    carriage return as it is; it removes a control sequence that
    follows such a text; but its result may still hold a control
    sequence, so that stripping twice is not stripping once. *)
Theorem strip_ansi_removes_sequences :
  (∀ s, string_forallb (λ c, negb (Ascii.eqb c CR)) (strip_ansi s) = true)
  ∧ (∀ s, (String.length (strip_ansi s) ≤ String.length s)%nat)
  ∧ (∀ a, plain_text a → strip_ansi a = a)
  ∧ (∀ a params inter final s,
       plain_text a → well_formed_sequence params inter final →
       strip_ansi (a +:+ control_sequence params inter final +:+ s)
       = a +:+ strip_ansi s)
  ∧ (∃ s, strip_ansi s = control_sequence "0" "" "m"
          ∧ strip_ansi (strip_ansi s) ≠ strip_ansi s).
Proof.
  split; [intros s; apply remove_gone|].
  split.
  { intros s. unfold strip_ansi, ANSI_ESCAPE_RE_sub.
    etrans; [apply remove_length|apply sub_from_length]. }
  split.
  { apply strip_ansi_plain. }
  split.
  { intros a params inter final s Ha Hseq. unfold strip_ansi, ANSI_ESCAPE_RE_sub.
    rewrite sub_plain_app by done.
    fold (ANSI_ESCAPE_RE_sub (control_sequence params inter final +:+ s)).
    rewrite sub_sequence by done.
    by rewrite remove_plain_app. }
  exists (String ESC (String CR "[0m")). by vm_compute.
Qed.

(** ** [build_download_markdown] *)

Lemma rstrip_keep (p : string) (c : ascii) (b : string) :
  Str.isspace c = false →
  Text.rstrip (p +:+ String c b) = p +:+ String c (Text.rstrip b).
Proof.
  intros Hc. induction p as [|d p IH].
  - rewrite app_nil_l. simpl. rewrite Hc. by destruct (Text.rstrip b).
  - rewrite !app_cons. simpl. rewrite IH.
    by destruct p.
Qed.

Lemma rstrip_idemp (s : string) : Text.rstrip (Text.rstrip s) = Text.rstrip s.
Proof.
  induction s as [|c s IH]; [done|]. simpl.
  destruct (Text.rstrip s) as [|d r] eqn:E.
  - destruct (Str.isspace c) eqn:Hc; [done|]. simpl. by rewrite Hc.
  - simpl in *. by rewrite IH.
Qed.

Lemma lstrip_head (s : string) :
  Text.lstrip s = EmptyString
  ∨ ∃ c r, Text.lstrip s = String c r ∧ Str.isspace c = false.
Proof.
  induction s as [|c s IH]; [by left|]. simpl.
  destruct (Str.isspace c) eqn:Hc; [done|]. right. by exists c, s.
Qed.

(** A stripped text is empty or begins and ends with a character that
    is no white space. *)
Lemma strip_shape (s : string) :
  Text.strip s = EmptyString
  ∨ ∃ c r, Text.strip s = String c (Text.rstrip r) ∧ Str.isspace c = false.
Proof.
  unfold Text.strip. destruct (lstrip_head s) as [->|(c & r & -> & Hc)].
  - by left.
  - right. exists c, r. split; [|done].
    by rewrite <- (app_nil_l (String c r)), rstrip_keep.
Qed.

Lemma strip_idemp (s : string) : Text.strip (Text.strip s) = Text.strip s.
Proof.
  destruct (strip_shape s) as [->|(c & r & -> & Hc)]; [done|].
  unfold Text.strip. simpl. rewrite Hc.
  rewrite <- (app_nil_l (String c (Text.rstrip r))), rstrip_keep by done.
  by rewrite rstrip_idemp.
Qed.







Lemma prefix_app (a b : string) : String.prefix a (a +:+ b) = true.
Proof. apply prefix_spec. by exists b. Qed.




(** ** The collector of the live log *)

Lemma note_line_cases (r : redirector) (line : string) :
  note_line r line = r
  ∨ ∃ content,
      kept_thought content ∧ (content ∉ _thoughts r)
      ∧ note_line r line
        = {| _buffer := _buffer r;
             _thoughts := _thoughts r ++ [content];
             shown := shown r
               ++ [Ui_thinking
                     (Str.join nl (map (λ t, "- *" +:+ t +:+ "*")
                                     (_thoughts r ++ [content])))] |}.
Proof.
  unfold note_line.
  destruct (_ || _); [|by left].
  destruct (split1 _ _) as [|p0 [|p1 [|]]]; try by left.
  destruct (Str.nonempty (Text.strip p1)) eqn:Hne; [|by left].
  destruct (bool_decide (Text.strip p1 ∈ _thoughts r)) eqn:Hin; [by left|].
  right. exists (Text.strip p1). split; [split; [done|apply strip_idemp]|].
  split; [|done]. by apply bool_decide_eq_false in Hin.
Qed.

(** What a line, and a list of lines, keep of the collector. *)
Lemma note_lines_keep (lines : list string) (r : redirector) :
  let r' := fold_left note_line lines r in
  _buffer r' = _buffer r
  ∧ _thoughts r `prefix_of` _thoughts r'
  ∧ shown r `prefix_of` shown r'
  ∧ (NoDup (_thoughts r) → NoDup (_thoughts r'))
  ∧ (Forall kept_thought (_thoughts r) → Forall kept_thought (_thoughts r'))
  ∧ (length (filter (λ e, is_thinking e = true) (shown r'))
     + length (_thoughts r)
     = length (filter (λ e, is_thinking e = true) (shown r))
       + length (_thoughts r'))%nat.
Proof.
  simpl. revert r. induction lines as [|line lines IH]; intros r; simpl.
  - repeat split; done.
  - destruct (IH (note_line r line)) as (Hb & Ht & Hs & Hn & Hf & Hc).
    destruct (note_line_cases r line) as [E|(content & Hok & Hnew & E)];
      rewrite E in *; [done|]. simpl in *.
    split; [done|].
    split; [etrans; [|exact Ht]; by apply prefix_app_r|].
    split; [etrans; [|exact Hs]; by apply prefix_app_r|].
    split.
    { intros Hnd. apply Hn. apply NoDup_app. split; [done|].
      split; [|apply NoDup_singleton].
      intros x Hx Hx'. apply list_elem_of_singleton in Hx'. by subst. }
    split.
    { intros Hall. apply Hf. apply Forall_app. split; [done|]. by constructor. }
    rewrite filter_app, !length_app, filter_cons, decide_True, filter_nil in Hc
      by done.
    simpl in Hc. lia.
Qed.

(** X17: [write] returns the length of its argument and appends a
    non-empty argument to the buffer; it only adds to the thoughts and
    to what is shown; the thoughts stay free of duplicates, non-empty
    and stripped; and the thinking log is shown again exactly once per
    thought added. *)
Theorem write_keeps_thoughts_unique (r : redirector) (s : string) :
  (write r s).1 = Z.of_nat (String.length s)
  ∧ _buffer (write r s).2
    = _buffer r ++ (if Str.nonempty s then [s] else [])
  ∧ _thoughts r `prefix_of` _thoughts (write r s).2
  ∧ shown r `prefix_of` shown (write r s).2
  ∧ (NoDup (_thoughts r) → NoDup (_thoughts (write r s).2))
  ∧ (Forall kept_thought (_thoughts r) →
     Forall kept_thought (_thoughts (write r s).2))
  ∧ (length (filter (λ e, is_thinking e = true) (shown (write r s).2))
     + length (_thoughts r)
     = length (filter (λ e, is_thinking e = true) (shown r))
       + length (_thoughts (write r s).2))%nat.
Proof.
  unfold write. destruct (Str.nonempty s) eqn:Hs; simpl.
  - match goal with
    | |- context [fold_left note_line ?l ?r0] =>
        destruct (note_lines_keep l r0) as (Hb & Ht & Hsh & Hn & Hf & Hc)
    end.
    simpl in *. split; [done|]. split; [done|]. split; [done|].
    split; [etrans; [|exact Hsh]; by apply prefix_app_r|].
    split; [done|]. split; [done|].
    rewrite filter_app, length_app, filter_cons, decide_False, filter_nil in Hc
      by done.
    simpl in Hc. lia.
  - destruct s; [|done]. simpl. rewrite app_nil_r. by repeat split.
Qed.

(** *** From the callbacks to the thinking log *)

Lemma splitlines_one_line (cur t : string) :
  one_line t → splitlines_from cur (t +:+ nl) = [cur +:+ t].
Proof.
  unfold one_line. revert cur. induction t as [|c t IH]; intros cur.
  - intros _. rewrite app_nil_l, append_nil_r. reflexivity.
  - simpl string_forallb. intros [[Hc _]%andb_true_iff Ht]%andb_true_iff.
    apply negb_true_iff in Hc.
    rewrite app_cons. simpl. rewrite Hc, IH by done.
    by rewrite append_assoc.
Qed.

Lemma one_line_plain (t : string) : one_line t → plain_text t.
Proof.
  apply string_forallb_impl. intros c [Hl He]%andb_true_iff.
  rewrite He, andb_true_l.
  destruct (Ascii.eqb c CR) eqn:E; [|done].
  apply Ascii.eqb_eq in E. by subst.
Qed.

Lemma lstrip_rstrip (s : string) :
  Text.lstrip (Text.rstrip s) = Text.rstrip (Text.lstrip s).
Proof.
  induction s as [|c s IH]; [done|]. simpl.
  destruct (Str.isspace c) eqn:Hc.
  - destruct (Text.rstrip s) as [|d r] eqn:E.
    + by rewrite <- IH.
    + simpl. rewrite Hc. by rewrite <- IH.
  - rewrite <- (app_nil_l (String c s)), rstrip_keep by done.
    rewrite app_nil_l.
    destruct (Text.rstrip s); simpl; by rewrite Hc.
Qed.

Lemma lower_app (a b : string) :
  Str.lower (a +:+ b) = Str.lower a +:+ Str.lower b.
Proof. induction a as [|c a IH]; [done|]. rewrite app_cons. simpl. by rewrite IH. Qed.

Lemma split_once_app (sep : ascii) (a b : string) :
  string_forallb (λ c, negb (Ascii.eqb c sep)) a = true →
  split_once sep (a +:+ String sep b) = Some (a, b).
Proof.
  induction a as [|c a IH].
  - intros _. rewrite app_nil_l. simpl. by rewrite Ascii.eqb_refl.
  - simpl string_forallb. intros [Hc Ha]%andb_true_iff.
    apply negb_true_iff in Hc. rewrite app_cons. simpl.
    by rewrite Hc, IH.
Qed.

(** A line [label: msg] whose label announces a thought adds the
    stripped message to the thoughts, unless it is there already. *)
Lemma note_labelled (r : redirector) (label msg : string) (h : ascii) (m : string) :
  label = String h m → Str.isspace h = false →
  string_forallb (λ c, negb (Ascii.eqb c ":")) label = true →
  one_line label →
  Str.lower label = "thoughts" ∨ Str.lower label = "reasoning" →
  one_line msg → Str.nonempty (Text.strip msg) = true →
  Text.strip msg ∈ _thoughts (note_line r ((label +:+ ": ") +:+ msg)).
Proof.
  intros Hlabel Hh Hcolon Hl1 Hlow Hm1 Hne.
  set (rest := Text.rstrip (String " " msg)).
  assert ((label +:+ ": ") +:+ msg = label +:+ String ":" (String " " msg)) as Eline.
  { by rewrite append_assoc. }
  assert (Text.strip (strip_ansi ((label +:+ ": ") +:+ msg))
          = label +:+ String ":" rest) as Eclean.
  { rewrite strip_ansi_plain.
    2:{ apply one_line_plain. unfold one_line. rewrite Eline.
        rewrite string_forallb_app. unfold one_line in Hl1, Hm1.
        rewrite Hl1. simpl. by rewrite Hm1. }
    rewrite Eline. unfold Text.strip.
    assert (Text.lstrip (label +:+ String ":" (String " " msg))
            = label +:+ String ":" (String " " msg)) as ->.
    { rewrite Hlabel, app_cons. simpl. by rewrite Hh. }
    by rewrite rstrip_keep. }
  assert (Text.strip rest = Text.strip msg) as Econtent.
  { unfold rest, Text.strip. rewrite lstrip_rstrip, rstrip_idemp. done. }
  unfold note_line. rewrite Eclean.
  assert (String.prefix "thoughts:" (Str.lower (label +:+ String ":" rest))
          || String.prefix "reasoning:" (Str.lower (label +:+ String ":" rest))
          = true) as ->.
  { rewrite lower_app. simpl Str.lower.
    change (Str.lower_char ":") with ":"%char.
    destruct Hlow as [-> | ->].
    - change ("thoughts" +:+ String ":" (Str.lower rest))
        with ("thoughts:" +:+ Str.lower rest).
      by rewrite prefix_app.
    - change ("reasoning" +:+ String ":" (Str.lower rest))
        with ("reasoning:" +:+ Str.lower rest).
      by rewrite prefix_app, orb_true_r. }
  unfold split1. rewrite split_once_app by done.
  rewrite Econtent, Hne. simpl.
  destruct (bool_decide (Text.strip msg ∈ _thoughts r)) eqn:Hin; simpl.
  - by apply bool_decide_eq_true in Hin.
  - apply elem_of_app. right. by apply list_elem_of_singleton.
Qed.

Lemma write_one_line (r : redirector) (line : string) :
  one_line line → Str.nonempty line = true →
  _thoughts (write r (line +:+ nl)).2
  = _thoughts
      (note_line
         {| _buffer := _buffer r ++ [line +:+ nl];
            _thoughts := _thoughts r;
            shown := shown r
              ++ [Ui_log ("```text"
                          +:+ strip_ansi (Str.join "" (_buffer r ++ [line +:+ nl]))
                          +:+ "```")] |}
         line).
Proof.
  intros Hl Hne. unfold write.
  assert (Str.nonempty (line +:+ nl) = true) as -> by (by destruct line).
  simpl. unfold splitlines. rewrite splitlines_one_line by done.
  by rewrite app_nil_l.
Qed.

(** X18: what the coordinator hands to the callbacks reaches the
    thinking log: after [on_thought(msg)], and after [on_log] of the
    line ["Reasoning: " + msg] that reports a follow-up decision, the
    stripped message is among the thoughts, for a message of one line
    without escape character that is not blank. *)
Theorem callbacks_reach_thinking_log (r : redirector) (msg : string) :
  one_line msg → Str.nonempty (Text.strip msg) = true →
  Text.strip msg ∈ _thoughts (app_on_thought r msg)
  ∧ Text.strip msg ∈ _thoughts (app_on_log r ("Reasoning: " +:+ msg)).
Proof.
  intros Hm Hne. unfold app_on_thought, app_on_log.
  assert (∀ label, one_line label → one_line ((label +:+ ": ") +:+ msg)) as Hline.
  { intros label Hl. unfold one_line in *.
    rewrite !string_forallb_app, Hl, Hm. done. }
  split.
  - rewrite write_one_line; [|by apply (Hline "Thoughts")|done].
    by apply (note_labelled _ "Thoughts" msg "T" "houghts"); auto.
  - rewrite write_one_line; [|by apply (Hline "Reasoning")|done].
    by apply (note_labelled _ "Reasoning" msg "R" "easoning"); auto.
Qed.

(** Witness of X18: a thought and a reasoning. *)
Lemma callbacks_reach_thinking_log_witness :
  let r := {| _buffer := []; _thoughts := []; shown := [] |} in
  Text.strip " split the topic " ∈ _thoughts (app_on_thought r " split the topic ")
  ∧ Text.strip " split the topic "
    ∈ _thoughts (app_on_log r ("Reasoning: " +:+ " split the topic ")).
Proof.
  apply (callbacks_reach_thinking_log
           {| _buffer := []; _thoughts := []; shown := [] |} " split the topic ");
    by vm_compute.
Defined.

(** ** The greatest score *)

(** *** Powers of two and the number of bits *)

Lemma pow2_pos (a : Z) : 0 ≤ a → 0 < 2 ^ a.
Proof. intros. by apply Z.pow_pos_nonneg. Qed.

Lemma pow2_add (a b : Z) : 0 ≤ a → 0 ≤ b → 2 ^ (a + b) = 2 ^ a * 2 ^ b.
Proof. intros. by apply Z.pow_add_r. Qed.

Lemma pow2_le (a b : Z) : 0 ≤ a → a ≤ b → 2 ^ a ≤ 2 ^ b.
Proof. intros. apply Z.pow_le_mono_r; lia. Qed.

Lemma pow2_lt (a b : Z) : 0 ≤ a → a < b → 2 ^ a < 2 ^ b.
Proof. intros. apply Z.pow_lt_mono_r; lia. Qed.

Lemma pow2_lt_inv (a b : Z) : 0 ≤ a → 0 ≤ b → 2 ^ a < 2 ^ b → a < b.
Proof. intros Ha Hb H. apply Z.pow_lt_mono_r_iff in H; lia. Qed.

Lemma digits2_pos_bounds (p : positive) :
  2 ^ (Z.pos (digits2_pos p) - 1) ≤ Z.pos p < 2 ^ Z.pos (digits2_pos p).
Proof.
  induction p as [p IH|p IH|]; simpl digits2_pos.
  - rewrite Pos2Z.inj_succ. change (Z.pos p~1) with (2 * Z.pos p + 1).
    replace (Z.succ (Z.pos (digits2_pos p)) - 1) with (Z.succ (Z.pos (digits2_pos p) - 1)) by lia.
    rewrite !Z.pow_succ_r by lia. lia.
  - rewrite Pos2Z.inj_succ. change (Z.pos p~0) with (2 * Z.pos p).
    replace (Z.succ (Z.pos (digits2_pos p)) - 1) with (Z.succ (Z.pos (digits2_pos p) - 1)) by lia.
    rewrite !Z.pow_succ_r by lia. lia.
  - by vm_compute.
Qed.

Lemma digits2_pos_unique (p : positive) (k : Z) :
  2 ^ (k - 1) ≤ Z.pos p < 2 ^ k → Z.pos (digits2_pos p) = k.
Proof.
  intros [Hl Hu]. pose proof (digits2_pos_bounds p) as [Hl' Hu'].
  assert (0 < k).
  { destruct (Z.lt_ge_cases 0 k); [done|].
    rewrite Z.pow_neg_r in Hl by lia.
    assert (2 ^ k ≤ 1); [|lia].
    destruct (Z.eq_dec k 0) as [->|]; [done|].
    rewrite Z.pow_neg_r by lia. lia. }
  destruct (Z.lt_trichotomy (Z.pos (digits2_pos p)) k) as [Hlt|[Heq|Hgt]]; [|done|].
  - assert (2 ^ Z.pos (digits2_pos p) ≤ 2 ^ (k - 1)) by (apply pow2_le; lia). lia.
  - assert (2 ^ k ≤ 2 ^ (Z.pos (digits2_pos p) - 1)) by (apply pow2_le; lia). lia.
Qed.

(** *** Canonical mantissas *)

Lemma fexp_eq (x : Z) :
  fexp Float64.prec Float64.emax x = Z.max (x - 53) (-1074).
Proof. reflexivity. Qed.

Lemma canonical_inv (m : positive) (e : Z) :
  canonical_mantissa Float64.prec Float64.emax m e = true →
  -1074 ≤ e ∧ Z.pos m < 2 ^ 53 ∧ (-1074 < e → 2 ^ 52 ≤ Z.pos m).
Proof.
  unfold canonical_mantissa. rewrite fexp_eq. intros H%Z.eqb_eq.
  pose proof (digits2_pos_bounds m) as [Hl Hu].
  set (d := Z.pos (digits2_pos m)) in *.
  assert (0 < d) by (subst d; lia).
  split; [lia|]. split.
  - assert (2 ^ d ≤ 2 ^ 53) by (apply pow2_le; lia). lia.
  - intros He. assert (d = 53) as Hd by lia.
    rewrite Hd in Hl. exact Hl.
Qed.

Lemma canonical_intro (m : positive) (e : Z) :
  -1074 ≤ e → Z.pos m < 2 ^ 53 → (-1074 < e → 2 ^ 52 ≤ Z.pos m) →
  canonical_mantissa Float64.prec Float64.emax m e = true.
Proof.
  intros He Hu Hl. unfold canonical_mantissa. rewrite fexp_eq. apply Z.eqb_eq.
  pose proof (digits2_pos_bounds m) as [Hl' Hu'].
  set (d := Z.pos (digits2_pos m)) in *.
  assert (0 < d) by (subst d; lia).
  assert (d ≤ 53).
  { destruct (Z.le_gt_cases d 53); [done|].
    assert (2 ^ 53 ≤ 2 ^ (d - 1)) by (apply pow2_le; lia). lia. }
  destruct (Z.eq_dec e (-1074)) as [->|]; [lia|].
  assert (53 ≤ d); [|lia].
  destruct (Z.le_gt_cases 53 d); [done|].
  assert (2 ^ d ≤ 2 ^ 52) by (apply pow2_le; lia).
  specialize (Hl ltac:(lia)). lia.
Qed.

Ltac slia := unfold float_scale in *; lia.

Lemma scaled_pow (m a b : Z) :
  - float_scale ≤ a → a ≤ b → scaled m b = m * 2 ^ (b - a) * 2 ^ (a + float_scale).
Proof.
  intros Ha Hab. unfold scaled.
  replace (b + float_scale) with ((b - a) + (a + float_scale)) by lia.
  rewrite pow2_add by lia. lia.
Qed.

Lemma scale_pos (a : Z) : - float_scale ≤ a → 0 < 2 ^ (a + float_scale).
Proof. intros. apply pow2_pos. lia. Qed.

(** Of two canonical floats, the one that is not greater has the
    exponent that is not greater. *)
Lemma canonical_exp_le (m : positive) (e : Z) (m' : positive) (e' : Z) :
  canonical_mantissa Float64.prec Float64.emax m e = true →
  canonical_mantissa Float64.prec Float64.emax m' e' = true →
  scaled (Z.pos m) e ≤ scaled (Z.pos m') e' → e ≤ e'.
Proof.
  intros (He & Hu & Hl)%canonical_inv (He' & Hu' & Hl')%canonical_inv Hle.
  destruct (Z.le_gt_cases e e') as [|Hgt]; [done|]. exfalso.
  specialize (Hl ltac:(lia)).
  rewrite (scaled_pow _ e' e) in Hle by (unfold float_scale; lia).
  unfold scaled in Hle.
  pose proof (scale_pos e' ltac:(unfold float_scale; lia)) as Hp.
  assert (2 ^ 1 ≤ 2 ^ (e - e')) as Hq by (apply pow2_le; lia).
  change (2 ^ 1) with 2 in Hq.
  set (P := 2 ^ (e' + float_scale)) in *. set (Q := 2 ^ (e - e')) in *.
  assert (Z.pos m * Q ≤ Z.pos m') as Hc by nia.
  nia.
Qed.

(** A canonical float is determined by its value. *)
Lemma canonical_unique (m : positive) (e : Z) (m' : positive) (e' : Z) :
  canonical_mantissa Float64.prec Float64.emax m e = true →
  canonical_mantissa Float64.prec Float64.emax m' e' = true →
  scaled (Z.pos m) e = scaled (Z.pos m') e' → m = m' ∧ e = e'.
Proof.
  intros Hc Hc' Heq.
  assert (e = e') as <-.
  { apply Z.le_antisymm; eapply canonical_exp_le; eauto; lia. }
  split; [|done]. unfold scaled in Heq.
  apply canonical_inv in Hc as (He & _ & _).
  pose proof (scale_pos e ltac:(unfold float_scale; lia)).
  apply Z.mul_cancel_r in Heq; [|lia]. by injection Heq.
Qed.

(** The order of the floats is the order of their values. *)
Lemma leb_of_value (x : float) (m : positive) (e : Z) :
  canonical_nonneg x →
  canonical_mantissa Float64.prec Float64.emax m e = true →
  float_value x ≤ scaled (Z.pos m) e →
  SFleb x (S754_finite false m e) = true.
Proof.
  intros [->|Hx] Hc Hle; [done|].
  destruct x as [| | |[] mx ex]; try done. destruct Hx as [Hcx _]. simpl in Hle.
  pose proof (canonical_exp_le _ _ _ _ Hcx Hc Hle) as Hex.
  unfold SFleb, SFcompare.
  destruct (Z.compare_spec ex e) as [->|Hlt|Hgt]; [|done|lia].
  unfold scaled in Hle. apply canonical_inv in Hc as (He & _ & _).
  pose proof (scale_pos e ltac:(unfold float_scale; lia)).
  assert (Z.pos mx ≤ Z.pos m) as Hm by nia.
  fold (Pos.compare mx m). destruct (Pos.compare_spec mx m); try done. lia.
Qed.

(** *** Rounding *)

Lemma shr_1_div mrs : 0 ≤ shr_m mrs → shr_m (shr_1 mrs) = shr_m mrs / 2.
Proof.
  destruct mrs as [[|[p|p|]|p] r s]; simpl; intros H; try lia; try done.
  - change (Z.pos p~1) with (2 * Z.pos p + 1).
    apply (Z.div_unique _ _ _ 1); lia.
  - change (Z.pos p~0) with (2 * Z.pos p).
    apply (Z.div_unique _ _ _ 0); lia.
Qed.

Lemma iter_shr_1_div p mrs :
  0 ≤ shr_m mrs → shr_m (SpecFloat.iter_pos shr_1 p mrs) = shr_m mrs / 2 ^ Z.pos p.
Proof.
  revert mrs. induction p as [p IH|p IH|]; intros mrs H; simpl SpecFloat.iter_pos.
  - assert (0 ≤ shr_m (shr_1 mrs)) as H1 by by apply shr_1_nonneg.
    assert (0 ≤ shr_m (SpecFloat.iter_pos shr_1 p (shr_1 mrs))) as H2.
    { apply (iter_pos_preserves (λ x, 0 ≤ shr_m x)); auto using shr_1_nonneg. }
    rewrite IH, IH, shr_1_div by done.
    pose proof (pow2_pos (Z.pos p) ltac:(lia)).
    rewrite !Z.div_div by lia. f_equal.
    rewrite (Pos2Z.inj_xI p).
    replace (2 * Z.pos p + 1) with (1 + (Z.pos p + Z.pos p)) by lia.
    rewrite !pow2_add by lia. done.
  - assert (0 ≤ shr_m (SpecFloat.iter_pos shr_1 p mrs)) as H2.
    { apply (iter_pos_preserves (λ x, 0 ≤ shr_m x)); auto using shr_1_nonneg. }
    rewrite IH, IH by done.
    pose proof (pow2_pos (Z.pos p) ltac:(lia)).
    rewrite !Z.div_div by lia. f_equal.
    rewrite (Pos2Z.inj_xO p).
    replace (2 * Z.pos p) with (Z.pos p + Z.pos p) by lia.
    rewrite !pow2_add by lia. done.
  - by apply shr_1_div.
Qed.

(** The first step of the rounding: the mantissa loses the bits below
    the exponent of the result. *)
Lemma shr_fexp_div (m e : Z) (l : location) :
  0 ≤ m → e ≤ fexp Float64.prec Float64.emax (Zdigits2 m + e) →
  ∃ mrs, shr_fexp Float64.prec Float64.emax m e l
         = (mrs, fexp Float64.prec Float64.emax (Zdigits2 m + e))
    ∧ shr_m mrs = m / 2 ^ (fexp Float64.prec Float64.emax (Zdigits2 m + e) - e)
    ∧ (fexp Float64.prec Float64.emax (Zdigits2 m + e) = e →
       loc_of_shr_record mrs = l).
Proof.
  intros Hm He. unfold shr_fexp, shr.
  set (E := fexp Float64.prec Float64.emax (Zdigits2 m + e)) in *.
  destruct (E - e) as [|p|p] eqn:Hn; [|clear He|lia].
  - exists (shr_record_of_loc m l). split; [f_equal; lia|].
    rewrite shr_record_of_loc_m. change (2 ^ 0) with 1. rewrite Z.div_1_r.
    split; [done|]. intros _. by destruct l as [|[]].
  - eexists. split; [f_equal; lia|].
    rewrite iter_shr_1_div, shr_record_of_loc_m by by rewrite shr_record_of_loc_m.
    split; [done|]. lia.
Qed.

Lemma round_nearest_even_bounds (m : Z) (l : location) :
  m ≤ round_nearest_even m l ≤ m + 1.
Proof.
  unfold round_nearest_even. destruct l as [|[]]; try destruct (Z.even m); lia.
Qed.

(** The second step, on a mantissa of at most 53 bits or on [2 ^ 53]. *)
Lemma binary_round_aux_canonical (m E : Z) (mrs : shr_record) (l : location)
    (m0 e0 : Z) :
  shr_fexp Float64.prec Float64.emax m0 e0 l = (mrs, E) →
  round_nearest_even (shr_m mrs) (loc_of_shr_record mrs) = m →
  0 ≤ m ≤ 2 ^ 53 → -1074 ≤ E ≤ 971 → (m = 2 ^ 53 → E < 971) →
  (-1074 < E → 2 ^ 52 ≤ m) →
  let r := binary_round_aux Float64.prec Float64.emax false m0 e0 l in
  canonical_nonneg r ∧ float_value r = scaled m E.
Proof.
  intros H1 H2 Hm HE Hov Hl. cbv zeta. unfold binary_round_aux.
  rewrite H1, H2. clear H1 H2.
  destruct (Z.eq_dec m 0) as [->|Hne].
  { unfold shr_fexp, shr. simpl Zdigits2. rewrite fexp_eq.
    destruct (Z.max (0 + E - 53) (-1074) - E) eqn:Hn; try lia;
      (split; [by left|done]). }
  destruct (Z.eq_dec m (2 ^ 53)) as [->|Hne'].
  - specialize (Hov eq_refl). unfold shr_fexp. change (Zdigits2 (2 ^ 53)) with 54. rewrite fexp_eq.
    replace (Z.max (54 + E - 53) (-1074) - E) with 1 by lia.
    simpl. destruct (Z.leb_spec (E + 1) (Float64.emax - Float64.prec)) as [_|Hov'];
      [|unfold Float64.emax, Float64.prec in Hov'; lia].
    split.
    + right. split; [|lia]. apply canonical_intro; [lia|done|done].
    + simpl. rewrite (scaled_pow _ E (E + 1)) by (unfold float_scale; lia).
      replace (E + 1 - E) with 1 by lia. done.
  - destruct m as [|p|p]; [done| |lia].
    assert (canonical_mantissa Float64.prec Float64.emax p E = true) as Hc.
    { apply canonical_intro; lia. }
    unfold shr_fexp. simpl Zdigits2.
    unfold canonical_mantissa in Hc. apply Z.eqb_eq in Hc. rewrite Hc, Z.sub_diag.
    simpl. destruct (Z.leb_spec E (Float64.emax - Float64.prec)) as [_|Hov'];
      [|unfold Float64.emax, Float64.prec in Hov'; lia].
    split; [|done]. right. split; [|lia].
    unfold canonical_mantissa. by apply Z.eqb_eq.
Qed.

Lemma Zdigits2_bounds (m : Z) :
  0 ≤ m →
  0 ≤ Zdigits2 m ∧ m < 2 ^ Zdigits2 m ∧ (0 < Zdigits2 m → 2 ^ (Zdigits2 m - 1) ≤ m).
Proof.
  intros Hm. destruct m as [|p|p]; [done| |lia]. simpl.
  pose proof (digits2_pos_bounds p). lia.
Qed.

(** Rounding does not cross a float: what lies below a canonical float
    is rounded to a canonical float that is not above it. *)
Lemma binary_round_aux_below (m e : Z) (l : location) (mB : positive) (eB : Z) :
  0 ≤ m → - float_scale ≤ e →
  e ≤ fexp Float64.prec Float64.emax (Zdigits2 m + e) →
  canonical_pos (S754_finite false mB eB) →
  scaled m e < scaled (Z.pos mB) eB →
  canonical_nonneg (binary_round_aux Float64.prec Float64.emax false m e l) ∧
  float_value (binary_round_aux Float64.prec Float64.emax false m e l)
    ≤ scaled (Z.pos mB) eB.
Proof.
  intros Hm He Hfe [HcB HeB] Hlt.
  destruct (shr_fexp_div m e l Hm Hfe) as (mrs & H1 & Hm1 & _).
  apply canonical_inv in HcB as (HeB' & HuB & HlB).
  destruct (Zdigits2_bounds m Hm) as (Hd0 & Hdu & Hdl).
  rewrite fexp_eq in *.
  set (d := Zdigits2 m) in *. set (E := Z.max (d + e - 53) (-1074)) in *.
  set (n := E - e) in *. set (m1 := shr_m mrs) in *.
  assert (0 ≤ n) as Hn by lia.
  pose proof (pow2_pos n Hn) as Hpn.
  pose proof (scale_pos e He) as HP.
  assert (0 ≤ m1) as Hm1n by (rewrite Hm1; apply Z.div_pos; lia).
  assert (m1 < 2 ^ 53) as HA.
  { rewrite Hm1. apply Z.div_lt_upper_bound; [done|].
    rewrite <- pow2_add by lia.
    assert (2 ^ d ≤ 2 ^ (n + 53)) by (apply pow2_le; lia). lia. }
  assert (-1074 < E → 2 ^ 52 ≤ m1) as HC.
  { intros HE. rewrite Hm1. apply Z.div_le_lower_bound; [done|].
    rewrite <- pow2_add by lia.
    replace (n + 52) with (d - 1) by lia. apply Hdl. lia. }
  assert (E ≤ eB) as HEB.
  { destruct (Z.eq_dec E (-1074)) as [->|HE]; [done|].
    assert (0 < d) as Hd by lia. specialize (Hdl Hd).
    destruct (Z.le_gt_cases E eB) as [|Hgt]; [done|]. exfalso.
    assert (eB + 54 ≤ d + e) as Hde by lia.
    unfold scaled in Hlt.
    pose proof (scale_pos eB ltac:(slia)) as HPB.
    assert (2 ^ (d - 1 + (e + float_scale)) < 2 ^ (53 + (eB + float_scale))) as Hp.
    { rewrite (pow2_add (d - 1)), (pow2_add 53) by slia.
      set (P := 2 ^ (e + float_scale)) in *. set (Q := 2 ^ (eB + float_scale)) in *.
      assert (2 ^ (d - 1) * P ≤ m * P) by (apply Z.mul_le_mono_nonneg_r; lia).
      assert (Z.pos mB * Q < 2 ^ 53 * Q) by (apply Z.mul_lt_mono_pos_r; lia).
      lia. }
    apply pow2_lt_inv in Hp; unfold float_scale in *; lia. }
  assert (scaled (m1 + 1) E ≤ scaled (Z.pos mB) eB) as HD.
  { rewrite (scaled_pow _ e eB), (scaled_pow _ e E) by slia.
    rewrite (scaled_pow _ e eB) in Hlt by slia. unfold scaled in Hlt.
    fold n. replace (eB - e) with ((eB - E) + n) in * by lia.
    rewrite (pow2_add (eB - E) n) in Hlt |- * by lia.
    assert (0 < 2 ^ (eB - E)) by (apply pow2_pos; lia).
    pose proof (Z.mul_div_le m (2 ^ n) Hpn) as Hfl. rewrite <- Hm1 in Hfl.
    set (P := 2 ^ (e + float_scale)) in *. set (Q := 2 ^ (eB - E)) in *.
    set (N := 2 ^ n) in *.
    assert (m < Z.pos mB * (Q * N)) as Hlt' by nia.
    assert (m1 < Z.pos mB * Q) as Hlt'' by nia.
    apply Z.mul_le_mono_nonneg_r; [lia|]. nia. }
  pose proof (round_nearest_even_bounds m1 (loc_of_shr_record mrs)) as Hr.
  set (m2 := round_nearest_even m1 (loc_of_shr_record mrs)) in *.
  assert (scaled m2 E ≤ scaled (Z.pos mB) eB) as HD'.
  { etrans; [|exact HD]. unfold scaled.
    apply Z.mul_le_mono_nonneg_r; [|lia].
    apply Z.lt_le_incl, pow2_pos. unfold float_scale. lia. }
  destruct (binary_round_aux_canonical m2 E mrs l m e H1 eq_refl) as [Hcan Hval].
  - lia.
  - lia.
  - intros Hm2. destruct (Z.eq_dec E eB) as [Heq|]; [|lia]. exfalso.
    rewrite Hm2, Heq in HD'. unfold scaled in HD'.
    pose proof (scale_pos eB ltac:(slia)). nia.
  - intros HE. specialize (HC HE). lia.
  - split; [done|]. by rewrite Hval.
Qed.

(** *** The product with a weight *)

Lemma digits_at_least_53 (m : Z) : 2 ^ 52 ≤ m → 53 ≤ Zdigits2 m.
Proof.
  intros Hm. destruct (Zdigits2_bounds m ltac:(lia)) as (Hd & Hu & _).
  destruct (Z.le_gt_cases 53 (Zdigits2 m)) as [|Hlt]; [done|].
  assert (2 ^ Zdigits2 m ≤ 2 ^ 52) by (apply pow2_le; lia). lia.
Qed.

Lemma unit_value : float_value Float64.one = 2 ^ float_scale.
Proof. by vm_compute. Qed.

Lemma canonical_nonneg_value (x : float) : canonical_nonneg x → 0 ≤ float_value x.
Proof.
  intros [->|Hx]; [done|]. destruct x as [| | |[] m e]; try done.
  destruct Hx as [(He & _)%canonical_inv _]. simpl. unfold scaled.
  pose proof (scale_pos e ltac:(slia)). lia.
Qed.

(** A canonical float with the value of 1.0 is 1.0. *)
Lemma canonical_unit (x : float) :
  canonical_nonneg x → float_value x = 2 ^ float_scale → x = Float64.one.
Proof.
  intros [->|Hx] Hv; [by vm_compute in Hv|].
  destruct x as [| | |[] m e]; try done. destruct Hx as [Hc _].
  rewrite <- unit_value in Hv.
  destruct (canonical_unique m e 4503599627370496 (-52) Hc) as [-> ->]; done.
Qed.

Lemma mul_below_weight (mL : positive) (eL : Z) (x : float) :
  canonical_pos (S754_finite false mL eL) → -126 ≤ eL ≤ 0 →
  Float64.mul (S754_finite false mL eL) Float64.one = S754_finite false mL eL →
  canonical_nonneg x → float_value x ≤ 2 ^ float_scale →
  canonical_nonneg (Float64.mul (S754_finite false mL eL) x)
  ∧ float_value (Float64.mul (S754_finite false mL eL) x) ≤ scaled (Z.pos mL) eL.
Proof.
  intros HL HeL Hone Hx Hle.
  destruct (Z.eq_dec (float_value x) (2 ^ float_scale)) as [Heq|Hne].
  { rewrite (canonical_unit x Hx Heq), Hone. split; [by right|done]. }
  destruct Hx as [->|Hx].
  { split; [by left|]. simpl. unfold scaled.
    pose proof (scale_pos eL ltac:(slia)). lia. }
  destruct x as [| | |[] mx ex]; try done. destruct Hx as [Hcx _].
  simpl in Hle, Hne. unfold Float64.mul, SFmul. simpl xorb.
  pose proof HL as [(_ & HuL & HlL)%canonical_inv _].
  pose proof Hcx as (Hex & Hux & _)%canonical_inv.
  specialize (HlL ltac:(lia)).
  assert (scaled (Z.pos mx) ex < 2 ^ float_scale) as Hlt by lia. clear Hle Hne.
  unfold scaled in Hlt.
  assert (ex < 0) as Hneg.
  { destruct (Z.lt_ge_cases ex 0) as [|Hge]; [done|]. exfalso.
    assert (2 ^ float_scale ≤ 2 ^ (ex + float_scale)) by (apply pow2_le; slia).
    pose proof (pow2_pos float_scale ltac:(slia)). nia. }
  apply binary_round_aux_below; [lia|slia| |done|].
  - rewrite fexp_eq.
    assert (53 ≤ Zdigits2 (Z.pos (mL * mx))); [|lia].
    apply digits_at_least_53. rewrite Pos2Z.inj_mul. nia.
  - unfold scaled. rewrite Pos2Z.inj_mul.
    set (a := eL + ex + float_scale).
    assert (0 ≤ a) by slia.
    assert (2 ^ float_scale = 2 ^ a * 2 ^ (- eL) * 2 ^ (- ex)) as Hk.
    { rewrite <- !pow2_add by lia. f_equal. lia. }
    replace (ex + float_scale) with (a + (- eL)) in Hlt by lia.
    replace (eL + float_scale) with (a + (- ex)) by lia.
    rewrite Hk, (pow2_add a (- eL)) in Hlt by lia. rewrite (pow2_add a (- ex)) by lia.
    pose proof (pow2_pos a ltac:(lia)). pose proof (pow2_pos (- eL) ltac:(lia)).
    pose proof (pow2_pos (- ex) ltac:(lia)).
    set (A := 2 ^ a) in *. set (L := 2 ^ (- eL)) in *. set (X := 2 ^ (- ex)) in *.
    assert (Z.pos mx < X) as Hmx by nia.
    assert (Z.pos mL * Z.pos mx < Z.pos mL * X) by (apply Z.mul_lt_mono_pos_l; lia).
    nia.
Qed.

(** *** The sum *)

Lemma iter_xO_value (m d : positive) :
  Z.pos (Pos.iter xO m d) = Z.pos m * 2 ^ Z.pos d.
Proof.
  induction d as [|d IH] using Pos.peano_ind.
  - simpl. lia.
  - rewrite Pos.iter_succ, Pos2Z.inj_succ, Z.pow_succ_r by lia.
    rewrite (Pos2Z.inj_xO (Pos.iter xO m d)), IH. lia.
Qed.

Lemma shl_align_fst (mx : positive) (ex ez : Z) :
  ez ≤ ex → Z.pos (shl_align mx ex ez).1 = Z.pos mx * 2 ^ (ex - ez).
Proof.
  intros H. unfold shl_align. destruct (ez - ex) as [|p|p] eqn:Hs; [|lia|].
  - replace (ex - ez) with 0 by lia. simpl. lia.
  - simpl. rewrite iter_xO_value. do 2 f_equal. lia.
Qed.

Lemma binary_round_no_shift (m : positive) (e : Z) :
  e ≤ fexp Float64.prec Float64.emax (Zdigits2 (Z.pos m) + e) →
  binary_round Float64.prec Float64.emax false m e
  = binary_round_aux Float64.prec Float64.emax false (Z.pos m) e loc_Exact.
Proof.
  intros H. unfold binary_round, shl_align. simpl Zdigits2 in H.
  destruct (_ - e) eqn:Hs; try done. lia.
Qed.

Lemma add_below (x y : float) (mB : positive) (eB : Z) :
  canonical_nonneg x → canonical_nonneg y →
  canonical_pos (S754_finite false mB eB) →
  float_value x + float_value y < scaled (Z.pos mB) eB →
  canonical_nonneg (Float64.add x y)
  ∧ float_value (Float64.add x y) ≤ scaled (Z.pos mB) eB.
Proof.
  intros Hx Hy HB Hlt.
  pose proof (canonical_nonneg_value x Hx) as Hx0.
  pose proof (canonical_nonneg_value y Hy) as Hy0.
  destruct Hx as [->|Hx].
  { destruct Hy as [->|Hy].
    - split; [by left|]. simpl in *. lia.
    - destruct y as [| | |[] my ey]; try done. split; [by right|]. simpl in *. lia. }
  destruct x as [| | |[] mx ex]; try done.
  destruct Hy as [->|Hy].
  { split; [by right|]. simpl in *. lia. }
  destruct y as [| | |[] my ey]; try done.
  destruct Hx as [Hcx _], Hy as [Hcy _].
  pose proof Hcx as (Hex & _ & Hlx)%canonical_inv.
  pose proof Hcy as (Hey & _ & Hly)%canonical_inv.
  simpl in Hlt. clear Hx0 Hy0.
  unfold Float64.add, SFadd. cbv zeta. simpl cond_Zopp.
  set (ez := Z.min ex ey).
  pose proof (shl_align_fst mx ex ez ltac:(lia)) as Ha.
  pose proof (shl_align_fst my ey ez ltac:(lia)) as Hb.
  set (pa := (shl_align mx ex ez).1) in *. set (pb := (shl_align my ey ez).1) in *.
  change (Z.pos pa + Z.pos pb) with (Z.pos (pa + pb)). unfold binary_normalize.
  assert (ez ≤ fexp Float64.prec Float64.emax (Zdigits2 (Z.pos (pa + pb)) + ez)) as Hfe.
  { rewrite fexp_eq. destruct (Z.eq_dec ez (-1074)) as [|Hne]; [lia|].
    assert (53 ≤ Zdigits2 (Z.pos (pa + pb))); [|lia].
    apply digits_at_least_53. rewrite Pos2Z.inj_add.
    destruct (Z.le_ge_cases ex ey).
    - replace (ex - ez) with 0 in Ha by lia. specialize (Hlx ltac:(lia)).
      change (2 ^ 0) with 1 in Ha. lia.
    - replace (ey - ez) with 0 in Hb by lia. specialize (Hly ltac:(lia)).
      change (2 ^ 0) with 1 in Hb. lia. }
  rewrite binary_round_no_shift by done.
  apply binary_round_aux_below; [lia|slia|done|done|].
  rewrite (scaled_pow _ ez ex), (scaled_pow _ ez ey) in Hlt by slia.
  unfold scaled in *. rewrite Pos2Z.inj_add, Ha, Hb. lia.
Qed.

Lemma canonical_nonneg_unique (x y : float) :
  canonical_nonneg x → canonical_nonneg y → float_value x = float_value y → x = y.
Proof.
  assert (∀ m e, canonical_mantissa Float64.prec Float64.emax m e = true →
                 0 < scaled (Z.pos m) e) as Hpos.
  { intros m e (He & _)%canonical_inv. unfold scaled.
    pose proof (scale_pos e ltac:(slia)). lia. }
  intros [->|Hx] [->|Hy] Hv; [done| | |].
  - destruct y as [| | |[] my ey]; try done. destruct Hy as [Hc _].
    apply Hpos in Hc. simpl in Hv. lia.
  - destruct x as [| | |[] mx ex]; try done. destruct Hx as [Hc _].
    apply Hpos in Hc. simpl in Hv. lia.
  - destruct x as [| | |[] mx ex]; try done. destruct y as [| | |[] my ey]; try done.
    destruct Hx as [Hcx _], Hy as [Hcy _].
    by destruct (canonical_unique mx ex my ey Hcx Hcy Hv) as [-> ->].
Qed.

(** The sum of two floats below two bounds is not above a float that
    is not below the sum of the bounds. *)
Lemma add_bounded (x y a b : float) (mC : positive) (eC : Z) :
  canonical_nonneg x → canonical_nonneg y →
  canonical_nonneg a → canonical_nonneg b →
  canonical_pos (S754_finite false mC eC) →
  float_value x ≤ float_value a → float_value y ≤ float_value b →
  float_value a + float_value b ≤ scaled (Z.pos mC) eC →
  canonical_nonneg (Float64.add a b)
  ∧ float_value (Float64.add a b) ≤ scaled (Z.pos mC) eC →
  canonical_nonneg (Float64.add x y)
  ∧ float_value (Float64.add x y) ≤ scaled (Z.pos mC) eC.
Proof.
  intros Hx Hy Ha Hb HC Hxa Hyb Hab Hsum.
  destruct (Z.lt_ge_cases (float_value x + float_value y) (scaled (Z.pos mC) eC))
    as [Hlt|Hge]; [by apply add_below|].
  assert (x = a) as -> by (apply canonical_nonneg_unique; [done..|lia]).
  assert (y = b) as -> by (apply canonical_nonneg_unique; [done..|lia]).
  done.
Qed.

(** *** The quotient of two counts *)

Lemma new_location_zero (n : Z) : new_location n 0 = loc_Exact.
Proof. unfold new_location. by destruct (Z.even n). Qed.

Lemma div_eucl_div (a b : Z) : Z.div_eucl a b = (a / b, a mod b).
Proof. unfold Z.div, Z.modulo. by destruct (Z.div_eucl a b). Qed.

Lemma ratio_same (n : positive) : Float64.ratio (Z.pos n) (Z.pos n) = Float64.one.
Proof.
  unfold Float64.ratio, Float64.exact, SFdiv, SFdiv_core_binary. cbv zeta.
  replace (Zdigits2 (Z.pos n) + 0 - (Zdigits2 (Z.pos n) + 0)) with 0 by lia.
  change (Z.min (fexp Float64.prec Float64.emax 0) (0 - 0)) with (-53).
  change (0 - 0 - -53) with 53.
  rewrite Z.shiftl_mul_pow2, div_eucl_div by lia.
  rewrite (Z.mul_comm (Z.pos n)), Z.div_mul, Z.mod_mul by lia.
  rewrite new_location_zero. by vm_compute.
Qed.

Lemma one_eq : Float64.one = S754_finite false 4503599627370496 (-52).
Proof. by vm_compute. Qed.

Lemma ratio_below_unit (k n : positive) :
  (k < n)%positive →
  canonical_nonneg (Float64.ratio (Z.pos k) (Z.pos n))
  ∧ float_value (Float64.ratio (Z.pos k) (Z.pos n)) ≤ 2 ^ float_scale.
Proof.
  intros Hkn. unfold Float64.ratio, Float64.exact, SFdiv, SFdiv_core_binary.
  cbv zeta. simpl Zdigits2. simpl xorb.
  pose proof (digits2_pos_bounds k) as [Hkl Hku].
  pose proof (digits2_pos_bounds n) as [Hnl Hnu].
  set (d1 := Z.pos (digits2_pos k)) in *. set (d2 := Z.pos (digits2_pos n)) in *.
  assert (0 < d1) as Hd1 by (subst d1; lia).
  assert (0 < d2) as Hd2 by (subst d2; lia).
  assert (d1 ≤ d2) as Hd.
  { assert (2 ^ (d1 - 1) < 2 ^ d2) as Hp by lia.
    apply pow2_lt_inv in Hp; lia. }
  rewrite fexp_eq.
  set (e' := Z.min (Z.max (d1 + 0 - (d2 + 0) - 53) (-1074)) (0 - 0)).
  assert (-1074 ≤ e' < 0) as He' by lia.
  destruct (0 - 0 - e') as [|s|s] eqn:Hs; [lia| |lia].
  rewrite Z.shiftl_mul_pow2, div_eucl_div by lia.
  pose proof (pow2_pos (Z.pos s) ltac:(lia)) as Hps.
  set (q := Z.pos k * 2 ^ Z.pos s / Z.pos n).
  assert (0 ≤ q) as Hq0 by (apply Z.div_pos; lia).
  assert (q < 2 ^ Z.pos s) as Hqu.
  { apply Z.div_lt_upper_bound; [lia|]. apply Z.mul_lt_mono_pos_r; lia. }
  rewrite <- unit_value, one_eq. simpl float_value.
  apply binary_round_aux_below; [done|slia| |split; [done|lia]|].
  - rewrite fexp_eq. destruct (Z.eq_dec e' (-1074)) as [|Hne]; [lia|].
    assert (53 ≤ Zdigits2 q); [|lia]. apply digits_at_least_53.
    apply Z.div_le_lower_bound; [lia|].
    assert (Z.pos s = 53 + d2 - d1) as -> by lia.
    replace (53 + d2 - d1) with ((d2 - d1 + 1) + 52) by lia.
    rewrite pow2_add by lia.
    assert (2 ^ d2 ≤ 2 ^ (d1 - 1) * 2 ^ (d2 - d1 + 1)) as Hp.
    { rewrite <- pow2_add by lia. apply pow2_le; lia. }
    pose proof (pow2_pos (d2 - d1 + 1) ltac:(lia)).
    set (X := 2 ^ (d2 - d1 + 1)) in *.
    assert (2 ^ (d1 - 1) * X ≤ Z.pos k * X) by (apply Z.mul_le_mono_nonneg_r; lia).
    nia.
  - change (scaled 4503599627370496 (-52)) with (2 ^ float_scale).
    unfold scaled.
    replace float_scale with (Z.pos s + (e' + float_scale)) at 2 by lia.
    rewrite (pow2_add (Z.pos s)) by slia.
    apply Z.mul_lt_mono_pos_r; [apply scale_pos; slia|done].
Qed.

Lemma overlap_at_most_unit (Q X : gset string) :
  canonical_nonneg (overlap Q X) ∧ float_value (overlap Q X) ≤ 2 ^ float_scale.
Proof.
  unfold overlap.
  assert (size (Q ∩ X) ≤ size Q)%nat as Hle.
  { apply subseteq_size, intersection_subseteq_l. }
  destruct (Z.of_nat (size (Q ∩ X))) as [|k|k] eqn:Hk; [| |lia].
  - destruct (Z.max 1 (Z.of_nat (size Q))) eqn:Hn; [lia| |lia].
    split; [by left|]. simpl. pose proof (pow2_pos float_scale ltac:(slia)). lia.
  - replace (Z.max 1 (Z.of_nat (size Q))) with (Z.of_nat (size Q)) by lia.
    destruct (Z.of_nat (size Q)) as [|n|n] eqn:Hn; [lia| |lia].
    destruct (Pos.lt_total k n) as [Hlt|[Heq|Hgt]]; [| |lia].
    + by apply ratio_below_unit.
    + rewrite Heq, ratio_same. split; [right; by vm_compute|by rewrite unit_value].
Qed.

(** *** The weighted sum *)

Lemma bound_ok (m : positive) (e : Z) :
  canonical_mantissa Float64.prec Float64.emax m e = true → e ≤ 971 →
  canonical_nonneg (S754_finite false m e).
Proof. intros. by right. Qed.

Lemma sum_of_two (t1 t2 : float) :
  canonical_nonneg t1 → canonical_nonneg t2 →
  float_value t1 ≤ scaled 5404319552844595 (-53) →
  float_value t2 ≤ scaled 4503599627370496 (-54) →
  canonical_nonneg (Float64.add t1 t2)
  ∧ float_value (Float64.add t1 t2) ≤ scaled 7656119366529843 (-53).
Proof.
  intros H1 H2 H1' H2'.
  apply (add_bounded t1 t2
           (S754_finite false 5404319552844595 (-53))
           (S754_finite false 4503599627370496 (-54))
           7656119366529843 (-53));
    [done|done|by apply bound_ok|by apply bound_ok|by split|done|done
    |by vm_compute|split; [by apply bound_ok|by vm_compute]].
Qed.

Lemma sum_of_three (s t3 : float) :
  canonical_nonneg s → canonical_nonneg t3 →
  float_value s ≤ scaled 7656119366529843 (-53) →
  float_value t3 ≤ scaled 5404319552844595 (-55) →
  canonical_nonneg (Float64.add s t3)
  ∧ float_value (Float64.add s t3) ≤ scaled 4503599627370496 (-52).
Proof.
  intros H1 H2 H1' H2'.
  apply (add_bounded s t3
           (S754_finite false 7656119366529843 (-53))
           (S754_finite false 5404319552844595 (-55))
           4503599627370496 (-52));
    [done|done|by apply bound_ok|by apply bound_ok|by split|done|done
    |by vm_compute|split; [by apply bound_ok|by vm_compute]].
Qed.

Lemma sum_with_bonus (s bonus : float) :
  canonical_nonneg s →
  float_value s ≤ scaled 4503599627370496 (-52) →
  bonus = S754_finite false 7205759403792794 (-56) ∨ bonus = S754_zero false →
  canonical_nonneg (Float64.add s bonus)
  ∧ float_value (Float64.add s bonus) ≤ scaled 4953959590107546 (-52).
Proof.
  intros H1 H1' Hb.
  apply (add_bounded s bonus
           (S754_finite false 4503599627370496 (-52))
           (S754_finite false 7205759403792794 (-56))
           4953959590107546 (-52)).
  - done.
  - destruct Hb as [->| ->]; [by apply bound_ok|by left].
  - by apply bound_ok.
  - by apply bound_ok.
  - by split.
  - done.
  - destruct Hb as [->| ->]; [lia|by vm_compute].
  - by vm_compute.
  - split; [by apply bound_ok|by vm_compute].
Qed.

Lemma weighted_sum_parts (ov_title ov_snip ov_url : float) :
  canonical_nonneg ov_title ∧ float_value ov_title ≤ 2 ^ float_scale →
  canonical_nonneg ov_snip ∧ float_value ov_snip ≤ 2 ^ float_scale →
  canonical_nonneg ov_url ∧ float_value ov_url ≤ 2 ^ float_scale →
  canonical_nonneg
    (Float64.add
       (Float64.add (Float64.mul Float64.lit_0_6 ov_title)
                    (Float64.mul Float64.lit_0_25 ov_snip))
       (Float64.mul Float64.lit_0_15 ov_url))
  ∧ float_value
      (Float64.add
         (Float64.add (Float64.mul Float64.lit_0_6 ov_title)
                      (Float64.mul Float64.lit_0_25 ov_snip))
         (Float64.mul Float64.lit_0_15 ov_url))
    ≤ scaled 4503599627370496 (-52).
Proof.
  intros [Ht Ht'] [Hs Hs'] [Hu Hu'].
  rewrite lit_0_6_eq, lit_0_25_eq, lit_0_15_eq.
  destruct (mul_below_weight 5404319552844595 (-53) ov_title) as [H1 H1'];
    [by split|lia|by vm_compute|done..|].
  destruct (mul_below_weight 4503599627370496 (-54) ov_snip) as [H2 H2'];
    [by split|lia|by vm_compute|done..|].
  destruct (mul_below_weight 5404319552844595 (-55) ov_url) as [H3 H3'];
    [by split|lia|by vm_compute|done..|].
  destruct (sum_of_two _ _ H1 H2 H1' H2') as [H4 H4'].
  exact (sum_of_three _ _ H4 H3 H4' H3').
Qed.

Lemma weighted_sum_at_most (ov_title ov_snip ov_url phrase_bonus : float) :
  canonical_nonneg ov_title ∧ float_value ov_title ≤ 2 ^ float_scale →
  canonical_nonneg ov_snip ∧ float_value ov_snip ≤ 2 ^ float_scale →
  canonical_nonneg ov_url ∧ float_value ov_url ≤ 2 ^ float_scale →
  phrase_bonus = Float64.lit_0_1 ∨ phrase_bonus = Float64.zero →
  canonical_nonneg (weighted_sum ov_title ov_snip ov_url phrase_bonus)
  ∧ float_value (weighted_sum ov_title ov_snip ov_url phrase_bonus)
    ≤ scaled 4953959590107546 (-52).
Proof.
  intros Ht Hs Hu Hb. unfold weighted_sum. rewrite lit_0_1_eq in Hb.
  destruct (weighted_sum_parts _ _ _ Ht Hs Hu) as [H5 H5'].
  exact (sum_with_bonus _ _ H5 H5' Hb).
Qed.

(** Adding 0.0 changes nothing. *)
Lemma add_zero_r (x : float) :
  canonical_nonneg x → Float64.add x Float64.zero = x.
Proof.
  intros [->|Hx]; [done|]. by destruct x as [| | |[] m e].
Qed.

Lemma weighted_sum_no_bonus (ov_title ov_snip ov_url : float) :
  canonical_nonneg ov_title ∧ float_value ov_title ≤ 2 ^ float_scale →
  canonical_nonneg ov_snip ∧ float_value ov_snip ≤ 2 ^ float_scale →
  canonical_nonneg ov_url ∧ float_value ov_url ≤ 2 ^ float_scale →
  canonical_nonneg (weighted_sum ov_title ov_snip ov_url Float64.zero)
  ∧ float_value (weighted_sum ov_title ov_snip ov_url Float64.zero)
    ≤ scaled 4503599627370496 (-52).
Proof.
  intros Ht Hs Hu. unfold weighted_sum.
  destruct (weighted_sum_parts _ _ _ Ht Hs Hu) as [H5 H5'].
  by rewrite add_zero_r.
Qed.

Lemma score_of_texts_at_most (query title url snippet : string) :
  canonical_nonneg (score_of_texts query title url snippet)
  ∧ float_value (score_of_texts query title url snippet)
    ≤ scaled 4953959590107546 (-52).
Proof.
  unfold score_of_texts. destruct (decide _); [split; [by left|by vm_compute]|].
  apply weighted_sum_at_most; auto using overlap_at_most_unit.
  destruct (Str.contains _ _); auto.
Qed.

(** X19: the score is a finite number of at most 1.1, the float that
    the weights and the phrase bonus add up to: whatever the texts,
    it is never above that float, and so never infinite. *)
Theorem match_score_at_most (query title url snippet : pyval) :
  ∃ x, _match_score query title url snippet = Ok x
       ∧ Float64.geb score_max x = true
       ∧ Float64.ltb score_max x = false.
Proof.
  eexists. split; [apply _match_score_eq|].
  destruct (score_of_texts_at_most (text_of query) (text_of title)
              (text_of url) (text_of snippet)) as [Hc Hv].
  assert (SFleb (score_of_texts (text_of query) (text_of title)
                   (text_of url) (text_of snippet)) score_max = true) as Hle.
  { unfold score_max. by apply leb_of_value. }
  split; [exact Hle|].
  assert (Float64.geb score_max
            (score_of_texts (text_of query) (text_of title)
               (text_of url) (text_of snippet)) = true) as Hge by exact Hle.
  rewrite geb_ltb in Hge; [by apply negb_true_iff in Hge|done|].
  destruct Hc as [->|Hc]; [done|]. intros Hnan. by rewrite Hnan in Hc.
Qed.

(** X20: only the phrase bonus takes the score above 1.0: when the
    joined tokens of the title do not contain the joined tokens of the
    query, the score is at most 1.0. *)
Theorem match_score_without_phrase (query title url snippet : string) :
  Str.contains (Str.join " " (tokens title)) (Str.join " " (tokens query)) = false →
  ∃ x, _match_score (PyStr query) (PyStr title) (PyStr url) (PyStr snippet) = Ok x
       ∧ Float64.geb Float64.one x = true.
Proof.
  intros Hno. eexists. split; [apply _match_score_eq|]. simpl text_of.
  unfold Float64.geb. rewrite one_eq.
  assert (canonical_nonneg (score_of_texts query title url snippet)
          ∧ float_value (score_of_texts query title url snippet)
            ≤ scaled 4503599627370496 (-52)) as [Hc Hv].
  { unfold score_of_texts. destruct (decide _); [split; [by left|by vm_compute]|].
    rewrite Hno. apply weighted_sum_no_bonus; auto using overlap_at_most_unit. }
  by apply leb_of_value.
Qed.

(** Witness of X20: a title on another subject, a snippet that shares
    a word with the query. *)
Lemma match_score_without_phrase_witness :
  ∃ x, _match_score (PyStr "rust compiler") (PyStr "Python tutorial")
         (PyStr "https://docs.python.org/compiler") (PyStr "About the compiler")
       = Ok x
       ∧ Float64.geb Float64.one x = true.
Proof. apply match_score_without_phrase. by vm_compute. Defined.
